(** * MRMS radar server: GRIB2 decoding, colour mapping and product cache

    A shallow embedding of [server/mrmsParser.js] ([parseMRMSGrib2],
    [decodeData], [readBits]) and of the colour scale and cache handlers of
    [server/index.js], with the properties of the decode-and-render
    pipeline proved (or refuted) on it.

    JavaScript numbers are IEEE-754 binary64 values; they are modelled by
    [spec_float] with precision 53 and maximal exponent 1024.  Numbers that
    are only ever integers in the source (offsets, bit positions, the
    operands of the bitwise operators) are modelled by [Z]; every such
    quantity stays far below 2^53, so the double arithmetic of the source
    on them is exact. *)

From Stdlib Require Import ZArith List Bool Lia QArith Qabs Qround Qpower Lqa.
From Stdlib Require Import Floats.SpecFloat.
From stdpp Require Import base list gmap strings pretty.

Local Open Scope Z_scope.

(* ===================================================================== *)
(** ** JavaScript numbers *)
(* ===================================================================== *)

Module JS.

(** A Number: binary64. *)
Definition number := spec_float.

Definition prec64 : Z := 53.
Definition emax64 : Z := 1024.
Definition prec32 : Z := 24.
Definition emax32 : Z := 128.

Definition NaN : number := S754_nan.

(** The Number of an integer (exact below 2^53, rounded to nearest even
    above). *)
Definition of_int (z : Z) : number := binary_normalize prec64 emax64 z 0 false.

Definition add (x y : number) : number := SFadd prec64 emax64 x y.
Definition mul (x y : number) : number := SFmul prec64 emax64 x y.
Definition div (x y : number) : number := SFdiv prec64 emax64 x y.

(** [x < y]; false as soon as one side is NaN. *)
Definition lt (x y : number) : bool := SFltb x y.

(** Rounding of a double to binary32 (what a store into a
    [Float32Array] does), as a binary32 datum. *)
Definition to_binary32 (x : number) : spec_float :=
  match x with
  | S754_finite s m e =>
      binary_normalize prec32 emax32 (cond_Zopp s (Zpos m)) e s
  | _ => x
  end.

(** A binary32 datum read back as a Number (exact). *)
Definition of_binary32 (x : spec_float) : number :=
  match x with
  | S754_finite s m e =>
      binary_normalize prec64 emax64 (cond_Zopp s (Zpos m)) e s
  | _ => x
  end.

(** [Math.fround]: the value an element of a [Float32Array] holds after
    a Number was stored into it. *)
Definition fround (x : number) : number := of_binary32 (to_binary32 x).

(** ToInt32 on an integer-valued Number. *)
Definition to_int32 (z : Z) : Z := (z + 2 ^ 31) mod 2 ^ 32 - 2 ^ 31.

(** The bitwise operators: both operands go through ToInt32, the shift
    count is taken modulo 32, the result is an int32. *)
Definition shl (a k : Z) : Z := to_int32 (Z.shiftl (to_int32 a) (k mod 32)).
Definition sar (a k : Z) : Z := Z.shiftr (to_int32 a) (k mod 32).
Definition bor (a b : Z) : Z := Z.lor (to_int32 a) (to_int32 b).
Definition band (a b : Z) : Z := Z.land (to_int32 a) (to_int32 b).

(** The exact rational value of a finite Number. *)
Definition to_Q (x : number) : option Q :=
  match x with
  | S754_zero _ => Some 0%Q
  | S754_finite s m e =>
      Some (inject_Z (cond_Zopp s (Zpos m)) * Qpower 2 e)%Q
  | _ => None
  end.

(** Outcome of a call: a returned value or a thrown exception. *)
Inductive exn : Type :=
| Error (message : string)
| RangeError.

Inductive completion (A : Type) : Type :=
| Normal (a : A)
| Throw (e : exn).
Arguments Normal {A} a.
Arguments Throw {A} e.

#[global] Instance completion_ret : MRet completion := fun A a => Normal a.

#[global] Instance completion_bind : MBind completion :=
  fun A B k c =>
    match c with
    | Normal a => k a
    | Throw e => Throw e
    end.

End JS.

(* ===================================================================== *)
(** ** Node.js [Buffer] *)
(* ===================================================================== *)

Module Buffer.

(** A buffer (or [Uint8Array]) is its sequence of bytes. *)
Abbreviation t := (list Byte.byte).

Definition u8 (b : Byte.byte) : Z := Z.of_N (Byte.to_N b).

(** [buffer[i]]: the byte, or [undefined] out of range. *)
Definition index (buffer : t) (i : Z) : option Z :=
  if i <? 0 then None else u8 <$> buffer !! Z.to_nat i.

(** ToInt32 of [buffer[i]], as the bitwise operators see it:
    [undefined] becomes 0. *)
Definition index_int32 (buffer : t) (i : Z) : Z :=
  match index buffer i with
  | Some b => b
  | None => 0
  end.

Definition byteLength (buffer : t) : Z := Z.of_nat (length buffer).

(** The [read*] accessors throw a RangeError unless
    [0 <= offset <= length - width]. *)
Definition in_range (buffer : t) (offset width : Z) : bool :=
  (0 <=? offset) && (offset + width <=? byteLength buffer).

Definition readUInt8 (buffer : t) (offset : Z) : JS.completion Z :=
  if in_range buffer offset 1
  then JS.Normal (index_int32 buffer offset)
  else JS.Throw JS.RangeError.

Definition readUInt16BE (buffer : t) (offset : Z) : JS.completion Z :=
  if in_range buffer offset 2
  then JS.Normal (index_int32 buffer offset * 2 ^ 8
                  + index_int32 buffer (offset + 1))
  else JS.Throw JS.RangeError.

Definition readUInt32BE (buffer : t) (offset : Z) : JS.completion Z :=
  if in_range buffer offset 4
  then JS.Normal (index_int32 buffer offset * 2 ^ 24
                  + index_int32 buffer (offset + 1) * 2 ^ 16
                  + index_int32 buffer (offset + 2) * 2 ^ 8
                  + index_int32 buffer (offset + 3))
  else JS.Throw JS.RangeError.

Definition signed (width : Z) (u : Z) : Z :=
  if u <? 2 ^ (width - 1) then u else u - 2 ^ width.

Definition readInt16BE (buffer : t) (offset : Z) : JS.completion Z :=
  u ← readUInt16BE buffer offset; JS.Normal (signed 16 u).

Definition readInt32BE (buffer : t) (offset : Z) : JS.completion Z :=
  u ← readUInt32BE buffer offset; JS.Normal (signed 32 u).

(** The binary32 datum with the given bit pattern. *)
Definition binary32_of_bits (u : Z) : spec_float :=
  let s := 2 ^ 31 <=? u in
  let e := (u / 2 ^ 23) mod 2 ^ 8 in
  let m := u mod 2 ^ 23 in
  if e =? 255 then (if m =? 0 then S754_infinity s else S754_nan)
  else if e =? 0 then
    match m with
    | Zpos p => S754_finite s p (-149)
    | _ => S754_zero s
    end
  else
    match m + 2 ^ 23 with
    | Zpos p => S754_finite s p (e - 150)
    | _ => S754_nan
    end.

Definition readFloatBE (buffer : t) (offset : Z) : JS.completion JS.number :=
  u ← readUInt32BE buffer offset;
  JS.Normal (JS.of_binary32 (binary32_of_bits u)).

(** [buffer.slice(start, end)] for non-negative integer arguments: both
    ends are clamped to the length of the buffer, an inverted range is
    empty. *)
Definition clamp (buffer : t) (i : Z) : Z := Z.min i (byteLength buffer).

Definition slice (buffer : t) (start end_ : Z) : t :=
  drop (Z.to_nat (clamp buffer start)) (take (Z.to_nat (clamp buffer end_)) buffer).

(** [buffer.toString('utf8', 0, 4) === 'GRIB']: the four bytes are
    ASCII, so the decoded string is "GRIB" exactly when the buffer
    starts with these four bytes. *)
Definition starts_with_GRIB (buffer : t) : bool :=
  match buffer with
  | b0 :: b1 :: b2 :: b3 :: _ =>
      (u8 b0 =? 71) && (u8 b1 =? 82) && (u8 b2 =? 73) && (u8 b3 =? 66)
  | _ => false
  end.

End Buffer.

(* ===================================================================== *)
(** ** [server/mrmsParser.js] *)
(* ===================================================================== *)

Module MrmsParser.

(** [(buffer[Math.floor(pos / 8)] >> (7 - pos % 8)) & 1] *)
Definition bitAt (buffer : Buffer.t) (pos : Z) : Z :=
  let byteIndex := pos / 8 in
  let bitIndex := 7 - pos mod 8 in
  JS.band (JS.sar (Buffer.index_int32 buffer byteIndex) bitIndex) 1.

(** [readBits]: the loop runs for [i = 0 .. numBits - 1]. *)
Definition readBits (buffer : Buffer.t) (bitOffset numBits : Z) : Z :=
  foldl (fun value i => JS.bor (JS.shl value 1) (bitAt buffer (bitOffset + i)))
        0 (seqZ 0 numBits).

(** The mutable state of the loop of [decodeData]. *)
Record loop_state := LoopState { st_values : list JS.number; st_bitPos : Z }.

(** [if (bitMap) { ... if (isMasked === 0) ... }]: the cell is skipped.
    A [Buffer] object is truthy whatever its length. *)
Definition skipped (bitMap : option Buffer.t) (i : Z) : bool :=
  match bitMap with
  | Some bm => bitAt bm i =? 0
  | None => false
  end.

Section Decode.

(** [Math.pow] at the two call sites of [decodeData], with an integer
    base and an integer exponent. ECMAScript leaves its precision to
    the implementation, so it is a parameter here. *)
Variable Math_pow : Z -> Z -> JS.number.

Variables (dataBuffer : Buffer.t) (bitMap : option Buffer.t).
Variables (numberOfDataPoints numberOfBits : Z).
Variable referenceValue : JS.number.
Variables (binaryScaleFactor decimalScaleFactor : Z).

Definition binaryScale : JS.number := Math_pow 2 binaryScaleFactor.
Definition decimalScale : JS.number := Math_pow 10 (- decimalScaleFactor).

(** [(referenceValue + packedValue * binaryScale) * decimalScale] *)
Definition unpack (packedValue : Z) : JS.number :=
  JS.mul (JS.add referenceValue (JS.mul (JS.of_int packedValue) binaryScale))
         decimalScale.

(** One iteration of the loop body; a store into the [Float32Array]
    rounds to binary32. *)
Definition decodeCell (st : loop_state) (i : Z) : loop_state :=
  if skipped bitMap i then
    LoopState (<[Z.to_nat i := JS.fround JS.NaN]> (st_values st)) (st_bitPos st)
  else
    let packedValue := readBits dataBuffer (st_bitPos st) numberOfBits in
    let bitPos := st_bitPos st + numberOfBits in
    LoopState (<[Z.to_nat i := JS.fround (unpack packedValue)]> (st_values st))
              bitPos.

(** The loop state after the iterations [i = 0 .. k - 1]. *)
Definition decodeLoop (k : Z) : loop_state :=
  foldl decodeCell
        (LoopState (replicate (Z.to_nat numberOfDataPoints) (S754_zero false)) 0)
        (seqZ 0 k).

(** [decodeData]; the result is the content of the [Float32Array]
    (allocation failure for huge sizes is not modelled). *)
Definition decodeData : list JS.number :=
  let values := replicate (Z.to_nat numberOfDataPoints) (S754_zero false) in
  if numberOfBits =? 0 then
    (fun _ => JS.fround referenceValue) <$> values
  else
    st_values (decodeLoop numberOfDataPoints).

End Decode.

(** The argument of [new Date(Date.UTC(...))]. *)
Record date := DateUTC {
  utc_year : Z; utc_monthIndex : Z; utc_day : Z;
  utc_hours : Z; utc_minutes : Z; utc_seconds : Z }.

(** The constants bound by [parseMRMSGrib2] before it calls
    [decodeData]; [offsetK] is the value of [offset] when section K is
    read. *)
Record sections := Sections {
  discipline : Z; edition : Z;
  offset1 : Z; section1Length : Z;
  year : Z; month : Z; day : Z; hour : Z; minute : Z; second : Z;
  offset2 : Z; section2Length : Z; section2Number : Z;
  offset3 : Z; section3Length : Z;
  nx : Z; ny : Z;
  la1 : JS.number; lo1 : JS.number; la2 : JS.number; lo2 : JS.number;
  dx : JS.number; dy : JS.number;
  offset4 : Z; section4Length : Z;
  offset5 : Z; section5Length : Z;
  numberOfDataPoints : Z;
  referenceValue : JS.number;
  binaryScaleFactor : Z; decimalScaleFactor : Z; numberOfBits : Z;
  offset6 : Z; section6Length : Z; bitMapIndicator : Z;
  bitMap : option Buffer.t;
  offset7 : Z; section7Length : Z;
  dataOffset : Z; dataBuffer : Buffer.t }.

Definition micro (x : Z) : JS.number := JS.div (JS.of_int x) (JS.of_int 1000000).

(** Lines 6-99 of [parseMRMSGrib2]. *)
Definition parseSections (buffer : Buffer.t) : JS.completion sections :=
  let offset := 0 in
  if negb (Buffer.starts_with_GRIB buffer)
  then JS.Throw (JS.Error "Not a valid GRIB2 file") else
  discipline ← Buffer.readUInt8 buffer (offset + 6);
  edition ← Buffer.readUInt8 buffer (offset + 7);
  if negb (edition =? 2)
  then JS.Throw (JS.Error ("GRIB edition " +:+ pretty edition +:+ " not supported"))
  else
  let offset1 := offset + 16 in
  section1Length ← Buffer.readUInt32BE buffer offset1;
  year ← Buffer.readUInt16BE buffer (offset1 + 12);
  month ← Buffer.readUInt8 buffer (offset1 + 14);
  day ← Buffer.readUInt8 buffer (offset1 + 15);
  hour ← Buffer.readUInt8 buffer (offset1 + 16);
  minute ← Buffer.readUInt8 buffer (offset1 + 17);
  second ← Buffer.readUInt8 buffer (offset1 + 18);
  let offset2 := offset1 + section1Length in
  section2Length ← Buffer.readUInt32BE buffer offset2;
  section2Number ← Buffer.readUInt8 buffer (offset2 + 4);
  let offset3 := if section2Number =? 2 then offset2 + section2Length else offset2 in
  section3Length ← Buffer.readUInt32BE buffer offset3;
  nx ← Buffer.readUInt32BE buffer (offset3 + 30);
  ny ← Buffer.readUInt32BE buffer (offset3 + 34);
  la1 ← Buffer.readInt32BE buffer (offset3 + 46);
  lo1 ← Buffer.readInt32BE buffer (offset3 + 50);
  la2 ← Buffer.readInt32BE buffer (offset3 + 55);
  lo2 ← Buffer.readInt32BE buffer (offset3 + 59);
  dx ← Buffer.readUInt32BE buffer (offset3 + 63);
  dy ← Buffer.readUInt32BE buffer (offset3 + 67);
  let offset4 := offset3 + section3Length in
  section4Length ← Buffer.readUInt32BE buffer offset4;
  let offset5 := offset4 + section4Length in
  section5Length ← Buffer.readUInt32BE buffer offset5;
  numberOfDataPoints ← Buffer.readUInt32BE buffer (offset5 + 5);
  referenceValue ← Buffer.readFloatBE buffer (offset5 + 11);
  binaryScaleFactor ← Buffer.readInt16BE buffer (offset5 + 15);
  decimalScaleFactor ← Buffer.readInt16BE buffer (offset5 + 17);
  numberOfBits ← Buffer.readUInt8 buffer (offset5 + 19);
  let offset6 := offset5 + section5Length in
  section6Length ← Buffer.readUInt32BE buffer offset6;
  bitMapIndicator ← Buffer.readUInt8 buffer (offset6 + 5);
  let bitMap :=
    if bitMapIndicator =? 0
    then Some (Buffer.slice buffer (offset6 + 6) (offset6 + section6Length))
    else None in
  let offset7 := offset6 + section6Length in
  section7Length ← Buffer.readUInt32BE buffer offset7;
  let dataOffset := offset7 + 5 in
  let dataBuffer := Buffer.slice buffer dataOffset (offset7 + section7Length) in
  JS.Normal (Sections discipline edition
    offset1 section1Length year month day hour minute second
    offset2 section2Length section2Number
    offset3 section3Length nx ny
    (micro la1) (micro lo1) (micro la2) (micro lo2) (micro dx) (micro dy)
    offset4 section4Length
    offset5 section5Length numberOfDataPoints referenceValue
    binaryScaleFactor decimalScaleFactor numberOfBits
    offset6 section6Length bitMapIndicator bitMap
    offset7 section7Length dataOffset dataBuffer).

(** The object [parseMRMSGrib2] returns. *)
Record grib := Grib {
  g_discipline : Z; g_timestamp : date;
  g_nx : Z; g_ny : Z;
  g_la1 : JS.number; g_lo1 : JS.number; g_la2 : JS.number; g_lo2 : JS.number;
  g_dx : JS.number; g_dy : JS.number;
  g_values : list JS.number;
  g_numberOfDataPoints : Z }.

(** Lines 101-125 of [parseMRMSGrib2]. *)
Definition gribOfSections (Math_pow : Z -> Z -> JS.number) (s : sections) : grib :=
  let values :=
    decodeData Math_pow (dataBuffer s) (bitMap s) (numberOfDataPoints s)
      (numberOfBits s) (referenceValue s)
      (binaryScaleFactor s) (decimalScaleFactor s) in
  Grib (discipline s)
       (DateUTC (year s) (month s - 1) (day s) (hour s) (minute s) (second s))
       (nx s) (ny s) (la1 s) (lo1 s) (la2 s) (lo2 s) (dx s) (dy s)
       values (numberOfDataPoints s).

Definition parseMRMSGrib2 (Math_pow : Z -> Z -> JS.number) (buffer : Buffer.t)
  : JS.completion grib :=
  s ← parseSections buffer; JS.Normal (gribOfSections Math_pow s).

End MrmsParser.

(* ===================================================================== *)
(** ** [server/index.js] *)
(* ===================================================================== *)

Module Server.

Import MrmsParser.

Record product := Product { name : string; url : string; description : string }.

Definition MRMS_PRODUCTS : gmap string product :=
  list_to_map
    [ ("rala", Product "Reflectivity at Lowest Altitude"
         "https://mrms.ncep.noaa.gov/data/2D/ReflectivityAtLowestAltitude/MRMS_ReflectivityAtLowestAltitude.latest.grib2.gz"
         "Radar reflectivity closest to ground level");
      ("composite", Product "Composite Reflectivity"
         "https://mrms.ncep.noaa.gov/data/2D/MergedReflectivityQCComposite/MRMS_MergedReflectivityQCComposite.latest.grib2.gz"
         "Maximum reflectivity across all altitudes");
      ("precip_rate", Product "Precipitation Rate"
         "https://mrms.ncep.noaa.gov/data/2D/PrecipRate/MRMS_PrecipRate.latest.grib2.gz"
         "Current precipitation rate (mm/hr)");
      ("echo_tops", Product "Echo Tops"
         "https://mrms.ncep.noaa.gov/data/2D/EchoTop_18/MRMS_EchoTop_18.latest.grib2.gz"
         "Height of storm tops (18 dBZ threshold)") ]%string.

(** Milliseconds. *)
Definition CACHE_DURATION : Z := 2 * 60 * 1000.

(** [getColorForReflectivity]: the RGBA array for a value in dBZ. *)
Definition getColorForReflectivity (dbz : JS.number) : list Z :=
  if JS.lt dbz (JS.of_int 5) then [0; 0; 0; 0]
  else if JS.lt dbz (JS.of_int 10) then [4; 233; 231; 180]
  else if JS.lt dbz (JS.of_int 15) then [1; 159; 244; 200]
  else if JS.lt dbz (JS.of_int 20) then [3; 0; 244; 220]
  else if JS.lt dbz (JS.of_int 25) then [2; 253; 2; 230]
  else if JS.lt dbz (JS.of_int 30) then [1; 197; 1; 240]
  else if JS.lt dbz (JS.of_int 35) then [0; 142; 0; 250]
  else if JS.lt dbz (JS.of_int 40) then [253; 248; 2; 255]
  else if JS.lt dbz (JS.of_int 45) then [229; 188; 0; 255]
  else if JS.lt dbz (JS.of_int 50) then [253; 139; 0; 255]
  else if JS.lt dbz (JS.of_int 55) then [212; 0; 0; 255]
  else if JS.lt dbz (JS.of_int 60) then [188; 0; 0; 255]
  else if JS.lt dbz (JS.of_int 65) then [248; 0; 253; 255]
  else [153; 85; 201; 255].

(** The RGBA buffer [generateRadarImage] hands to the PNG encoder:
    [Buffer.alloc(nx * ny * 4)] filled cell by cell; a store past the end
    of a buffer is ignored. *)
Definition paintCell (imageData : list Z) (cell : nat * JS.number) : list Z :=
  let '(i, value) := cell in
  let color := getColorForReflectivity value in
  let offset := (i * 4)%nat in
  <[(offset + 3)%nat := color !!! 3%nat]>
    (<[(offset + 2)%nat := color !!! 2%nat]>
       (<[(offset + 1)%nat := color !!! 1%nat]>
          (<[offset := color !!! 0%nat]> imageData))).

Definition generateRadarImage (gribMessage : grib) : JS.completion (list Z) :=
  if (g_nx gribMessage =? 0) || (g_ny gribMessage =? 0)
  then JS.Throw (JS.Error "Invalid GRIB message structure")
  else
    JS.Normal
      (foldl paintCell
             (replicate (Z.to_nat (g_nx gribMessage * g_ny gribMessage * 4)) 0)
             (imap pair (g_values gribMessage))).

Record metadata := Metadata {
  m_nx : Z; m_ny : Z;
  m_la1 : JS.number; m_lo1 : JS.number; m_la2 : JS.number; m_lo2 : JS.number }.

(** What [fetchRadarData] resolves to. *)
Record radarData := RadarData {
  _fullData : grib; timestamp : date; meta : metadata }.

(** A value of the [dataCache] map. *)
Record cacheEntry := CacheEntry { data : radarData; time : Z }.

(** The module-level mutable state, and the log of the downloads made so
    far (most recent first). *)
Record state := State {
  dataCache : gmap string cacheEntry;
  fetched : list string }.

Inductive response : Type :=
| LatestJson (ts : date) (md : metadata) (productId : string)
| ImagePng (imageData : list Z)
| Status500 (e : JS.exn).

Section Handlers.

Variable Math_pow : Z -> Z -> JS.number.

(** The outside world: what downloading and gunzipping a URL yields,
    given the downloads made before. *)
Variable download : string -> list string -> JS.completion Buffer.t.

(** [fetchRadarData]; keys inherited from [Object.prototype] are not
    modelled, [MRMS_PRODUCTS] holds its four own keys. *)
Definition fetchRadarData (productId : string) (st : state)
  : JS.completion radarData * state :=
  match MRMS_PRODUCTS !! productId with
  | None => (JS.Throw (JS.Error ("Unknown product: " +:+ productId)), st)
  | Some product =>
      let st' := State (dataCache st) (url product :: fetched st) in
      (decompressed ← download (url product) (fetched st);
       gribData ← parseMRMSGrib2 Math_pow decompressed;
       JS.Normal
         (RadarData gribData (g_timestamp gribData)
            (Metadata (g_nx gribData) (g_ny gribData)
               (g_la1 gribData) (g_lo1 gribData)
               (g_la2 gribData) (g_lo2 gribData))),
       st')
  end.

(** [req.query.product || 'rala'] *)
Definition productOf (query : option string) : string :=
  match query with
  | Some s => if decide (s = "") then "rala" else s
  | None => "rala"
  end.

(** The entry served from the cache:
    [cached && (now - cached.time < CACHE_DURATION)]. *)
Definition freshEntry (cached : option cacheEntry) (now : Z) : option cacheEntry :=
  match cached with
  | Some c => if now - time c <? CACHE_DURATION then Some c else None
  | None => None
  end.

(** [dataCache.set(cacheKey, { data: radarData, time: now })] *)
Definition setCache (cacheKey : string) (radarData : radarData) (now : Z)
                    (st : state) : state :=
  State (<[cacheKey := CacheEntry radarData now]> (dataCache st)) (fetched st).

(** [app.get('/api/radar/latest', ...)], served to completion before
    the next request starts; [now] is what [Date.now()] returns. *)
Definition getLatest (query : option string) (now : Z) (st : state)
  : response * state :=
  let productId := productOf query in
  let cacheKey := productId in
  let cached := dataCache st !! cacheKey in
  match freshEntry cached now with
  | Some c => (LatestJson (timestamp (data c)) (meta (data c)) productId, st)
  | None =>
      match fetchRadarData productId st with
      | (JS.Normal radarData, st') =>
          (LatestJson (timestamp radarData) (meta radarData) productId,
           setCache cacheKey radarData now st')
      | (JS.Throw e, st') => (Status500 e, st')
      end
  end.

(** [!cached || (now - cached.time >= CACHE_DURATION)] *)
Definition stale (cached : option cacheEntry) (now : Z) : bool :=
  match cached with
  | Some c => CACHE_DURATION <=? now - time c
  | None => true
  end.

Definition renderCached (cacheKey : string) (st : state) : response * state :=
  match dataCache st !! cacheKey with
  | Some currentCached =>
      match generateRadarImage (_fullData (data currentCached)) with
      | JS.Normal imageData => (ImagePng imageData, st)
      | JS.Throw e => (Status500 e, st)
      end
  | None => (Status500 (JS.Error "Cannot read properties of undefined"), st)
  end.

(** [app.get('/api/radar/image', ...)], up to the PNG encoding. *)
Definition getImage (query : option string) (now : Z) (st : state)
  : response * state :=
  let productId := productOf query in
  let cacheKey := productId in
  let cached := dataCache st !! cacheKey in
  if stale cached now then
    match fetchRadarData productId st with
    | (JS.Normal radarData, st') =>
        renderCached cacheKey (setCache cacheKey radarData now st')
    | (JS.Throw e, st') => (Status500 e, st')
    end
  else renderCached cacheKey st.

End Handlers.

End Server.

(* ===================================================================== *)
(** ** Reference notions the properties are stated with *)
(* ===================================================================== *)

Module Host.

(** One admissible [Math.pow] on integer arguments with a positive
    base: the correctly rounded power.  At exponent 0 it returns 1, as
    ECMAScript requires of every implementation; powers of two in the
    binary64 range are exact. *)
Definition Math_pow (base exponent : Z) : JS.number :=
  if 0 <=? exponent then JS.of_int (base ^ exponent)
  else
    let '(q, e, l) :=
      SFdiv_core_binary JS.prec64 JS.emax64 1 0 (base ^ (- exponent)) 0 in
    binary_round_aux JS.prec64 JS.emax64 false q e l.

End Host.

Module Spec.

(** Bit [k] of a byte string, most significant bit of each byte first;
    bits past the end are 0. *)
Definition bit (buffer : Buffer.t) (k : Z) : bool :=
  Z.testbit (Buffer.index_int32 buffer (k / 8)) (7 - k mod 8).

Definition Zsum (l : list Z) : Z := foldr Z.add 0 l.

(** The [numBits]-bit big-endian unsigned integer that starts at bit
    [bitOffset]: bit [i] of the field weighs [2 ^ (numBits - 1 - i)]. *)
Definition unsignedBE (buffer : Buffer.t) (bitOffset numBits : Z) : Z :=
  Zsum ((fun i => Z.b2z (bit buffer (bitOffset + i)) * 2 ^ (numBits - 1 - i))
          <$> seqZ 0 numBits).

(** A bitmap is present and marks cell [i] as missing: bit
    [7 - i mod 8] of its byte [i / 8] is 0. *)
Definition missing (bitMap : option Buffer.t) (i : Z) : bool :=
  match bitMap with
  | Some bm => negb (bit bm i)
  | None => false
  end.

(** [(R + X * 2^E) * 10^(-D)] over the rationals. *)
Definition physical (R : Q) (X E D : Z) : Q :=
  ((R + inject_Z X * Qpower 2 E) * Qpower 10 (- D))%Q.

(** A stored value is a real number within 1e-4 of [exact]. *)
Definition withinTolerance (v : JS.number) (exact : Q) : Prop :=
  exists y, JS.to_Q v = Some y /\ (Qabs (y - exact) <= 1 # 10000)%Q.

(** What the iteration for cell [i] stores when it starts with the
    cursor at [bitPos]. *)
Definition cellValue (Math_pow : Z -> Z -> JS.number)
    (dataBuffer : Buffer.t) (bitMap : option Buffer.t) (numberOfBits : Z)
    (referenceValue : JS.number) (binaryScaleFactor decimalScaleFactor : Z)
    (bitPos i : Z) : JS.number :=
  if MrmsParser.skipped bitMap i then JS.NaN
  else JS.fround
         (MrmsParser.unpack Math_pow referenceValue binaryScaleFactor
            decimalScaleFactor
            (MrmsParser.readBits dataBuffer bitPos numberOfBits)).

(** Number of bits the payload must hold for the cells [0 .. n - 1]. *)
Definition bitsNeeded (bitMap : option Buffer.t) (numberOfBits n : Z) : Z :=
  numberOfBits
  * Z.of_nat (length (filter (fun i => missing bitMap i = false) (seqZ 0 n))).

(** The byte ranges (start, width) [parseSections] reads through the
    accessors and the magic test, for a parse that returned [s]; the
    bitmap and the payload are taken from offset6 + 6 on and from
    offset7 + 5 on. *)
Definition headerRanges (s : MrmsParser.sections) : list (Z * Z) :=
  let o1 := MrmsParser.offset1 s in
  let o2 := MrmsParser.offset2 s in
  let o3 := MrmsParser.offset3 s in
  let o4 := MrmsParser.offset4 s in
  let o5 := MrmsParser.offset5 s in
  let o6 := MrmsParser.offset6 s in
  let o7 := MrmsParser.offset7 s in
  [ (0, 4); (6, 2);
    (o1, 4); (o1 + 12, 7);
    (o2, 5);
    (o3, 4); (o3 + 30, 8); (o3 + 46, 8); (o3 + 55, 16);
    (o4, 4);
    (o5, 4); (o5 + 5, 4); (o5 + 11, 9);
    (o6, 4); (o6 + 5, 1);
    (o7, 4) ].

(** Byte [p] lies in none of these ranges. *)
Definition unread (s : MrmsParser.sections) (p : Z) : Prop :=
  Forall (fun r => p < fst r \/ fst r + snd r <= p) (headerRanges s).

(** Where section 3 starts: after section 2 if there is one. *)
Definition next3 (s : MrmsParser.sections) : Z :=
  if MrmsParser.section2Number s =? 2
  then MrmsParser.offset2 s + MrmsParser.section2Length s
  else MrmsParser.offset2 s.

(** The buffer with the two bytes of the grid definition template
    number (at 12 and 13 in section 3) and of the data representation
    template number (at 9 and 10 in section 5) replaced. *)
Definition withTemplates (offset3 offset5 : Z) (g1 g2 p1 p2 : Byte.byte)
    (buffer : Buffer.t) : Buffer.t :=
  <[Z.to_nat (offset5 + 10) := p2]>
    (<[Z.to_nat (offset5 + 9) := p1]>
       (<[Z.to_nat (offset3 + 13) := g2]>
          (<[Z.to_nat (offset3 + 12) := g1]> buffer))).

End Spec.

(** Synthetic GRIB2 messages with the layout the parser expects. *)
Module Fixture.

Definition byte (z : Z) : Byte.byte :=
  default Byte.x00 (Byte.of_N (Z.to_N (z mod 256))).

Definition u16 (z : Z) : Buffer.t := [byte (z / 2 ^ 8); byte z].
Definition u32 (z : Z) : Buffer.t :=
  [byte (z / 2 ^ 24); byte (z / 2 ^ 16); byte (z / 2 ^ 8); byte z].
Definition zeros (n : nat) : Buffer.t := replicate n Byte.x00.

(** Indicator section: "GRIB", two reserved bytes, discipline, edition,
    total length (8 bytes, left at zero). *)
Definition section0 (discipline edition : Z) : Buffer.t :=
  [byte 71; byte 82; byte 73; byte 66] ++ zeros 2
    ++ [byte discipline; byte edition] ++ zeros 8.

(** Identification section, 21 bytes, dated 2024-05-17 12:34:56. *)
Definition section1 : Buffer.t :=
  u32 21 ++ [byte 1] ++ zeros 7 ++ u16 2024
    ++ [byte 5; byte 17; byte 12; byte 34; byte 56] ++ zeros 2.

(** Grid definition section, 72 bytes. *)
Definition section3 (template nx ny la1 lo1 la2 lo2 dx dy : Z) : Buffer.t :=
  u32 72 ++ [byte 3] ++ zeros 7 ++ u16 template ++ zeros 16
    ++ u32 nx ++ u32 ny ++ zeros 8 ++ u32 la1 ++ u32 lo1 ++ zeros 1
    ++ u32 la2 ++ u32 lo2 ++ u32 dx ++ u32 dy ++ zeros 1.

(** Product definition section, 9 bytes. *)
Definition section4 : Buffer.t := u32 9 ++ [byte 4] ++ zeros 4.

(** Data representation section, 21 bytes; [R] is the bit pattern of
    the binary32 reference value. *)
Definition section5 (template n R E D bits : Z) : Buffer.t :=
  u32 21 ++ [byte 5] ++ u32 n ++ u16 template ++ u32 R
    ++ u16 E ++ u16 D ++ [byte bits] ++ zeros 1.

(** Bit-map section: indicator 0 and the bitmap, or indicator 255. *)
Definition section6 (bitMap : option Buffer.t) : Buffer.t :=
  match bitMap with
  | Some bm => u32 (6 + Z.of_nat (length bm)) ++ [byte 6; byte 0] ++ bm
  | None => u32 6 ++ [byte 6; byte 255]
  end.

(** Data section with a declared length and the bytes actually there. *)
Definition section7 (declared : Z) (payload : Buffer.t) : Buffer.t :=
  u32 declared ++ [byte 7] ++ payload.

Definition message (gridTemplate packingTemplate n R E D bits : Z)
    (bitMap : option Buffer.t) (declared7 : Z) (payload : Buffer.t) : Buffer.t :=
  section0 209 2 ++ section1
    ++ section3 gridTemplate 2 1 20000000 230000000 20000000 231000000 1000000 1000000
    ++ section4
    ++ section5 packingTemplate n R E D bits
    ++ section6 bitMap
    ++ section7 declared7 payload.

(** A 25-bit field holding 2^24 + 1. *)
Definition payload25 : Buffer.t := [Byte.x80; Byte.x00; Byte.x00; Byte.x80].

(** The 32 bits 1000...0. *)
Definition payload32 : Buffer.t := [Byte.x80; Byte.x00; Byte.x00; Byte.x00].

(** A bitmap for 100 cells that marks only cell 3 as missing. *)
Definition bitmap100 : Buffer.t := Byte.xef :: replicate 12 Byte.xff.

(** Two 8-bit cells, 5 and 255, no bitmap. *)
Definition twoCells : Buffer.t :=
  message 0 0 2 0 0 0 8 None 7 [Byte.x05; Byte.xff].

(** The same message cut one byte short: the second cell is gone. *)
Definition twoCellsCut : Buffer.t := take (length twoCells - 1) twoCells.

(** Two cells, the first one marked missing, the second one 7. *)
Definition maskedCell : Buffer.t :=
  message 0 0 2 0 0 0 8 (Some [Byte.x40]) 6 [Byte.x07].

(** The data section declares the largest length there is, and holds
    one payload byte. *)
Definition overlongSection7 : Buffer.t :=
  message 0 0 2 0 0 0 8 None (2 ^ 32 - 1) [Byte.x05].

(** [twoCells] with the declared length of section 4 set to 0. *)
Definition zeroSection4 : Buffer.t := <[112%nat := Byte.x00]> twoCells.

(** [twoCells] cut right after the length field of section 7. *)
Definition fourBytesLeft : Buffer.t := take 149 twoCells.

(** A network that always delivers [twoCells]. *)
Definition deliverTwoCells (url : string) (earlier : list string)
  : JS.completion Buffer.t := JS.Normal twoCells.

(** Grid template 1 and packing template 3 instead of 0 and 0. *)
Definition otherTemplates : Buffer.t :=
  message 1 3 2 0 0 0 8 None 7 [Byte.x05; Byte.xff].

End Fixture.

(* ===================================================================== *)
(** ** The two radar endpoints as one server *)
(* ===================================================================== *)

Module Routes.

Import Server.

(** A request to one of the two radar endpoints, with the value of
    [Date.now()] when it is handled. *)
Inductive request : Type :=
| GetLatest (query : option string) (now : Z)
| GetImage (query : option string) (now : Z).

(** [req.query.product || 'rala'], the cache key of the request. *)
Definition requestKey (r : request) : string :=
  match r with
  | GetLatest query _ | GetImage query _ => productOf query
  end.

Section Serve.

Variable Math_pow : Z -> Z -> JS.number.
Variable download : string -> list string -> JS.completion Buffer.t.

Definition serve (r : request) (st : state) : response * state :=
  match r with
  | GetLatest query now => getLatest Math_pow download query now st
  | GetImage query now => getImage Math_pow download query now st
  end.

(** The state after a sequence of requests, each served to completion. *)
Definition serveAll (rs : list request) (st : state) : state :=
  foldl (fun st r => snd (serve r st)) st rs.

End Serve.

(** The property names every object literal inherits from
    [Object.prototype]: [MRMS_PRODUCTS[productId]] is not [undefined]
    for them, although they are no products. *)
Definition Object_prototype_keys : list string :=
  [ "constructor"; "__defineGetter__"; "__defineSetter__"; "hasOwnProperty";
    "__lookupGetter__"; "__lookupSetter__"; "isPrototypeOf";
    "propertyIsEnumerable"; "toString"; "valueOf"; "__proto__";
    "toLocaleString" ]%string.

(** What the image endpoint answers for a grid: the pixel buffer, or
    status 500 when [generateRadarImage] throws. *)
Definition imageResponse (g : MrmsParser.grib) : response :=
  match generateRadarImage g with
  | JS.Normal imageData => ImagePng imageData
  | JS.Throw e => Status500 e
  end.

End Routes.

(* ===================================================================== *)
(** ** The colour scale as a table *)
(* ===================================================================== *)

Module ColourScale.

(** The rows of the colour scale, lowest band first. *)
Definition colorTable : list (list Z) :=
  [ [0; 0; 0; 0]; [4; 233; 231; 180]; [1; 159; 244; 200]; [3; 0; 244; 220];
    [2; 253; 2; 230]; [1; 197; 1; 240]; [0; 142; 0; 250]; [253; 248; 2; 255];
    [229; 188; 0; 255]; [253; 139; 0; 255]; [212; 0; 0; 255]; [188; 0; 0; 255];
    [248; 0; 253; 255]; [153; 85; 201; 255] ].

(** The thresholds [getColorForReflectivity] compares with. *)
Definition thresholds : list Z := [5; 10; 15; 20; 25; 30; 35; 40; 45; 50; 55; 60; 65].

(** The band of a value of [q] dBZ: band [k] runs from [5 k] up to, not
    including, [5 k + 5]; everything below 5 is in band 0 and everything
    from 65 on in band 13. *)
Definition bandOf (q : Q) : Z := Z.max 0 (Z.min 13 (Qfloor (q / 5))).

End ColourScale.

(* ===================================================================== *)
(** ** More sample messages *)
(* ===================================================================== *)

Module Sample.

Import Fixture.

(** A local use section of 6 bytes: its length, its number 2, one byte
    of content. *)
Definition localUse : Buffer.t := u32 6 ++ [byte 2; byte 0].

(** [twoCells] up to the end of section 1, and the rest of it. *)
Definition upToSection1 : Buffer.t := take 37 twoCells.
Definition fromSection3 : Buffer.t := drop 37 twoCells.

(** Three bytes, too short for the magic number; "GRIB" alone; and an
    indicator section of edition 1. *)
Definition noMagic : Buffer.t := [byte 71; byte 82; byte 73].
Definition magicOnly : Buffer.t := [byte 71; byte 82; byte 73; byte 66].
Definition edition1 : Buffer.t := section0 209 1.

(** 37.5 dBZ. *)
Definition dbz37_5 : JS.number := JS.div (JS.of_int 75) (JS.of_int 2).

(** A request log: metadata for one product, then two images. *)
Definition requests : list Routes.request :=
  [ Routes.GetLatest (Some "rala"%string) 0;
    Routes.GetImage (Some "composite"%string) 5000;
    Routes.GetImage (Some "nexrad"%string) 6000 ].

End Sample.

(* ===================================================================== *)
(** ** Exact values and rounding to nearest *)
(* ===================================================================== *)

Module Exact.

(** [m * 2 ^ e] as a rational. *)
Definition Qv (m e : Z) : Q := (inject_Z m * Qpower 2 e)%Q.

(** The values a binary format with [prec] bits of mantissa and
    exponents below [emax] holds: [M * 2 ^ E] with [|M| < 2 ^ prec] and
    [E] between the exponent of the subnormals and that of the largest
    numbers. *)
Definition representable (prec emax : Z) (w : Q) : Prop :=
  exists M E : Z,
    Z.abs M < 2 ^ prec /\ 3 - emax - prec <= E <= emax - prec
    /\ (w == Qv M E)%Q.

(** The datum [r] is a zero or a finite number of sign [s] and
    magnitude [y]. *)
Definition holds (r : spec_float) (s : bool) (y : Q) : Prop :=
  match r with
  | S754_zero s' => s' = s /\ (y == 0)%Q
  | S754_finite s' mf ef => s' = s /\ (y == Qv (Zpos mf) ef)%Q
  | _ => False
  end.

(** The first magnitude that rounds to infinity: halfway between the
    largest finite number and [2 ^ emax]. *)
Definition overflowAt (prec emax : Z) : Q :=
  (Qpower 2 emax - Qpower 2 (emax - prec) * (1 # 2))%Q.

(** The datum [r] is a valid number of the format whose value is as
    near to [q] as any representable value, within half a unit in the
    last place. *)
Definition near (prec emax : Z) (q : Q) (r : spec_float) : Prop :=
  valid_binary prec emax r = true
  /\ exists y,
       JS.to_Q r = Some y
       /\ (forall w, representable prec emax w -> (Qabs (y - q) <= Qabs (w - q))%Q)
       /\ (Qabs (y - q) * 2
           <= Qabs q * Qpower 2 (1 - prec) + Qpower 2 (3 - emax - prec))%Q.

(** The integer the mantissa [m] becomes when [n] bits are shifted out
    and the result is rounded to nearest, ties to even. *)
Definition roundShift (m n : Z) : Z :=
  match n with
  | Zpos p =>
      let mrs := SpecFloat.iter_pos shr_1 p (Build_shr_record m false false) in
      round_nearest_even (shr_m mrs) (loc_of_shr_record mrs)
  | _ => m
  end.

(** The second half of [binary_round_aux]: renormalise the rounded
    mantissa and test for overflow. *)
Definition finish (prec emax : Z) (s : bool) (m' e1 : Z) : spec_float :=
  let '(mrs'', e'') := shr_fexp prec emax m' e1 loc_Exact in
  match shr_m mrs'' with
  | Z0 => S754_zero s
  | Zpos p => if e'' <=? emax - prec then S754_finite s p e'' else S754_infinity s
  | _ => S754_nan
  end.

(** The result of rounding a positive value: [y] is its magnitude. *)
Definition rounded (prec emax : Z) (q : Q) (s : bool) (r : spec_float) (y : Q)
  : Prop :=
  (0 <= y)%Q
  /\ (forall w, representable prec emax w -> (Qabs (y - q) <= Qabs (w - q))%Q)
  /\ (Qabs (y - q) * 2
      <= q * Qpower 2 (1 - prec) + Qpower 2 (SpecFloat.emin prec emax))%Q
  /\ (((y < Qpower 2 emax)%Q /\ valid_binary prec emax r = true /\ holds r s y)
      \/ ((Qpower 2 emax <= y)%Q /\ r = S754_infinity s)).

(** The real numbers a binary32 datum can hold. *)
Definition binary32_value (w : Q) : Prop := representable JS.prec32 JS.emax32 w.

(** From this magnitude on a store into a [Float32Array] gives an
    infinity: [2 ^ 128 - 2 ^ 103]. *)
Definition binary32_limit : Q := overflowAt JS.prec32 JS.emax32.

(** [v] is what IEEE 754 rounding to nearest of the double [d] to
    binary32 gives, read back as a double: NaN, the infinities and the
    zeros are kept; a finite [d] of value [q] gives a binary32 value
    with no other binary32 value nearer to [q], or the infinity of its
    sign from [binary32_limit] on. *)
Definition rounds32 (d v : JS.number) : Prop :=
  match d with
  | S754_finite s m e =>
      let q := (inject_Z (cond_Zopp s (Zpos m)) * Qpower 2 e)%Q in
      ((Qabs q < binary32_limit)%Q ->
         exists y, JS.to_Q v = Some y /\ binary32_value y
                   /\ forall w, binary32_value w -> (Qabs (y - q) <= Qabs (w - q))%Q)
      /\ ((binary32_limit <= Qabs q)%Q -> v = S754_infinity s)
  | _ => v = d
  end.

(** [x] is a finite double whose value is [q]. *)
Definition isDouble (x : JS.number) (q : Q) : Prop :=
  valid_binary JS.prec64 JS.emax64 x = true
  /\ exists y, JS.to_Q x = Some y /\ (y == q)%Q.

End Exact.

(* ===================================================================== *)
(** ** The layout of a message *)
(* ===================================================================== *)

Module Layout.

(** The unsigned integer held by the [width] bytes from byte [offset]
    on, most significant byte first; bytes past the end count as 0. *)
Definition uintBE (buffer : Buffer.t) (offset width : Z) : Z :=
  Spec.unsignedBE buffer (8 * offset) (8 * width).

(** The ASCII codes of "GRIB". *)
Definition magic : Buffer.t := [Byte.x47; Byte.x52; Byte.x49; Byte.x42].

(** Where the sections 1 to 7 start when every declared length is
    taken at its word: each cursor is the one before plus the length
    declared there; section 2 counts only if byte 4 at its cursor is 2. *)
Definition cursors (buffer : Buffer.t) : list Z :=
  let o1 := 16 in
  let o2 := o1 + uintBE buffer o1 4 in
  let o3 := if uintBE buffer (o2 + 4) 1 =? 2 then o2 + uintBE buffer o2 4 else o2 in
  let o4 := o3 + uintBE buffer o3 4 in
  let o5 := o4 + uintBE buffer o4 4 in
  let o6 := o5 + uintBE buffer o5 4 in
  let o7 := o6 + uintBE buffer o6 4 in
  [o1; o2; o3; o4; o5; o6; o7].

(** The fields (start, width) the parser reads relative to the cursors
    [o1 .. o7]. *)
Definition fieldsAt (o : list Z) : list (Z * Z) :=
  match o with
  | [o1; o2; o3; o4; o5; o6; o7] =>
      [ (o1, 4); (o1 + 12, 7);
        (o2, 5);
        (o3, 4); (o3 + 30, 8); (o3 + 46, 8); (o3 + 55, 16);
        (o4, 4);
        (o5, 4); (o5 + 5, 4); (o5 + 11, 9);
        (o6, 4); (o6 + 5, 1);
        (o7, 4) ]
  | _ => []
  end.

Definition fits (buffer : Buffer.t) (field : Z * Z) : Prop :=
  field.1 + field.2 <= Buffer.byteLength buffer.

(** Every one of these fields lies inside the buffer. *)
Definition fieldsInside (buffer : Buffer.t) : Prop :=
  Forall (fits buffer) (fieldsAt (cursors buffer)).

(** A well-formed indicator section: the magic number and edition 2. *)
Definition indicatorOk (buffer : Buffer.t) : Prop :=
  take 4 buffer = magic /\ buffer !! 7%nat = Some Byte.x02.

End Layout.

(* ===================================================================== *)
(** ** A network that fails once *)
(* ===================================================================== *)

Module SampleNet.

(** A network whose first download fails and whose later downloads
    deliver [twoCells]. *)
Definition failFirst (url : string) (earlier : list string)
  : JS.completion Buffer.t :=
  match earlier with
  | [] => JS.Throw (JS.Error "Failed to fetch MRMS data: 503 Service Unavailable")
  | _ => JS.Normal Fixture.twoCells
  end.

End SampleNet.

(* ===================================================================== *)
(** ** Bytes, bits and the int32 operators *)
(* ===================================================================== *)

Section BitFacts.

Lemma u8_range (b : Byte.byte) : 0 <= Buffer.u8 b < 256.
Proof.
  unfold Buffer.u8. pose proof (Byte.to_N_bounded b) as H. lia.
Qed.

Lemma index_int32_range (buffer : Buffer.t) (i : Z) :
  0 <= Buffer.index_int32 buffer i < 256.
Proof.
  unfold Buffer.index_int32, Buffer.index.
  destruct (i <? 0); [lia|].
  destruct (buffer !! Z.to_nat i) as [b|]; simpl; [apply u8_range | lia].
Qed.

Lemma to_int32_small (z : Z) : - 2 ^ 31 <= z < 2 ^ 31 -> JS.to_int32 z = z.
Proof. intros H. unfold JS.to_int32. rewrite Z.mod_small; lia. Qed.

Lemma shiftr_byte_range (b k : Z) :
  0 <= b < 256 -> 0 <= k -> 0 <= Z.shiftr b k < 256.
Proof.
  intros Hb Hk. rewrite Z.shiftr_div_pow2 by lia.
  assert (0 < 2 ^ k) by (apply Z.pow_pos_nonneg; lia).
  split; [apply Z.div_pos; lia|].
  apply Z.div_lt_upper_bound; nia.
Qed.

(** The shift-and-mask of the source extracts one bit. *)
Lemma bitAt_bit (buffer : Buffer.t) (pos : Z) :
  MrmsParser.bitAt buffer pos = Z.b2z (Spec.bit buffer pos).
Proof.
  unfold MrmsParser.bitAt, Spec.bit, JS.band, JS.sar.
  pose proof (index_int32_range buffer (pos / 8)) as Hb.
  pose proof (Z.mod_pos_bound pos 8 ltac:(lia)) as Hm.
  set (b := Buffer.index_int32 buffer (pos / 8)) in *.
  rewrite (to_int32_small b) by lia.
  rewrite (Z.mod_small (7 - pos mod 8) 32) by lia.
  pose proof (shiftr_byte_range b (7 - pos mod 8) Hb ltac:(lia)) as Hs.
  rewrite (to_int32_small (Z.shiftr b _)) by lia.
  rewrite (to_int32_small 1) by lia.
  change 1 with (Z.ones 1) at 1. rewrite Z.land_ones by lia.
  change (2 ^ 1) with 2. rewrite <- Z.bit0_mod.
  rewrite Z.shiftr_spec by lia. reflexivity.
Qed.

Lemma bitAt_range (buffer : Buffer.t) (pos : Z) :
  0 <= MrmsParser.bitAt buffer pos <= 1.
Proof. rewrite bitAt_bit. destruct (Spec.bit buffer pos); simpl; lia. Qed.

(** While the accumulator stays below 2^30, one step of [readBits]
    doubles it and adds the bit. *)
Lemma readBits_step (value bit : Z) :
  0 <= value < 2 ^ 30 -> 0 <= bit <= 1 ->
  JS.bor (JS.shl value 1) bit = 2 * value + bit.
Proof.
  intros Hv Hb. unfold JS.bor, JS.shl.
  rewrite (to_int32_small value) by lia.
  change (1 mod 32) with 1. rewrite Z.shiftl_mul_pow2 by lia.
  change (2 ^ 1) with 2.
  rewrite !(to_int32_small (value * 2)) by lia.
  rewrite (to_int32_small bit) by lia.
  pose proof (Z.add_lor_land (value * 2) bit) as Hsum.
  assert (Z.land (value * 2) bit = 0) as Hland.
  { assert (bit = 0 \/ bit = 1) as [-> | ->] by lia.
    - apply Z.land_0_r.
    - change 1 with (Z.ones 1). rewrite Z.land_ones by lia.
      change (2 ^ 1) with 2. apply Z.mod_mul. lia. }
  lia.
Qed.

End BitFacts.

(* ===================================================================== *)
(** ** [readBits] against the big-endian unsigned integer *)
(* ===================================================================== *)

Section ReadBitsFacts.

Variable buffer : Buffer.t.
Variable bitOffset : Z.

Lemma Zsum_snoc (l : list Z) (x : Z) : Spec.Zsum (l ++ [x]) = Spec.Zsum l + x.
Proof. unfold Spec.Zsum. induction l as [|y l IH]; simpl; lia. Qed.

Lemma Zsum_fmap_scale (f g : Z -> Z) (c : Z) (l : list Z) :
  (forall x, x ∈ l -> f x = c * g x) ->
  Spec.Zsum (f <$> l) = c * Spec.Zsum (g <$> l).
Proof.
  induction l as [|y l IH]; intros H; [unfold Spec.Zsum; simpl; lia|].
  rewrite !fmap_cons.
  change (f y + Spec.Zsum (f <$> l) = c * (g y + Spec.Zsum (g <$> l))).
  rewrite (H y) by (left; reflexivity).
  rewrite IH by (intros x Hx; apply H; right; exact Hx). lia.
Qed.

Lemma readBits_S (k : nat) :
  MrmsParser.readBits buffer bitOffset (Z.of_nat (S k))
  = JS.bor (JS.shl (MrmsParser.readBits buffer bitOffset (Z.of_nat k)) 1)
           (MrmsParser.bitAt buffer (bitOffset + Z.of_nat k)).
Proof.
  unfold MrmsParser.readBits. rewrite seqZ_S, foldl_snoc. reflexivity.
Qed.

Lemma unsignedBE_S (k : nat) :
  Spec.unsignedBE buffer bitOffset (Z.of_nat (S k))
  = 2 * Spec.unsignedBE buffer bitOffset (Z.of_nat k)
    + Z.b2z (Spec.bit buffer (bitOffset + Z.of_nat k)).
Proof.
  unfold Spec.unsignedBE.
  rewrite seqZ_S, fmap_app, fmap_cons, fmap_nil, Zsum_snoc.
  f_equal.
  - apply Zsum_fmap_scale. intros i Hi. apply elem_of_seqZ in Hi.
    replace (Z.of_nat (S k) - 1 - i) with (Z.succ (Z.of_nat k - 1 - i)) by lia.
    rewrite Z.pow_succ_r by lia. ring.
  - replace (Z.of_nat (S k) - 1 - (0 + Z.of_nat k)) with 0 by lia.
    rewrite Z.add_0_l. change (2 ^ 0) with 1. lia.
Qed.

Lemma unsignedBE_range (k : nat) :
  0 <= Spec.unsignedBE buffer bitOffset (Z.of_nat k) < 2 ^ Z.of_nat k.
Proof.
  induction k as [|k IH].
  - unfold Spec.unsignedBE. simpl. lia.
  - rewrite unsignedBE_S, Nat2Z.inj_succ, Z.pow_succ_r by lia.
    destruct (Spec.bit buffer (bitOffset + Z.of_nat k)); simpl; lia.
Qed.

(** Up to 31 bits the int32 accumulator never wraps. *)
Lemma readBits_unsigned_nat (k : nat) :
  (k <= 31)%nat ->
  MrmsParser.readBits buffer bitOffset (Z.of_nat k)
  = Spec.unsignedBE buffer bitOffset (Z.of_nat k).
Proof.
  induction k as [|k IH]; intros Hk; [reflexivity|].
  rewrite readBits_S, unsignedBE_S, IH by lia.
  pose proof (unsignedBE_range k) as Hr.
  assert (2 ^ Z.of_nat k <= 2 ^ 30) by (apply Z.pow_le_mono_r; lia).
  rewrite readBits_step, bitAt_bit; [reflexivity | lia | apply bitAt_range].
Qed.

Lemma readBits_unsigned (numBits : Z) :
  0 <= numBits <= 31 ->
  MrmsParser.readBits buffer bitOffset numBits
  = Spec.unsignedBE buffer bitOffset numBits.
Proof.
  intros H. rewrite <- (Z2Nat.id numBits) by lia.
  apply readBits_unsigned_nat. lia.
Qed.

End ReadBitsFacts.

(* ===================================================================== *)
(** ** The loop of [decodeData] *)
(* ===================================================================== *)

Section DecodeFacts.

Variable Math_pow : Z -> Z -> JS.number.
Variables (dataBuffer : Buffer.t) (bitMap : option Buffer.t).
Variables (numberOfDataPoints numberOfBits : Z).
Variable referenceValue : JS.number.
Variables (binaryScaleFactor decimalScaleFactor : Z).

Local Abbreviation loop :=
  (MrmsParser.decodeLoop Math_pow dataBuffer bitMap numberOfDataPoints
     numberOfBits referenceValue binaryScaleFactor decimalScaleFactor).
Local Abbreviation cell :=
  (MrmsParser.decodeCell Math_pow dataBuffer bitMap numberOfBits
     referenceValue binaryScaleFactor decimalScaleFactor).
Local Abbreviation decoded :=
  (MrmsParser.decodeData Math_pow dataBuffer bitMap numberOfDataPoints
     numberOfBits referenceValue binaryScaleFactor decimalScaleFactor).
Local Abbreviation cellValue :=
  (Spec.cellValue Math_pow dataBuffer bitMap numberOfBits
     referenceValue binaryScaleFactor decimalScaleFactor).

Lemma skipped_missing (i : Z) :
  MrmsParser.skipped bitMap i = Spec.missing bitMap i.
Proof.
  unfold MrmsParser.skipped, Spec.missing. destruct bitMap as [bm|]; [|reflexivity].
  rewrite bitAt_bit. destruct (Spec.bit bm i); reflexivity.
Qed.

Lemma decodeLoop_S (k : nat) :
  loop (Z.of_nat (S k)) = cell (loop (Z.of_nat k)) (Z.of_nat k).
Proof.
  unfold MrmsParser.decodeLoop. rewrite seqZ_S, foldl_snoc. reflexivity.
Qed.

Lemma decodeCell_length (st : MrmsParser.loop_state) (i : Z) :
  length (MrmsParser.st_values (cell st i)) = length (MrmsParser.st_values st).
Proof.
  unfold MrmsParser.decodeCell.
  destruct (MrmsParser.skipped bitMap i); simpl; apply length_insert.
Qed.

Lemma decodeLoop_length (k : nat) :
  length (MrmsParser.st_values (loop (Z.of_nat k))) = Z.to_nat numberOfDataPoints.
Proof.
  induction k as [|k IH].
  - unfold MrmsParser.decodeLoop. simpl. apply length_replicate.
  - rewrite decodeLoop_S, decodeCell_length. exact IH.
Qed.

(** The cursor moves by [numberOfBits] exactly at the cells that are
    not skipped. *)
Lemma decodeLoop_bitPos_S (k : nat) :
  MrmsParser.st_bitPos (loop (Z.of_nat (S k)))
  = if MrmsParser.skipped bitMap (Z.of_nat k)
    then MrmsParser.st_bitPos (loop (Z.of_nat k))
    else MrmsParser.st_bitPos (loop (Z.of_nat k)) + numberOfBits.
Proof.
  rewrite decodeLoop_S. unfold MrmsParser.decodeCell.
  destruct (MrmsParser.skipped bitMap (Z.of_nat k)); reflexivity.
Qed.

Lemma decodeLoop_bitPos (k : nat) :
  MrmsParser.st_bitPos (loop (Z.of_nat k))
  = Spec.bitsNeeded bitMap numberOfBits (Z.of_nat k).
Proof.
  induction k as [|k IH].
  - unfold Spec.bitsNeeded. simpl. lia.
  - rewrite decodeLoop_bitPos_S, IH. unfold Spec.bitsNeeded.
    rewrite seqZ_S, filter_app, length_app. simpl.
    rewrite filter_cons, filter_nil, Z.add_0_l, <- skipped_missing.
    destruct (MrmsParser.skipped bitMap (Z.of_nat k)) eqn:Hs.
    + rewrite decide_False by discriminate. simpl. lia.
    + rewrite decide_True by reflexivity. simpl. lia.
Qed.

(** Iteration [i] writes cell [i]. *)
Lemma decodeLoop_written (i : nat) :
  Z.of_nat i < numberOfDataPoints ->
  MrmsParser.st_values (loop (Z.of_nat (S i))) !! i
  = Some (cellValue (MrmsParser.st_bitPos (loop (Z.of_nat i))) (Z.of_nat i)).
Proof.
  intros Hi. rewrite decodeLoop_S. unfold MrmsParser.decodeCell, Spec.cellValue.
  rewrite Nat2Z.id.
  destruct (MrmsParser.skipped bitMap (Z.of_nat i)); simpl;
    apply list_lookup_insert_eq; rewrite decodeLoop_length; lia.
Qed.

(** Later iterations leave cell [i] alone. *)
Lemma decodeLoop_stable (i k : nat) :
  (i < k)%nat ->
  MrmsParser.st_values (loop (Z.of_nat (S k))) !! i
  = MrmsParser.st_values (loop (Z.of_nat k)) !! i.
Proof.
  intros Hik. rewrite decodeLoop_S. unfold MrmsParser.decodeCell.
  rewrite Nat2Z.id.
  destruct (MrmsParser.skipped bitMap (Z.of_nat k)); simpl;
    apply list_lookup_insert_ne; lia.
Qed.

Lemma decodeLoop_final (i k : nat) :
  (i < k)%nat -> Z.of_nat i < numberOfDataPoints ->
  MrmsParser.st_values (loop (Z.of_nat k)) !! i
  = Some (cellValue (MrmsParser.st_bitPos (loop (Z.of_nat i))) (Z.of_nat i)).
Proof.
  intros Hik Hi. induction k as [|k IH]; [lia|].
  destruct (decide (i = k)) as [-> | Hne].
  - apply decodeLoop_written. exact Hi.
  - rewrite decodeLoop_stable by lia. apply IH. lia.
Qed.

(** Every cell of the result, when [numberOfBits] is not 0. *)
Lemma decodeData_cell (i : Z) :
  numberOfBits <> 0 -> 0 <= i < numberOfDataPoints ->
  decoded !! Z.to_nat i = Some (cellValue (MrmsParser.st_bitPos (loop i)) i).
Proof.
  intros Hb Hi. unfold MrmsParser.decodeData.
  rewrite (proj2 (Z.eqb_neq numberOfBits 0) Hb).
  replace (loop numberOfDataPoints)
    with (loop (Z.of_nat (Z.to_nat numberOfDataPoints)))
    by (rewrite Z2Nat.id by lia; reflexivity).
  rewrite (decodeLoop_final (Z.to_nat i)) by lia.
  rewrite Z2Nat.id by lia. reflexivity.
Qed.

(** The early return: the result is filled with the reference value. *)
Lemma decodeData_zero_bits :
  numberOfBits = 0 ->
  decoded = replicate (Z.to_nat numberOfDataPoints) (JS.fround referenceValue).
Proof.
  intros Hb. unfold MrmsParser.decodeData. rewrite Hb. simpl.
  rewrite fmap_replicate. reflexivity.
Qed.

Lemma decodeData_length : length decoded = Z.to_nat numberOfDataPoints.
Proof.
  unfold MrmsParser.decodeData. destruct (numberOfBits =? 0).
  - rewrite length_fmap. apply length_replicate.
  - destruct (Z_le_gt_dec 0 numberOfDataPoints) as [Hn | Hn].
    + replace (loop numberOfDataPoints)
        with (loop (Z.of_nat (Z.to_nat numberOfDataPoints)))
        by (rewrite Z2Nat.id by lia; reflexivity).
      apply decodeLoop_length.
    + unfold MrmsParser.decodeLoop. rewrite seqZ_nil by lia. simpl.
      apply length_replicate.
Qed.

End DecodeFacts.

(* ===================================================================== *)
(** ** Reading past the end of the payload *)
(* ===================================================================== *)

Section ShortPayload.

Lemma foldl_pointwise {A B} (f g : A -> B -> A) (l : list B) (a : A) :
  (forall x y, f x y = g x y) -> foldl f a l = foldl g a l.
Proof.
  intros H. revert a. induction l as [|y l IH]; intros a; simpl; [reflexivity|].
  rewrite H. apply IH.
Qed.

Variable data : Buffer.t.
Variable k : nat.

Local Abbreviation padded := (data ++ Fixture.zeros k).

Lemma index_int32_padded (i : Z) :
  Buffer.index_int32 padded i = Buffer.index_int32 data i.
Proof.
  unfold Buffer.index_int32, Buffer.index, Fixture.zeros.
  destruct (i <? 0); [reflexivity|].
  destruct (decide (Z.to_nat i < length data)%nat) as [Hlt | Hge].
  - rewrite lookup_app_l by exact Hlt. reflexivity.
  - rewrite lookup_app_r by lia.
    rewrite (proj2 (lookup_ge_None data (Z.to_nat i))) by lia.
    destruct (replicate k Byte.x00 !! (Z.to_nat i - length data)%nat) as [b|] eqn:Hb;
      [|reflexivity].
    apply lookup_replicate in Hb as [-> _]. reflexivity.
Qed.

Lemma bitAt_padded (pos : Z) :
  MrmsParser.bitAt padded pos = MrmsParser.bitAt data pos.
Proof. unfold MrmsParser.bitAt. rewrite index_int32_padded. reflexivity. Qed.

Lemma readBits_padded (bitOffset numBits : Z) :
  MrmsParser.readBits padded bitOffset numBits
  = MrmsParser.readBits data bitOffset numBits.
Proof.
  unfold MrmsParser.readBits. apply foldl_pointwise.
  intros value i. rewrite bitAt_padded. reflexivity.
Qed.

Lemma decodeData_padded Math_pow bitMap n bits R E D :
  MrmsParser.decodeData Math_pow padded bitMap n bits R E D
  = MrmsParser.decodeData Math_pow data bitMap n bits R E D.
Proof.
  unfold MrmsParser.decodeData, MrmsParser.decodeLoop.
  destruct (bits =? 0); [reflexivity|]. f_equal.
  apply foldl_pointwise. intros st i. unfold MrmsParser.decodeCell.
  rewrite readBits_padded. reflexivity.
Qed.

End ShortPayload.

(* ===================================================================== *)
(** ** The accessors of [Buffer] *)
(* ===================================================================== *)

Section BufferFacts.

Variable buffer : Buffer.t.

Lemma bind_Normal_inv {A B} (c : JS.completion A) (k : A -> JS.completion B) (b : B) :
  c ≫= k = JS.Normal b -> exists a, c = JS.Normal a /\ k a = JS.Normal b.
Proof. destruct c as [a|e]; [intros H; exists a; auto | discriminate]. Qed.

Lemma bind_Throw_inv {A B} (c : JS.completion A) (k : A -> JS.completion B) (e : JS.exn) :
  c ≫= k = JS.Throw e -> c = JS.Throw e \/ exists a, c = JS.Normal a /\ k a = JS.Throw e.
Proof.
  destruct c as [a|e']; [intros H; right; exists a; auto |].
  intros [= <-]. left. reflexivity.
Qed.

Lemma bind_Normal {A B} (a : A) (k : A -> JS.completion B) :
  JS.Normal a ≫= k = k a.
Proof. reflexivity. Qed.

Lemma in_range_spec (offset width : Z) :
  Buffer.in_range buffer offset width = true
  <-> 0 <= offset /\ offset + width <= Buffer.byteLength buffer.
Proof. unfold Buffer.in_range. rewrite andb_true_iff, Z.leb_le, Z.leb_le. tauto. Qed.

Lemma readUInt8_Normal (offset v : Z) :
  Buffer.readUInt8 buffer offset = JS.Normal v ->
  0 <= offset /\ offset + 1 <= Buffer.byteLength buffer /\ 0 <= v < 2 ^ 8.
Proof.
  unfold Buffer.readUInt8.
  destruct (Buffer.in_range buffer offset 1) eqn:Hr; [|discriminate].
  apply in_range_spec in Hr. intros [= <-].
  pose proof (index_int32_range buffer offset). lia.
Qed.

Lemma readUInt16BE_Normal (offset v : Z) :
  Buffer.readUInt16BE buffer offset = JS.Normal v ->
  0 <= offset /\ offset + 2 <= Buffer.byteLength buffer /\ 0 <= v < 2 ^ 16.
Proof.
  unfold Buffer.readUInt16BE.
  destruct (Buffer.in_range buffer offset 2) eqn:Hr; [|discriminate].
  apply in_range_spec in Hr. intros [= <-].
  pose proof (index_int32_range buffer offset).
  pose proof (index_int32_range buffer (offset + 1)). lia.
Qed.

Lemma readUInt32BE_Normal (offset v : Z) :
  Buffer.readUInt32BE buffer offset = JS.Normal v ->
  0 <= offset /\ offset + 4 <= Buffer.byteLength buffer /\ 0 <= v < 2 ^ 32.
Proof.
  unfold Buffer.readUInt32BE.
  destruct (Buffer.in_range buffer offset 4) eqn:Hr; [|discriminate].
  apply in_range_spec in Hr. intros [= <-].
  pose proof (index_int32_range buffer offset).
  pose proof (index_int32_range buffer (offset + 1)).
  pose proof (index_int32_range buffer (offset + 2)).
  pose proof (index_int32_range buffer (offset + 3)). lia.
Qed.

Lemma readInt16BE_Normal (offset v : Z) :
  Buffer.readInt16BE buffer offset = JS.Normal v ->
  0 <= offset /\ offset + 2 <= Buffer.byteLength buffer.
Proof.
  unfold Buffer.readInt16BE. intros H.
  apply bind_Normal_inv in H as (u & Hu & _).
  apply readUInt16BE_Normal in Hu. lia.
Qed.

Lemma readInt32BE_Normal (offset v : Z) :
  Buffer.readInt32BE buffer offset = JS.Normal v ->
  0 <= offset /\ offset + 4 <= Buffer.byteLength buffer.
Proof.
  unfold Buffer.readInt32BE. intros H.
  apply bind_Normal_inv in H as (u & Hu & _).
  apply readUInt32BE_Normal in Hu. lia.
Qed.

Lemma readFloatBE_Normal (offset : Z) (v : JS.number) :
  Buffer.readFloatBE buffer offset = JS.Normal v ->
  0 <= offset /\ offset + 4 <= Buffer.byteLength buffer.
Proof.
  unfold Buffer.readFloatBE. intros H.
  apply bind_Normal_inv in H as (u & Hu & _).
  apply readUInt32BE_Normal in Hu. lia.
Qed.

(** The only exception an accessor throws is the RangeError. *)
Lemma readUInt8_Throw (offset : Z) (e : JS.exn) :
  Buffer.readUInt8 buffer offset = JS.Throw e -> e = JS.RangeError.
Proof.
  unfold Buffer.readUInt8. destruct (Buffer.in_range buffer offset 1);
    [discriminate | intros [= <-]; reflexivity].
Qed.

Lemma readUInt16BE_Throw (offset : Z) (e : JS.exn) :
  Buffer.readUInt16BE buffer offset = JS.Throw e -> e = JS.RangeError.
Proof.
  unfold Buffer.readUInt16BE. destruct (Buffer.in_range buffer offset 2);
    [discriminate | intros [= <-]; reflexivity].
Qed.

Lemma readUInt32BE_Throw (offset : Z) (e : JS.exn) :
  Buffer.readUInt32BE buffer offset = JS.Throw e -> e = JS.RangeError.
Proof.
  unfold Buffer.readUInt32BE. destruct (Buffer.in_range buffer offset 4);
    [discriminate | intros [= <-]; reflexivity].
Qed.

Lemma readInt16BE_Throw (offset : Z) (e : JS.exn) :
  Buffer.readInt16BE buffer offset = JS.Throw e -> e = JS.RangeError.
Proof.
  unfold Buffer.readInt16BE. intros H.
  apply bind_Throw_inv in H as [H | (u & _ & H)];
    [apply readUInt16BE_Throw in H; exact H | discriminate H].
Qed.

Lemma readInt32BE_Throw (offset : Z) (e : JS.exn) :
  Buffer.readInt32BE buffer offset = JS.Throw e -> e = JS.RangeError.
Proof.
  unfold Buffer.readInt32BE. intros H.
  apply bind_Throw_inv in H as [H | (u & _ & H)];
    [apply readUInt32BE_Throw in H; exact H | discriminate H].
Qed.

Lemma readFloatBE_Throw (offset : Z) (e : JS.exn) :
  Buffer.readFloatBE buffer offset = JS.Throw e -> e = JS.RangeError.
Proof.
  unfold Buffer.readFloatBE. intros H.
  apply bind_Throw_inv in H as [H | (u & _ & H)];
    [apply readUInt32BE_Throw in H; exact H | discriminate H].
Qed.

End BufferFacts.

(* ===================================================================== *)
(** ** Binary32 values stored into a [Float32Array] *)
(* ===================================================================== *)

Section RoundingFacts.

Lemma digits2_pos_iter_xO (m d : positive) :
  digits2_pos (Pos.iter xO m d) = (digits2_pos m + d)%positive.
Proof.
  induction d as [|d IH] using Pos.peano_ind.
  - simpl. lia.
  - rewrite Pos.iter_succ. simpl. rewrite IH. lia.
Qed.

Lemma iter_pos_Pos_iter {A} (f : A -> A) (n : positive) (x : A) :
  SpecFloat.iter_pos f n x = @Pos.iter A f x n.
Proof.
  revert x. induction n as [n IH | n IH |]; intros x; simpl.
  - rewrite !IH. rewrite <- !Pos.iter_swap. reflexivity.
  - rewrite !IH. reflexivity.
  - reflexivity.
Qed.

Lemma iter_shr_1_iter_xO (m d : positive) :
  SpecFloat.iter_pos shr_1 d (Build_shr_record (Zpos (Pos.iter xO m d)) false false)
  = Build_shr_record (Zpos m) false false.
Proof.
  rewrite iter_pos_Pos_iter.
  induction d as [|d IH] using Pos.peano_ind.
  - reflexivity.
  - rewrite Pos.iter_succ_r, Pos.iter_succ. exact IH.
Qed.

Lemma digits2_pos_bounds (p : positive) :
  2 ^ (Zpos (digits2_pos p) - 1) <= Zpos p < 2 ^ Zpos (digits2_pos p).
Proof.
  induction p as [p IH | p IH |]; simpl digits2_pos.
  - rewrite Pos2Z.inj_succ. replace (Z.succ (Zpos (digits2_pos p)) - 1)
      with (Z.succ (Zpos (digits2_pos p) - 1)) by lia.
    rewrite !Z.pow_succ_r by lia. lia.
  - rewrite Pos2Z.inj_succ. replace (Z.succ (Zpos (digits2_pos p)) - 1)
      with (Z.succ (Zpos (digits2_pos p) - 1)) by lia.
    rewrite !Z.pow_succ_r by lia. lia.
  - simpl. lia.
Qed.

Variables prec emax : Z.

(** A mantissa already in canonical position is left as it is. *)
Lemma binary_round_aux_canonical (s : bool) (m : positive) (e : Z) :
  fexp prec emax (Zpos (digits2_pos m) + e) = e ->
  e <= emax - prec ->
  binary_round_aux prec emax s (Zpos m) e loc_Exact = S754_finite s m e.
Proof.
  intros Hc He. unfold binary_round_aux, shr_fexp, shr_record_of_loc, Zdigits2.
  rewrite Hc, Z.sub_diag. cbn [shr shr_m loc_of_shr_record round_nearest_even].
  unfold Zdigits2. rewrite Hc, Z.sub_diag. cbn [shr shr_m].
  rewrite (proj2 (Z.leb_le _ _) He). reflexivity.
Qed.

(** Trailing zeros of the mantissa are shifted out exactly. *)
Lemma binary_round_aux_shifted (s : bool) (m d : positive) (e : Z) :
  fexp prec emax (Zpos (digits2_pos m) + e) = e ->
  e <= emax - prec ->
  binary_round_aux prec emax s (Zpos (Pos.iter xO m d)) (e - Zpos d) loc_Exact
  = S754_finite s m e.
Proof.
  intros Hc He. unfold binary_round_aux, shr_fexp, shr_record_of_loc, Zdigits2.
  rewrite digits2_pos_iter_xO, Pos2Z.inj_add.
  replace (Zpos (digits2_pos m) + Zpos d + (e - Zpos d))
    with (Zpos (digits2_pos m) + e) by lia.
  rewrite Hc. replace (e - (e - Zpos d)) with (Zpos d) by lia.
  cbn [shr]. rewrite iter_shr_1_iter_xO.
  cbn [shr_m loc_of_shr_record round_nearest_even].
  replace (e - Zpos d + Zpos d) with e by lia.
  unfold Zdigits2. rewrite Hc, Z.sub_diag. cbn [shr shr_m].
  rewrite (proj2 (Z.leb_le _ _) He). reflexivity.
Qed.

End RoundingFacts.

Section Binary32Facts.

Lemma of_binary32_finite (s : bool) (m : positive) (e : Z) :
  bounded JS.prec32 JS.emax32 m e = true ->
  exists d, Zpos d = 53 - Zpos (digits2_pos m)
    /\ JS.of_binary32 (S754_finite s m e)
       = S754_finite s (Pos.iter xO m d) (e - Zpos d).
Proof.
  unfold bounded, canonical_mantissa, fexp, emin, JS.prec32, JS.emax32.
  intros H. apply andb_true_iff in H as [Hc He].
  apply Z.eqb_eq in Hc. apply Z.leb_le in He.
  set (dg := Zpos (digits2_pos m)) in *.
  assert (0 < dg) by (unfold dg; lia).
  destruct (53 - dg) as [|d|d] eqn:Hd; try lia.
  exists d. split; [reflexivity|].
  unfold JS.of_binary32.
  assert (binary_normalize JS.prec64 JS.emax64 (cond_Zopp s (Zpos m)) e s
          = binary_round JS.prec64 JS.emax64 s m e) as ->
    by (destruct s; reflexivity).
  unfold binary_round. fold dg.
  assert (fexp JS.prec64 JS.emax64 (dg + e) = e - Zpos d) as Hf
    by (unfold fexp, emin, JS.prec64, JS.emax64; lia).
  rewrite Hf. unfold shl_align.
  replace (e - Zpos d - e) with (Zneg d) by lia.
  apply binary_round_aux_canonical.
  - rewrite digits2_pos_iter_xO, Pos2Z.inj_add. fold dg.
    unfold fexp, emin, JS.prec64, JS.emax64. lia.
  - unfold JS.prec64, JS.emax64. lia.
Qed.

Lemma to_binary32_of_binary32 (x : spec_float) :
  valid_binary JS.prec32 JS.emax32 x = true ->
  JS.to_binary32 (JS.of_binary32 x) = x.
Proof.
  destruct x as [s|s| |s m e]; try reflexivity.
  intros Hv. simpl in Hv.
  destruct (of_binary32_finite s m e Hv) as (d & Hd & ->).
  unfold bounded, canonical_mantissa in Hv.
  apply andb_true_iff in Hv as [Hc He].
  apply Z.eqb_eq in Hc. apply Z.leb_le in He.
  unfold JS.to_binary32.
  assert (binary_normalize JS.prec32 JS.emax32
            (cond_Zopp s (Zpos (Pos.iter xO m d))) (e - Zpos d) s
          = binary_round JS.prec32 JS.emax32 s (Pos.iter xO m d) (e - Zpos d)) as ->
    by (destruct s; reflexivity).
  unfold binary_round.
  rewrite digits2_pos_iter_xO, Pos2Z.inj_add.
  replace (Zpos (digits2_pos m) + Zpos d + (e - Zpos d))
    with (Zpos (digits2_pos m) + e) by lia.
  rewrite Hc. unfold shl_align.
  replace (e - (e - Zpos d)) with (Zpos d) by lia.
  apply binary_round_aux_shifted; assumption.
Qed.

(** A Number that came out of a binary32 is stored back unchanged. *)
Lemma fround_of_binary32 (x : spec_float) :
  valid_binary JS.prec32 JS.emax32 x = true ->
  JS.fround (JS.of_binary32 x) = JS.of_binary32 x.
Proof. intros H. unfold JS.fround. rewrite to_binary32_of_binary32 by exact H. reflexivity. Qed.

Lemma binary32_of_bits_valid (u : Z) :
  0 <= u < 2 ^ 32 ->
  valid_binary JS.prec32 JS.emax32 (Buffer.binary32_of_bits u) = true.
Proof.
  intros Hu. unfold Buffer.binary32_of_bits.
  pose proof (Z.mod_pos_bound (u / 2 ^ 23) (2 ^ 8) ltac:(lia)) as He.
  pose proof (Z.mod_pos_bound u (2 ^ 23) ltac:(lia)) as Hm.
  set (e := (u / 2 ^ 23) mod 2 ^ 8) in *. set (m := u mod 2 ^ 23) in *.
  destruct (e =? 255) eqn:E255; [destruct (m =? 0); reflexivity|].
  apply Z.eqb_neq in E255.
  destruct (e =? 0) eqn:E0.
  - destruct m as [|p|p] eqn:Hp; try reflexivity.
    simpl. unfold bounded, canonical_mantissa, fexp, emin, JS.prec32, JS.emax32.
    pose proof (digits2_pos_bounds p) as Hd.
    assert (Zpos (digits2_pos p) <= 23).
    { destruct (Z_le_gt_dec (Zpos (digits2_pos p)) 23) as [|Hgt]; [assumption|].
      assert (2 ^ 23 <= 2 ^ (Zpos (digits2_pos p) - 1))
        by (apply Z.pow_le_mono_r; lia). lia. }
    apply andb_true_iff. split; [apply Z.eqb_eq | apply Z.leb_le]; lia.
  - apply Z.eqb_neq in E0.
    destruct (m + 2 ^ 23) as [|p|p] eqn:Hp; try reflexivity.
    simpl. unfold bounded, canonical_mantissa, fexp, emin, JS.prec32, JS.emax32.
    pose proof (digits2_pos_bounds p) as Hd.
    assert (Zpos (digits2_pos p) = 24).
    { destruct (Z_lt_le_dec (Zpos (digits2_pos p)) 24) as [Hlt|Hge].
      - assert (2 ^ Zpos (digits2_pos p) <= 2 ^ 23)
          by (apply Z.pow_le_mono_r; lia). lia.
      - destruct (Z_le_gt_dec (Zpos (digits2_pos p)) 24) as [|Hgt]; [lia|].
        assert (2 ^ 24 <= 2 ^ (Zpos (digits2_pos p) - 1))
          by (apply Z.pow_le_mono_r; lia). lia. }
    apply andb_true_iff. split; [apply Z.eqb_eq | apply Z.leb_le]; lia.
Qed.

Lemma fround_readFloatBE (buffer : Buffer.t) (offset : Z) (v : JS.number) :
  Buffer.readFloatBE buffer offset = JS.Normal v -> JS.fround v = v.
Proof.
  unfold Buffer.readFloatBE. intros H.
  apply bind_Normal_inv in H as (u & Hu & [= <-]).
  apply readUInt32BE_Normal in Hu.
  apply fround_of_binary32, binary32_of_bits_valid. lia.
Qed.

End Binary32Facts.

(* ===================================================================== *)
(** ** Properties of the value decoder *)
(* ===================================================================== *)

Section DecoderProperties.

Import MrmsParser.

Variable Math_pow : Z -> Z -> JS.number.
Variables (dataBuffer : Buffer.t) (bitMap : option Buffer.t).
Variables (numberOfDataPoints numberOfBits : Z).
Variable referenceValue : JS.number.
Variables (binaryScaleFactor decimalScaleFactor : Z).

Local Abbreviation loop :=
  (decodeLoop Math_pow dataBuffer bitMap numberOfDataPoints
     numberOfBits referenceValue binaryScaleFactor decimalScaleFactor).
Local Abbreviation decoded :=
  (decodeData Math_pow dataBuffer bitMap numberOfDataPoints
     numberOfBits referenceValue binaryScaleFactor decimalScaleFactor).
Local Abbreviation unpacked :=
  (unpack Math_pow referenceValue binaryScaleFactor decimalScaleFactor).

(** C3 (amended): when [numberOfBits] is not 0, the iteration for cell
    [i] tests bit [7 - i mod 8] of bitmap byte [i / 8] if a bitmap is
    present.  A cell marked missing holds NaN in the result, whatever
    the payload, and leaves the cursor where it was; any other cell
    holds the value unpacked from the [numberOfBits] bits read at the
    cursor, and moves the cursor by [numberOfBits]. *)
Theorem decodeData_bitmap_cursor (i : Z) :
  numberOfBits <> 0 ->
  0 <= i < numberOfDataPoints ->
  (Spec.missing bitMap i = true ->
     decoded !! Z.to_nat i = Some JS.NaN
     /\ st_bitPos (loop (i + 1)) = st_bitPos (loop i))
  /\ (Spec.missing bitMap i = false ->
        decoded !! Z.to_nat i
        = Some (JS.fround
                  (unpacked (readBits dataBuffer (st_bitPos (loop i)) numberOfBits)))
        /\ st_bitPos (loop (i + 1)) = st_bitPos (loop i) + numberOfBits).
Proof.
  intros Hb Hi.
  assert (st_bitPos (loop (i + 1))
          = if skipped bitMap i then st_bitPos (loop i)
            else st_bitPos (loop i) + numberOfBits) as Hstep.
  { rewrite <- (Z2Nat.id i) by lia.
    replace (Z.of_nat (Z.to_nat i) + 1) with (Z.of_nat (S (Z.to_nat i))) by lia.
    apply decodeLoop_bitPos_S. }
  rewrite decodeData_cell by lia. unfold Spec.cellValue.
  rewrite skipped_missing in *.
  split; intros Hm; rewrite Hm in *; split; auto.
Qed.

(** C5 (amended): when [numberOfBits] is 0 the result is
    [numberOfDataPoints] cells that all hold the reference value as the
    binary32 array stores it, which is the reference value itself when
    it was read by [readFloatBE], as [parseMRMSGrib2] does.  This holds
    whatever the payload, of which no bit is read, and whatever the
    bitmap, which is not consulted: the cells it marks missing hold the
    reference value too. *)
Theorem decodeData_zero_width_fill :
  decodeData Math_pow dataBuffer bitMap numberOfDataPoints 0
    referenceValue binaryScaleFactor decimalScaleFactor
  = replicate (Z.to_nat numberOfDataPoints) (JS.fround referenceValue)
  /\ (forall buffer offset,
        Buffer.readFloatBE buffer offset = JS.Normal referenceValue ->
        JS.fround referenceValue = referenceValue).
Proof.
  split; [apply decodeData_zero_bits; reflexivity|].
  intros buffer offset H. apply (fround_readFloatBE buffer offset). exact H.
Qed.

(** C4 (amended): [decodeData] has no failure for a payload that ends
    early.  It returns [numberOfDataPoints] values, and these are the
    values it returns for the same payload followed by any number of
    zero bytes: a bit past the end of the payload reads as 0. *)
Theorem decodeData_short_payload_zero_padded (k : nat) :
  length decoded = Z.to_nat numberOfDataPoints
  /\ decoded
     = decodeData Math_pow (dataBuffer ++ Fixture.zeros k) bitMap
         numberOfDataPoints numberOfBits referenceValue
         binaryScaleFactor decimalScaleFactor.
Proof.
  split; [apply decodeData_length | symmetry; apply decodeData_padded].
Qed.

End DecoderProperties.

(* ===================================================================== *)
(** ** The decoder on concrete payloads *)
(* ===================================================================== *)

Section DecoderExamples.

Import MrmsParser.

(** C2, as stated, fails.  One 25-bit cell holding X = 2^24 + 1 with
    R = 0, E = 0, D = 0 decodes to 16777216, which is 1 away from
    [(R + X * 2^E) * 10^(-D)] = 16777217.  One 2-bit cell holding X = 3
    with R = 0, E = 127, D = 0 decodes to +Infinity: 3 * 2^127 is beyond
    the binary32 range. *)
Lemma tolerance_counterexample :
  (Spec.unsignedBE Fixture.payload25 0 25 = 16777217
   /\ exists v,
        decodeData Host.Math_pow Fixture.payload25 None 1 25
          (S754_zero false) 0 0 !! 0%nat = Some v
        /\ ~ Spec.withinTolerance v (Spec.physical 0 16777217 0 0))
  /\ (Spec.unsignedBE [Byte.xc0] 0 2 = 3
      /\ exists v,
           decodeData Host.Math_pow [Byte.xc0] None 1 2
             (S754_zero false) 127 0 !! 0%nat = Some v
           /\ v = S754_infinity false
           /\ ~ Spec.withinTolerance v (Spec.physical 0 3 127 0)).
Proof.
  split.
  - split; [reflexivity|].
    eexists. split; [vm_compute; reflexivity|].
    intros (y & Hy & Hle). injection Hy as <-.
    vm_compute in Hle. apply Hle. reflexivity.
  - split; [reflexivity|].
    eexists. split; [vm_compute; reflexivity|]. split; [reflexivity|].
    intros (y & Hy & _). discriminate Hy.
Qed.

(** C3, as stated, fails: with a bitmap present whose bit for cell 0 is
    0, and a bit width of 0, cell 0 holds the reference value 1, not
    NaN. *)
Lemma bitmap_ignored_at_zero_width :
  Spec.missing (Some [Byte.x7f]) 0 = true
  /\ decodeData Host.Math_pow [] (Some [Byte.x7f]) 8 0 (JS.of_int 1) 0 0
       !! 0%nat = Some (JS.of_int 1)
  /\ JS.of_int 1 <> JS.NaN.
Proof. split; [reflexivity|]. split; [vm_compute; reflexivity | discriminate]. Qed.

Lemma decodeData_bitmap_cursor_witness :
  (decodeData Host.Math_pow [Byte.x07] (Some [Byte.x40]) 2 8 (S754_zero false) 0 0
     !! Z.to_nat 0 = Some JS.NaN
   /\ st_bitPos (decodeLoop Host.Math_pow [Byte.x07] (Some [Byte.x40]) 2 8
                   (S754_zero false) 0 0 (0 + 1))
      = st_bitPos (decodeLoop Host.Math_pow [Byte.x07] (Some [Byte.x40]) 2 8
                     (S754_zero false) 0 0 0))
  /\ (decodeData Host.Math_pow [Byte.x07] (Some [Byte.x40]) 2 8 (S754_zero false) 0 0
        !! Z.to_nat 1
      = Some (JS.fround
                (unpack Host.Math_pow (S754_zero false) 0 0
                   (readBits [Byte.x07]
                      (st_bitPos (decodeLoop Host.Math_pow [Byte.x07]
                                    (Some [Byte.x40]) 2 8 (S754_zero false) 0 0 1))
                      8)))
      /\ st_bitPos (decodeLoop Host.Math_pow [Byte.x07] (Some [Byte.x40]) 2 8
                      (S754_zero false) 0 0 (1 + 1))
         = st_bitPos (decodeLoop Host.Math_pow [Byte.x07] (Some [Byte.x40]) 2 8
                        (S754_zero false) 0 0 1) + 8).
Proof.
  split.
  - apply (decodeData_bitmap_cursor Host.Math_pow [Byte.x07] (Some [Byte.x40])
             2 8 (S754_zero false) 0 0 0); [lia | lia | reflexivity].
  - apply (decodeData_bitmap_cursor Host.Math_pow [Byte.x07] (Some [Byte.x40])
             2 8 (S754_zero false) 0 0 1); [lia | lia | reflexivity].
Defined.

(** C5, as stated, fails: 100 cells, bit width 0, and a bitmap that
    marks cell 3 as missing; cell 3 holds the reference value 3, not
    NaN. *)
Lemma zero_width_fills_masked_cells :
  Spec.missing (Some Fixture.bitmap100) 3 = true
  /\ decodeData Host.Math_pow [] (Some Fixture.bitmap100) 100 0 (JS.of_int 3) 0 0
       !! 3%nat = Some (JS.of_int 3)
  /\ JS.of_int 3 <> JS.NaN.
Proof. split; [reflexivity|]. split; [vm_compute; reflexivity | discriminate]. Qed.

Lemma decodeData_zero_width_fill_witness :
  decodeData Host.Math_pow [] (Some Fixture.bitmap100) 100 0 (S754_zero false) 0 0
  = replicate (Z.to_nat 100) (JS.fround (S754_zero false))
  /\ JS.fround (S754_zero false) = S754_zero false.
Proof.
  destruct (decodeData_zero_width_fill Host.Math_pow [] (Some Fixture.bitmap100)
              100 (S754_zero false) 0 0) as [Hfill Hexact].
  split; [exact Hfill|].
  apply (Hexact Fixture.twoCells 129). vm_compute. reflexivity.
Defined.

(** C6, at the failing input: the 32-bit field 1000...0 is 2^31 as an
    unsigned integer, and [readBits] returns -2^31. *)
Theorem readBits_32_bits_wraps :
  readBits Fixture.payload32 0 32 = - 2 ^ 31
  /\ Spec.unsignedBE Fixture.payload32 0 32 = 2 ^ 31.
Proof. split; vm_compute; reflexivity. Qed.

(** The binary32 store loses precision: the double result 16777217 is
    stored as 16777216. *)
Example binary32_store_rounds :
  decodeData Host.Math_pow Fixture.payload25 None 1 25 (S754_zero false) 0 0
  = [JS.fround (unpack Host.Math_pow (S754_zero false) 0 0 16777217)]
  /\ unpack Host.Math_pow (S754_zero false) 0 0 16777217 = JS.of_int 16777217
  /\ JS.fround (JS.of_int 16777217) = JS.of_int 16777216.
Proof. repeat split; vm_compute; reflexivity. Qed.

End DecoderExamples.


(* ===================================================================== *)
(** ** Replacing one byte of a buffer *)
(* ===================================================================== *)

Section InsertFacts.

Variable buffer : Buffer.t.
Variable p : Z.
Variable b : Byte.byte.
Hypothesis p_nonneg : 0 <= p.

Local Abbreviation patched := (<[Z.to_nat p := b]> buffer).

Lemma index_int32_patched (i : Z) :
  i <> p -> Buffer.index_int32 patched i = Buffer.index_int32 buffer i.
Proof.
  intros Hne. unfold Buffer.index_int32, Buffer.index.
  destruct (i <? 0) eqn:Hi; [reflexivity|]. apply Z.ltb_ge in Hi.
  rewrite list_lookup_insert_ne by lia. reflexivity.
Qed.

Lemma in_range_patched (offset width : Z) :
  Buffer.in_range patched offset width = Buffer.in_range buffer offset width.
Proof. unfold Buffer.in_range, Buffer.byteLength. rewrite length_insert. reflexivity. Qed.

Lemma readUInt8_patched (offset : Z) :
  offset <> p -> Buffer.readUInt8 patched offset = Buffer.readUInt8 buffer offset.
Proof.
  intros H. unfold Buffer.readUInt8.
  rewrite in_range_patched, index_int32_patched by lia. reflexivity.
Qed.

Lemma readUInt16BE_patched (offset : Z) :
  p < offset \/ offset + 2 <= p ->
  Buffer.readUInt16BE patched offset = Buffer.readUInt16BE buffer offset.
Proof.
  intros H. unfold Buffer.readUInt16BE.
  rewrite in_range_patched, !index_int32_patched by lia. reflexivity.
Qed.

Lemma readUInt32BE_patched (offset : Z) :
  p < offset \/ offset + 4 <= p ->
  Buffer.readUInt32BE patched offset = Buffer.readUInt32BE buffer offset.
Proof.
  intros H. unfold Buffer.readUInt32BE.
  rewrite in_range_patched, !index_int32_patched by lia. reflexivity.
Qed.

Lemma readInt16BE_patched (offset : Z) :
  p < offset \/ offset + 2 <= p ->
  Buffer.readInt16BE patched offset = Buffer.readInt16BE buffer offset.
Proof. intros H. unfold Buffer.readInt16BE. rewrite readUInt16BE_patched by lia. reflexivity. Qed.

Lemma readInt32BE_patched (offset : Z) :
  p < offset \/ offset + 4 <= p ->
  Buffer.readInt32BE patched offset = Buffer.readInt32BE buffer offset.
Proof. intros H. unfold Buffer.readInt32BE. rewrite readUInt32BE_patched by lia. reflexivity. Qed.

Lemma readFloatBE_patched (offset : Z) :
  p < offset \/ offset + 4 <= p ->
  Buffer.readFloatBE patched offset = Buffer.readFloatBE buffer offset.
Proof. intros H. unfold Buffer.readFloatBE. rewrite readUInt32BE_patched by lia. reflexivity. Qed.

Lemma starts_with_GRIB_patched :
  4 <= p -> Buffer.starts_with_GRIB patched = Buffer.starts_with_GRIB buffer.
Proof.
  intros H. unfold Buffer.starts_with_GRIB.
  replace (Z.to_nat p) with (S (S (S (S (Z.to_nat p - 4))))) by lia.
  destruct buffer as [|b0 [|b1 [|b2 [|b3 rest]]]]; reflexivity.
Qed.

Lemma slice_patched (start end_ : Z) :
  p < start -> Buffer.slice patched start end_ = Buffer.slice buffer start end_.
Proof.
  intros H. unfold Buffer.slice, Buffer.clamp, Buffer.byteLength.
  rewrite length_insert.
  destruct (decide (Z.to_nat p < length buffer)%nat) as [Hlt | Hge];
    [|rewrite list_insert_ge by lia; reflexivity].
  set (e := Z.to_nat (Z.min end_ (Z.of_nat (length buffer)))).
  destruct (decide (Z.to_nat p < e)%nat).
  - rewrite take_insert_lt by lia. apply drop_insert_lt. lia.
  - rewrite take_insert_ge by lia. reflexivity.
Qed.

End InsertFacts.

(* ===================================================================== *)
(** ** The section walk of [parseMRMSGrib2] *)
(* ===================================================================== *)

(** Inversion of a successful [parseSections]: one equation per read. *)
Ltac parse_inv H :=
  unfold MrmsParser.parseSections in H; cbv zeta in H;
  repeat match type of H with
  | (if negb ?c then _ else _) = JS.Normal _ =>
      destruct c eqn:?; cbn [negb] in H; [| discriminate H]
  | _ ≫= _ = JS.Normal _ => apply bind_Normal_inv in H as (? & ? & H)
  end.

(** Every read that returned was in range. *)
Ltac read_ranges :=
  repeat match goal with
  | H : Buffer.readUInt8 _ _ = JS.Normal _ |- _ => apply readUInt8_Normal in H
  | H : Buffer.readUInt16BE _ _ = JS.Normal _ |- _ => apply readUInt16BE_Normal in H
  | H : Buffer.readUInt32BE _ _ = JS.Normal _ |- _ => apply readUInt32BE_Normal in H
  | H : Buffer.readInt16BE _ _ = JS.Normal _ |- _ => apply readInt16BE_Normal in H
  | H : Buffer.readInt32BE _ _ = JS.Normal _ |- _ => apply readInt32BE_Normal in H
  | H : Buffer.readFloatBE _ _ = JS.Normal _ |- _ => apply readFloatBE_Normal in H
  end.

Section ParseFacts.
Import MrmsParser.
Variable buffer : Buffer.t.

(** The cursor advances by the declared lengths, and by nothing else. *)
Lemma parseSections_layout (s : sections) :
  parseSections buffer = JS.Normal s ->
  offset1 s = 16
  /\ offset2 s = offset1 s + section1Length s
  /\ offset3 s = Spec.next3 s
  /\ offset4 s = offset3 s + section3Length s
  /\ offset5 s = offset4 s + section4Length s
  /\ offset6 s = offset5 s + section5Length s
  /\ offset7 s = offset6 s + section6Length s
  /\ 0 <= section1Length s /\ 0 <= section2Length s /\ 0 <= section3Length s
  /\ 0 <= section4Length s /\ 0 <= section5Length s /\ 0 <= section6Length s
  /\ 0 <= section7Length s.
Proof.
  intros H. parse_inv H. injection H as <-. unfold Spec.next3. cbn.
  read_ranges. repeat split; try reflexivity; lia.
Qed.

Lemma parseSections_in_range (s : sections) :
  parseSections buffer = JS.Normal s ->
  Forall (fun o => 0 <= o /\ o + 4 <= Buffer.byteLength buffer)
    [offset1 s; offset2 s; offset3 s; offset4 s; offset5 s; offset6 s; offset7 s].
Proof.
  intros H. parse_inv H. injection H as <-. cbn.
  read_ranges. repeat constructor; lia.
Qed.
End ParseFacts.

Section PatchFacts.
Import MrmsParser.
Variable buffer : Buffer.t.
Variable p : Z.
Variable b : Byte.byte.

(** A byte that [parseSections] does not read, and that lies before the
    bitmap and the payload, does not influence it. *)
Lemma parseSections_patched (s : sections) :
  parseSections buffer = JS.Normal s ->
  0 <= p -> Spec.unread s p -> p < offset6 s + 6 -> p < offset7 s + 5 ->
  parseSections (<[Z.to_nat p := b]> buffer) = JS.Normal s.
Proof.
  intros H Hp Hu H6 H7. parse_inv H. injection H as <-.
  unfold Spec.unread, Spec.headerRanges in Hu. cbn in Hu, H6, H7.
  rewrite !Forall_cons in Hu. cbv beta in Hu. cbn [fst snd] in Hu.
  destruct_and!.
  repeat match goal with
  | H : context [if (?x =? 2) then _ else _] |- _ => destruct (x =? 2) eqn:?
  end.
  all: repeat match goal with
    | E1 : ?c = JS.Normal ?u, E2 : ?c = JS.Normal ?v |- _ =>
        lazymatch u with v => fail | _ => idtac end;
        assert (v = u) by congruence; subst v
    end.
  all: unfold parseSections; cbv zeta.
  all: rewrite starts_with_GRIB_patched by lia.
  all: repeat match goal with
    | E : ?c = true |- context [negb ?c] => rewrite E; cbn [negb]
    | E : (?x =? 2) = _ |- context [if ?x =? 2 then _ else _] => rewrite E
    | |- Buffer.readUInt8 _ _ ≫= _ = _ => rewrite readUInt8_patched by lia
    | |- Buffer.readUInt16BE _ _ ≫= _ = _ => rewrite readUInt16BE_patched by lia
    | |- Buffer.readUInt32BE _ _ ≫= _ = _ => rewrite readUInt32BE_patched by lia
    | |- Buffer.readInt16BE _ _ ≫= _ = _ => rewrite readInt16BE_patched by lia
    | |- Buffer.readInt32BE _ _ ≫= _ = _ => rewrite readInt32BE_patched by lia
    | |- Buffer.readFloatBE _ _ ≫= _ = _ => rewrite readFloatBE_patched by lia
    | E : ?c = JS.Normal _ |- ?c ≫= _ = _ => rewrite E, bind_Normal; cbv beta
    end.
  all: rewrite !slice_patched by lia; reflexivity.
Qed.
End PatchFacts.

Section ParseProps.
Import MrmsParser.
Variable buffer : Buffer.t.

Lemma parseSections_Throw (e : JS.exn) :
  parseSections buffer = JS.Throw e ->
  e = JS.RangeError
  \/ e = JS.Error "Not a valid GRIB2 file"
  \/ exists ed, ed <> 2
       /\ e = JS.Error ("GRIB edition " +:+ pretty ed +:+ " not supported").
Proof.
  unfold parseSections; cbv zeta. intros H.
  repeat match type of H with
  | (if negb ?c then _ else _) = JS.Throw _ =>
      destruct c eqn:?; cbn [negb] in H;
      [| injection H as <-;
         first [ right; left; reflexivity
               | right; right; eexists; split;
                 [apply Z.eqb_neq; eassumption | reflexivity] ] ]
  | _ ≫= _ = JS.Throw _ =>
      apply bind_Throw_inv in H as [H | (? & ? & H)];
      [ left;
        first [ apply readUInt8_Throw in H | apply readUInt16BE_Throw in H
              | apply readUInt32BE_Throw in H | apply readInt16BE_Throw in H
              | apply readInt32BE_Throw in H | apply readFloatBE_Throw in H ];
        exact H
      | ]
  end.
  discriminate H.
Qed.

Lemma template_bytes_unread (buf : Buffer.t) (s : sections) (p : Z) :
  parseSections buf = JS.Normal s ->
  19 <= section1Length s -> 71 <= section3Length s -> 20 <= section5Length s ->
  p = offset3 s + 12 \/ p = offset3 s + 13 \/ p = offset5 s + 9 \/ p = offset5 s + 10 ->
  0 <= p /\ Spec.unread s p /\ p < offset6 s + 6 /\ p < offset7 s + 5.
Proof.
  intros H H1 H3 H5 Hp.
  apply parseSections_layout in H. unfold Spec.next3 in H.
  destruct_and!.
  unfold Spec.unread, Spec.headerRanges. rewrite !Forall_cons. cbv beta. cbn [fst snd].
  destruct (section2Number s =? 2); repeat split; try apply Forall_nil; lia.
Qed.

(** C8 (amended): the grid definition template number and the data
    representation template number are not read.  For a message that
    parses and whose sections 1, 3 and 5 are declared long enough to
    hold the fields read from them, replacing the bytes of both
    template numbers by any values leaves the result of
    [parseMRMSGrib2] unchanged: the message is decoded as a
    latitude/longitude grid with simple packing whatever they are. *)
Theorem templates_not_validated (Math_pow : Z -> Z -> JS.number)
    (s : sections) (g1 g2 p1 p2 : Byte.byte) :
  parseSections buffer = JS.Normal s ->
  19 <= section1Length s -> 71 <= section3Length s -> 20 <= section5Length s ->
  parseMRMSGrib2 Math_pow
    (Spec.withTemplates (offset3 s) (offset5 s) g1 g2 p1 p2 buffer)
  = parseMRMSGrib2 Math_pow buffer.
Proof.
  intros H H1 H3 H5. unfold parseMRMSGrib2, Spec.withTemplates.
  assert (forall buf p b,
            parseSections buf = JS.Normal s ->
            p = offset3 s + 12 \/ p = offset3 s + 13
            \/ p = offset5 s + 9 \/ p = offset5 s + 10 ->
            parseSections (<[Z.to_nat p := b]> buf) = JS.Normal s) as Hstep.
  { intros buf p b Hb Hp.
    destruct (template_bytes_unread buf s p Hb H1 H3 H5 Hp) as (? & ? & ? & ?).
    apply parseSections_patched; assumption. }
  rewrite H. f_equal.
  repeat apply Hstep; auto.
Qed.
End ParseProps.

(* ===================================================================== *)
(** ** The parser and the colour scale on concrete messages *)
(* ===================================================================== *)

Section ParseExamples.

Import MrmsParser.

(** C1, at the failing input: NaN is below no threshold, so the colour
    scale falls through to its last, opaque colour; a message whose
    bitmap marks cell 0 as missing is painted with that colour at
    cell 0. *)
Theorem missing_cell_painted_opaque :
  Server.getColorForReflectivity JS.NaN = [153; 85; 201; 255]
  /\ exists g,
       parseMRMSGrib2 Host.Math_pow Fixture.maskedCell = JS.Normal g
       /\ g_values g !! 0%nat = Some JS.NaN
       /\ Server.generateRadarImage g
          = JS.Normal [153; 85; 201; 255; 4; 233; 231; 180].
Proof.
  split; [reflexivity|].
  eexists. split; [vm_compute; reflexivity|].
  split; vm_compute; reflexivity.
Qed.

(** C4, as stated, fails: the message with two 8-bit cells 5 and 255,
    cut one byte short, has 8 payload bits where 16 are needed; it is
    decoded without an error, and its second cell is 0. *)
Lemma truncated_payload_decodes :
  exists s g,
    parseSections Fixture.twoCellsCut = JS.Normal s
    /\ 8 * Buffer.byteLength (dataBuffer s)
       < Spec.bitsNeeded (bitMap s) (numberOfBits s) (numberOfDataPoints s)
    /\ parseMRMSGrib2 Host.Math_pow Fixture.twoCellsCut = JS.Normal g
    /\ g_values g = [JS.of_int 5; S754_zero false]
    /\ exists g0,
         parseMRMSGrib2 Host.Math_pow Fixture.twoCells = JS.Normal g0
         /\ g_values g0 = [JS.of_int 5; JS.of_int 255].
Proof.
  eexists. eexists. split; [vm_compute; reflexivity|].
  split; [vm_compute; reflexivity|].
  split; [vm_compute; reflexivity|].
  split; [vm_compute; reflexivity|].
  eexists. split; vm_compute; reflexivity.
Qed.

(** C7, as stated, fails: a data section that declares 2^32 - 1 bytes
    when 6 bytes remain is accepted; so are a section 4 that declares
    0 bytes, and a data section of which only the 4 bytes of the length
    field remain. *)
Lemma section_lengths_not_validated :
  (exists s g,
      parseSections Fixture.overlongSection7 = JS.Normal s
      /\ section7Length s = 2 ^ 32 - 1
      /\ Buffer.byteLength Fixture.overlongSection7 - offset7 s = 6
      /\ parseMRMSGrib2 Host.Math_pow Fixture.overlongSection7 = JS.Normal g)
  /\ (exists s,
        parseSections Fixture.zeroSection4 = JS.Normal s
        /\ section4Length s = 0)
  /\ (exists s,
        parseSections Fixture.fourBytesLeft = JS.Normal s
        /\ Buffer.byteLength Fixture.fourBytesLeft - offset7 s = 4).
Proof.
  split; [|split].
  - eexists. eexists. split; [vm_compute; reflexivity|].
    split; [reflexivity|]. split; [reflexivity|]. vm_compute. reflexivity.
  - eexists. split; [vm_compute; reflexivity | reflexivity].
  - eexists. split; [vm_compute; reflexivity | reflexivity].
Qed.

(** C8, as stated, fails: a message whose grid definition template
    number is 1 and whose data representation template number is 3 is
    decoded without an error. *)
Lemma other_templates_decoded :
  exists s g,
    parseSections Fixture.otherTemplates = JS.Normal s
    /\ Buffer.readUInt16BE Fixture.otherTemplates (offset3 s + 12) = JS.Normal 1
    /\ Buffer.readUInt16BE Fixture.otherTemplates (offset5 s + 9) = JS.Normal 3
    /\ parseMRMSGrib2 Host.Math_pow Fixture.otherTemplates = JS.Normal g
    /\ g_values g = [JS.of_int 5; JS.of_int 255].
Proof.
  eexists. eexists. split; [vm_compute; reflexivity|].
  split; [vm_compute; reflexivity|].
  split; [vm_compute; reflexivity|].
  split; vm_compute; reflexivity.
Qed.

Lemma templates_not_validated_witness :
  parseMRMSGrib2 Host.Math_pow
    (Spec.withTemplates 37 118 Byte.x00 Byte.x01 Byte.x00 Byte.x03 Fixture.twoCells)
  = parseMRMSGrib2 Host.Math_pow Fixture.twoCells.
Proof.
  eassert (parseSections Fixture.twoCells = JS.Normal _) as H
    by (vm_compute; reflexivity).
  apply (templates_not_validated Fixture.twoCells Host.Math_pow _
           Byte.x00 Byte.x01 Byte.x00 Byte.x03 H);
    vm_compute; discriminate.
Defined.

End ParseExamples.

(* ===================================================================== *)
(** ** The product cache *)
(* ===================================================================== *)

Section CacheFacts.
Import Server.

Variable Math_pow : Z -> Z -> JS.number.
Variable download : string -> list string -> JS.completion Buffer.t.

Local Abbreviation fetchRadarData := (Server.fetchRadarData Math_pow download).
Local Abbreviation getLatest := (Server.getLatest Math_pow download).

Lemma fetchRadarData_known (productId : string) (p : product) (st : state) :
  MRMS_PRODUCTS !! productId = Some p ->
  snd (fetchRadarData productId st) = State (dataCache st) (url p :: fetched st).
Proof. intros H. unfold Server.fetchRadarData. rewrite H. reflexivity. Qed.

Lemma getLatest_hit (query : option string) (now : Z) (st : state) (c : cacheEntry) :
  dataCache st !! productOf query = Some c ->
  now - time c < CACHE_DURATION ->
  getLatest query now st
  = (LatestJson (timestamp (data c)) (meta (data c)) (productOf query), st).
Proof.
  intros Hc Hf. unfold Server.getLatest, freshEntry. rewrite Hc.
  rewrite (proj2 (Z.ltb_lt _ _) Hf). reflexivity.
Qed.

Lemma getLatest_miss (query : option string) (now : Z) (st : state) (p : product) :
  MRMS_PRODUCTS !! productOf query = Some p ->
  freshEntry (dataCache st !! productOf query) now = None ->
  getLatest query now st
  = match fst (fetchRadarData (productOf query) st) with
    | JS.Normal d =>
        (LatestJson (timestamp d) (meta d) (productOf query),
         State (<[productOf query := CacheEntry d now]> (dataCache st))
               (url p :: fetched st))
    | JS.Throw e => (Status500 e, State (dataCache st) (url p :: fetched st))
    end.
Proof.
  intros Hp Hf. unfold Server.getLatest. rewrite Hf.
  pose proof (fetchRadarData_known _ _ st Hp) as Hs.
  destruct (fetchRadarData (productOf query) st) as [[d|e] st']; simpl in *;
    rewrite Hs; reflexivity.
Qed.

Lemma freshEntry_None (cached : option cacheEntry) (now : Z) :
  freshEntry cached now = None
  <-> cached = None \/ exists c, cached = Some c /\ CACHE_DURATION <= now - time c.
Proof.
  unfold freshEntry. destruct cached as [c|].
  - destruct (now - time c <? CACHE_DURATION) eqn:H.
    + apply Z.ltb_lt in H. split; [discriminate|].
      intros [? | (c' & [= <-] & ?)]; [discriminate | lia].
    + apply Z.ltb_ge in H. split; [|reflexivity].
      intros _. right. exists c. auto.
  - split; [left|]; reflexivity.
Qed.

(** The image endpoint refreshes exactly when the metadata endpoint
    does. *)
Lemma stale_freshEntry (cached : option cacheEntry) (now : Z) :
  stale cached now = true <-> freshEntry cached now = None.
Proof.
  unfold stale, freshEntry. destruct cached as [c|]; [|tauto].
  destruct (now - time c <? CACHE_DURATION) eqn:H.
  - apply Z.ltb_lt in H. split; [intros H'; apply Z.leb_le in H'; lia | discriminate].
  - apply Z.ltb_ge in H. split; [reflexivity | intros _; apply Z.leb_le; exact H].
Qed.

End CacheFacts.

(* ===================================================================== *)
(** ** [readBits] at every width *)
(* ===================================================================== *)

Section ReadBitsMore.

Variable buffer : Buffer.t.

Lemma to_int32_range (z : Z) : - 2 ^ 31 <= JS.to_int32 z < 2 ^ 31.
Proof.
  unfold JS.to_int32.
  pose proof (Z.mod_pos_bound (z + 2 ^ 31) (2 ^ 32) ltac:(lia)). lia.
Qed.

Lemma to_int32_congr (a b : Z) :
  a mod 2 ^ 32 = b mod 2 ^ 32 -> JS.to_int32 a = JS.to_int32 b.
Proof.
  intros H. unfold JS.to_int32. f_equal.
  rewrite <- (Zplus_mod_idemp_l a), <- (Zplus_mod_idemp_l b), H. reflexivity.
Qed.

Lemma to_int32_mod (z : Z) : JS.to_int32 z mod 2 ^ 32 = z mod 2 ^ 32.
Proof.
  unfold JS.to_int32.
  rewrite <- Zminus_mod_idemp_l, Z.mod_mod by lia.
  rewrite Zminus_mod_idemp_l. f_equal. lia.
Qed.

(** One step of the accumulator, for any int32 value: doubling and
    adding the bit, wrapped to int32. *)
Lemma readBits_step_int32 (value bit : Z) :
  - 2 ^ 31 <= value < 2 ^ 31 -> 0 <= bit <= 1 ->
  JS.bor (JS.shl value 1) bit = JS.to_int32 (2 * value + bit).
Proof.
  intros Hv Hb. unfold JS.bor, JS.shl.
  rewrite (to_int32_small value) by lia.
  change (1 mod 32) with 1. rewrite Z.shiftl_mul_pow2 by lia. change (2 ^ 1) with 2.
  set (x := JS.to_int32 (value * 2)).
  pose proof (to_int32_range (value * 2)) as Hx. fold x in Hx.
  assert (exists y, x = 2 * y) as [y Hy].
  { unfold x, JS.to_int32.
    pose proof (Z.div_mod (value * 2 + 2 ^ 31) (2 ^ 32) ltac:(lia)) as Hdm.
    exists (value - 2 ^ 31 * ((value * 2 + 2 ^ 31) / 2 ^ 32)). lia. }
  rewrite (to_int32_small x) by lia. rewrite (to_int32_small bit) by lia.
  assert (Z.land x bit = 0) as Hland.
  { assert (bit = 0 \/ bit = 1) as [-> | ->] by lia.
    - apply Z.land_0_r.
    - change 1 with (Z.ones 1). rewrite Z.land_ones by lia.
      change (2 ^ 1) with 2. rewrite Hy, Z.mul_comm. apply Z.mod_mul. lia. }
  pose proof (Z.add_lor_land x bit) as Hsum.
  assert (JS.to_int32 (2 * value + bit) = x + bit) as ->; [|lia].
  unfold x, JS.to_int32.
  pose proof (Z.div_mod (value * 2 + 2 ^ 31) (2 ^ 32) ltac:(lia)) as Hdm.
  pose proof (Z.mod_pos_bound (value * 2 + 2 ^ 31) (2 ^ 32) ltac:(lia)) as Hr.
  set (r := (value * 2 + 2 ^ 31) mod 2 ^ 32) in *.
  assert (r = x + 2 ^ 31) as Hrx by (unfold x, JS.to_int32; fold r; lia).
  assert ((2 * value + bit + 2 ^ 31) mod 2 ^ 32 = r + bit) as ->; [|lia].
  symmetry. apply (Zmod_unique _ _ ((value * 2 + 2 ^ 31) / 2 ^ 32)); lia.
Qed.

Lemma readBits_int32_nat (bitOffset : Z) (k : nat) :
  MrmsParser.readBits buffer bitOffset (Z.of_nat k)
  = JS.to_int32 (Spec.unsignedBE buffer bitOffset (Z.of_nat k)).
Proof.
  induction k as [|k IH]; [reflexivity|].
  rewrite readBits_S, unsignedBE_S, IH.
  rewrite readBits_step_int32 by (apply to_int32_range || apply bitAt_range).
  rewrite bitAt_bit. apply to_int32_congr.
  rewrite <- Zplus_mod_idemp_l, <- Zmult_mod_idemp_r, to_int32_mod.
  rewrite Zmult_mod_idemp_r, Zplus_mod_idemp_l. reflexivity.
Qed.

(** X1: for every offset and every bit count, [readBits] returns the
    big-endian unsigned integer of the bits it reads, wrapped to a
    signed 32-bit integer (bits past the end of the buffer read as 0; a
    count of 0 or less gives 0). *)
Theorem readBits_int32 (bitOffset numBits : Z) :
  MrmsParser.readBits buffer bitOffset numBits
  = JS.to_int32 (Spec.unsignedBE buffer bitOffset numBits).
Proof.
  destruct (Z_le_gt_dec 0 numBits) as [H | H].
  - rewrite <- (Z2Nat.id numBits) by lia. apply readBits_int32_nat.
  - unfold MrmsParser.readBits, Spec.unsignedBE. rewrite seqZ_nil by lia. reflexivity.
Qed.

Lemma unsignedBE_app_nat (bitOffset a : Z) (b : nat) :
  0 <= a ->
  Spec.unsignedBE buffer bitOffset (a + Z.of_nat b)
  = Spec.unsignedBE buffer bitOffset a * 2 ^ Z.of_nat b
    + Spec.unsignedBE buffer (bitOffset + a) (Z.of_nat b).
Proof.
  intros Ha. induction b as [|b IH].
  - simpl. rewrite Z.add_0_r. unfold Spec.unsignedBE at 3. simpl. lia.
  - replace (a + Z.of_nat (S b)) with (Z.of_nat (S (Z.to_nat a + b))) by lia.
    rewrite !unsignedBE_S.
    replace (Z.of_nat (Z.to_nat a + b)) with (a + Z.of_nat b) by lia.
    rewrite IH, Nat2Z.inj_succ, Z.pow_succ_r by lia.
    replace (bitOffset + a + Z.of_nat b) with (bitOffset + (a + Z.of_nat b)) by lia.
    ring.
Qed.

(** X2: a field of up to 31 bits read in one go is its two parts read
    one after the other: the first [a] bits, shifted left by [b], plus
    the next [b] bits. *)
Theorem readBits_app (bitOffset a b : Z) :
  0 <= a -> 0 <= b -> a + b <= 31 ->
  MrmsParser.readBits buffer bitOffset (a + b)
  = MrmsParser.readBits buffer bitOffset a * 2 ^ b
    + MrmsParser.readBits buffer (bitOffset + a) b.
Proof.
  intros Ha Hb Hab. rewrite !readBits_unsigned by lia.
  rewrite <- (Z2Nat.id b) by lia. apply unsignedBE_app_nat. exact Ha.
Qed.

(** X3: for a bit count from 0 to 31 the result of [readBits] is a
    non-negative integer below [2 ^ numBits]. *)
Theorem readBits_range (bitOffset numBits : Z) :
  0 <= numBits <= 31 ->
  0 <= MrmsParser.readBits buffer bitOffset numBits < 2 ^ numBits.
Proof.
  intros H. rewrite readBits_unsigned by lia.
  rewrite <- (Z2Nat.id numBits) by lia. apply unsignedBE_range.
Qed.

Lemma bit_aligned (k i : Z) :
  0 <= i < 8 ->
  Spec.bit buffer (8 * k + i) = Z.testbit (Buffer.index_int32 buffer k) (7 - i).
Proof.
  intros Hi. unfold Spec.bit.
  replace (8 * k + i) with (i + k * 8) by lia.
  rewrite Z.div_add, Z.mod_add by lia.
  rewrite Z.div_small, Z.mod_small by lia. reflexivity.
Qed.

Lemma byte_of_bits (b : Byte.byte) :
  Spec.Zsum ((fun i => Z.b2z (Z.testbit (Buffer.u8 b) (7 - i)) * 2 ^ (8 - 1 - i))
               <$> [0; 1; 2; 3; 4; 5; 6; 7]) = Buffer.u8 b.
Proof. destruct b; reflexivity. Qed.

(** X4: eight bits read at a byte boundary are the byte at that index,
    and 0 past the end of the buffer. *)
Theorem readBits_byte (k : Z) :
  0 <= k ->
  MrmsParser.readBits buffer (8 * k) 8 = Buffer.index_int32 buffer k.
Proof.
  intros Hk. rewrite readBits_unsigned by lia. unfold Spec.unsignedBE.
  change (seqZ 0 8) with [0; 1; 2; 3; 4; 5; 6; 7].
  cbn [fmap list_fmap]. rewrite !bit_aligned by lia.
  unfold Buffer.index_int32, Buffer.index.
  rewrite (proj2 (Z.ltb_ge k 0)) by lia.
  destruct (buffer !! Z.to_nat k) as [b|]; simpl option_map; [|reflexivity].
  apply (byte_of_bits b).
Qed.

End ReadBitsMore.

(* ===================================================================== *)
(** ** [decodeData]: random access and unused payload *)
(* ===================================================================== *)

Section DecodeMore.

Import MrmsParser.

Variable Math_pow : Z -> Z -> JS.number.
Variables (dataBuffer : Buffer.t).
Variables (numberOfDataPoints numberOfBits : Z).
Variable referenceValue : JS.number.
Variables (binaryScaleFactor decimalScaleFactor : Z).

Local Abbreviation decode data bitMap :=
  (decodeData Math_pow data bitMap numberOfDataPoints numberOfBits
     referenceValue binaryScaleFactor decimalScaleFactor).
Local Abbreviation loopOf data bitMap :=
  (decodeLoop Math_pow data bitMap numberOfDataPoints numberOfBits
     referenceValue binaryScaleFactor decimalScaleFactor).
Local Abbreviation unpacked :=
  (unpack Math_pow referenceValue binaryScaleFactor decimalScaleFactor).

Lemma foldl_pointwise_in {A B} (f g : A -> B -> A) (l : list B) (a : A) :
  (forall x y, y ∈ l -> f x y = g x y) -> foldl f a l = foldl g a l.
Proof.
  revert a. induction l as [|y l IH]; intros a H; simpl; [reflexivity|].
  rewrite H by (left; reflexivity). apply IH.
  intros x z Hz. apply H. right. exact Hz.
Qed.

Lemma filter_all {A} (P : A -> Prop) `{!forall x, Decision (P x)} (l : list A) :
  (forall x, x ∈ l -> P x) -> filter P l = l.
Proof.
  induction l as [|x l IH]; intros Hall; [reflexivity|].
  rewrite filter_cons, decide_True by (apply Hall; left).
  f_equal. apply IH. intros y Hy. apply Hall. right. exact Hy.
Qed.

Lemma bitsNeeded_None (bits n : Z) :
  0 <= n -> Spec.bitsNeeded None bits n = bits * n.
Proof.
  intros Hn. unfold Spec.bitsNeeded.
  rewrite filter_all by (intros; reflexivity).
  rewrite length_seqZ, Z2Nat.id by lia. reflexivity.
Qed.

Lemma bitsNeeded_nonneg (bitMap : option Buffer.t) (bits n : Z) :
  0 <= bits -> 0 <= Spec.bitsNeeded bitMap bits n.
Proof. intros H. unfold Spec.bitsNeeded. lia. Qed.

Lemma bitsNeeded_S (bitMap : option Buffer.t) (bits : Z) (k : nat) :
  Spec.bitsNeeded bitMap bits (Z.of_nat (S k))
  = Spec.bitsNeeded bitMap bits (Z.of_nat k)
    + (if Spec.missing bitMap (Z.of_nat k) then 0 else bits).
Proof.
  unfold Spec.bitsNeeded.
  rewrite seqZ_S, filter_app, length_app, filter_cons, filter_nil, Z.add_0_l.
  destruct (Spec.missing bitMap (Z.of_nat k)) eqn:Hm.
  - rewrite decide_False by discriminate. simpl. lia.
  - rewrite decide_True by reflexivity. simpl. lia.
Qed.

Lemma bitsNeeded_mono (bitMap : option Buffer.t) (bits : Z) (j k : nat) :
  0 <= bits -> (j <= k)%nat ->
  Spec.bitsNeeded bitMap bits (Z.of_nat j) <= Spec.bitsNeeded bitMap bits (Z.of_nat k).
Proof.
  intros Hb Hjk. induction Hjk as [|k Hjk IH]; [lia|].
  rewrite bitsNeeded_S. destruct (Spec.missing bitMap (Z.of_nat k)); lia.
Qed.

(** X5: without a bitmap and with a bit width other than 0, cell [i]
    holds the binary32 rounding of the value unpacked from what
    [readBits] returns for [numberOfBits] bits at bit offset
    [numberOfBits * i]: the cells are packed back to back. *)
Theorem decodeData_without_bitmap (i : Z) :
  numberOfBits <> 0 -> 0 <= i < numberOfDataPoints ->
  decode dataBuffer None !! Z.to_nat i
  = Some (JS.fround
            (unpacked (readBits dataBuffer (numberOfBits * i) numberOfBits))).
Proof.
  intros Hb Hi. rewrite decodeData_cell by lia. unfold Spec.cellValue.
  cbn [skipped]. rewrite <- (Z2Nat.id i) at 1 by lia.
  rewrite decodeLoop_bitPos, Z2Nat.id, bitsNeeded_None by lia. reflexivity.
Qed.

(** X6: a bitmap that marks none of the cells [0 .. numberOfDataPoints - 1]
    as missing gives the same array as no bitmap at all. *)
Theorem decodeData_full_bitmap (bm : Buffer.t) :
  (forall i, 0 <= i < numberOfDataPoints -> Spec.missing (Some bm) i = false) ->
  decode dataBuffer (Some bm) = decode dataBuffer None.
Proof.
  intros Hall. unfold decodeData, decodeLoop.
  destruct (numberOfBits =? 0); [reflexivity|]. f_equal.
  apply foldl_pointwise_in. intros st i Hi. apply elem_of_seqZ in Hi.
  unfold decodeCell. rewrite skipped_missing, Hall by lia. reflexivity.
Qed.

Lemma bitAt_app (extra : Buffer.t) (pos : Z) :
  0 <= pos < 8 * Buffer.byteLength dataBuffer ->
  bitAt (dataBuffer ++ extra) pos = bitAt dataBuffer pos.
Proof.
  intros Hp. unfold bitAt, Buffer.index_int32, Buffer.index, Buffer.byteLength in *.
  assert (0 <= pos / 8 < Z.of_nat (length dataBuffer)) as Hq.
  { split; [apply Z.div_pos; lia | apply Z.div_lt_upper_bound; lia]. }
  rewrite (proj2 (Z.ltb_ge (pos / 8) 0)) by lia.
  rewrite lookup_app_l by lia. reflexivity.
Qed.

Lemma readBits_app_extra (extra : Buffer.t) (bitOffset numBits : Z) :
  0 <= bitOffset -> bitOffset + numBits <= 8 * Buffer.byteLength dataBuffer ->
  readBits (dataBuffer ++ extra) bitOffset numBits
  = readBits dataBuffer bitOffset numBits.
Proof.
  intros Ho Hn. unfold readBits. apply foldl_pointwise_in.
  intros value i Hi. apply elem_of_seqZ in Hi.
  rewrite bitAt_app by lia. reflexivity.
Qed.

Lemma decodeLoop_app_extra (bitMap : option Buffer.t) (extra : Buffer.t) (k : nat) :
  0 <= numberOfBits ->
  Spec.bitsNeeded bitMap numberOfBits (Z.of_nat k)
    <= 8 * Buffer.byteLength dataBuffer ->
  loopOf (dataBuffer ++ extra) bitMap (Z.of_nat k)
  = loopOf dataBuffer bitMap (Z.of_nat k).
Proof.
  intros Hb. induction k as [|k IH]; intros Hk; [reflexivity|].
  rewrite !decodeLoop_S. rewrite bitsNeeded_S in Hk.
  rewrite IH by (destruct (Spec.missing bitMap (Z.of_nat k)); lia).
  unfold decodeCell. rewrite skipped_missing.
  destruct (Spec.missing bitMap (Z.of_nat k)) eqn:Hm; [reflexivity|].
  rewrite decodeLoop_bitPos.
  rewrite readBits_app_extra; [reflexivity | apply bitsNeeded_nonneg; exact Hb | lia].
Qed.

(** X7: when the payload holds all the bits of the cells that are not
    marked missing, bytes appended to it do not change the decoded
    array. *)
Theorem decodeData_trailing_bytes (bitMap : option Buffer.t) (extra : Buffer.t) :
  0 <= numberOfBits -> 0 <= numberOfDataPoints ->
  Spec.bitsNeeded bitMap numberOfBits numberOfDataPoints
    <= 8 * Buffer.byteLength dataBuffer ->
  decode (dataBuffer ++ extra) bitMap = decode dataBuffer bitMap.
Proof.
  intros Hb Hn Hneed. unfold decodeData.
  destruct (numberOfBits =? 0); [reflexivity|]. f_equal.
  assert (numberOfDataPoints = Z.of_nat (Z.to_nat numberOfDataPoints)) as E by lia.
  rewrite E in Hneed.
  pose proof (decodeLoop_app_extra bitMap extra _ Hb Hneed) as H.
  rewrite <- E in H. exact H.
Qed.

End DecodeMore.

(* ===================================================================== *)
(** ** [parseMRMSGrib2]: rejected input and the shape of the result *)
(* ===================================================================== *)

Section ParseMore.

Import MrmsParser.

Variable Math_pow : Z -> Z -> JS.number.
Variable buffer : Buffer.t.

Lemma readUInt8_past_end (offset : Z) :
  Buffer.byteLength buffer <= offset ->
  Buffer.readUInt8 buffer offset = JS.Throw JS.RangeError.
Proof.
  intros H. unfold Buffer.readUInt8, Buffer.in_range.
  rewrite (proj2 (Z.leb_gt (offset + 1) (Buffer.byteLength buffer))) by lia.
  rewrite andb_false_r. reflexivity.
Qed.

Lemma readUInt8_byte (offset : Z) (b : Byte.byte) :
  0 <= offset -> buffer !! Z.to_nat offset = Some b ->
  Buffer.readUInt8 buffer offset = JS.Normal (Buffer.u8 b).
Proof.
  intros Ho Hb. pose proof (lookup_lt_Some _ _ _ Hb) as Hlt.
  unfold Buffer.readUInt8, Buffer.in_range, Buffer.byteLength.
  rewrite (proj2 (Z.leb_le 0 offset)) by lia.
  rewrite (proj2 (Z.leb_le (offset + 1) _)) by lia.
  unfold Buffer.index_int32, Buffer.index.
  rewrite (proj2 (Z.ltb_ge offset 0)) by lia. rewrite Hb. reflexivity.
Qed.

(** X8: the errors of the indicator section.  A buffer of fewer than 4
    bytes is refused with "Not a valid GRIB2 file"; a buffer that starts
    with "GRIB" and has fewer than 8 bytes fails with the RangeError of
    [readUInt8]; a buffer that starts with "GRIB" and whose byte 7 is
    not 2 is refused with "GRIB edition N not supported", N being that
    byte. *)
Theorem parse_indicator_errors :
  ((length buffer < 4)%nat ->
     parseMRMSGrib2 Math_pow buffer = JS.Throw (JS.Error "Not a valid GRIB2 file"))
  /\ (Buffer.starts_with_GRIB buffer = true -> (length buffer < 8)%nat ->
        parseMRMSGrib2 Math_pow buffer = JS.Throw JS.RangeError)
  /\ (forall b,
        Buffer.starts_with_GRIB buffer = true ->
        buffer !! 7%nat = Some b -> Buffer.u8 b <> 2 ->
        parseMRMSGrib2 Math_pow buffer
        = JS.Throw (JS.Error ("GRIB edition " +:+ pretty (Buffer.u8 b)
                              +:+ " not supported"))).
Proof.
  split; [|split].
  - intros Hlen. unfold parseMRMSGrib2, parseSections.
    destruct buffer as [|b0 [|b1 [|b2 [|b3 rest]]]]; simpl in Hlen; try lia;
      reflexivity.
  - intros Hg Hlen. unfold parseMRMSGrib2, parseSections. rewrite Hg. cbn [negb].
    rewrite (readUInt8_past_end (0 + 7)) by (unfold Buffer.byteLength; lia).
    destruct (Buffer.readUInt8 buffer (0 + 6)) as [d|e] eqn:Hd; [reflexivity|].
    apply readUInt8_Throw in Hd. subst e. reflexivity.
  - intros b Hg Hb He. unfold parseMRMSGrib2, parseSections. rewrite Hg. cbn [negb].
    pose proof (lookup_lt_Some _ _ _ Hb) as Hlen.
    destruct (lookup_lt_is_Some_2 buffer 6 ltac:(lia)) as [b6 Hb6].
    rewrite (readUInt8_byte (0 + 6) b6), bind_Normal by (exact Hb6 || lia).
    rewrite (readUInt8_byte (0 + 7) b), bind_Normal by (exact Hb || lia).
    rewrite (proj2 (Z.eqb_neq _ _) He). reflexivity.
Qed.

(** X9: a buffer on which the section walk succeeds has at least 87
    bytes. *)
Theorem parse_minimal_length (s : sections) :
  parseSections buffer = JS.Normal s -> 87 <= Buffer.byteLength buffer.
Proof.
  intros H. parse_inv H. read_ranges.
  repeat match goal with
  | H : context [if (?x =? 2) then _ else _] |- _ => destruct (x =? 2)
  end; lia.
Qed.

(** X10: what a successful parse returns: [values] has as many
    elements as section 5 declares data points; that number, [nx] and
    [ny] are unsigned 32-bit integers, the discipline is a byte, and the
    month index is a byte minus 1. *)
Theorem parse_result_shape (g : grib) :
  parseMRMSGrib2 Math_pow buffer = JS.Normal g ->
  length (g_values g) = Z.to_nat (g_numberOfDataPoints g)
  /\ 0 <= g_numberOfDataPoints g < 2 ^ 32
  /\ 0 <= g_nx g < 2 ^ 32 /\ 0 <= g_ny g < 2 ^ 32
  /\ 0 <= g_discipline g < 2 ^ 8
  /\ 0 <= utc_monthIndex (g_timestamp g) + 1 < 2 ^ 8.
Proof.
  unfold parseMRMSGrib2. intros H.
  apply bind_Normal_inv in H as (s & Hs & [= <-]).
  unfold gribOfSections. cbn [g_values g_numberOfDataPoints g_nx g_ny g_discipline
                              g_timestamp utc_monthIndex].
  split; [apply decodeData_length|].
  parse_inv Hs. injection Hs as <-. cbn. read_ranges. lia.
Qed.

End ParseMore.

(* ===================================================================== *)
(** ** [parseMRMSGrib2]: bytes that do not matter, and section 2 *)
(* ===================================================================== *)

Section AppendFacts.

Variable buffer extra : Buffer.t.

Lemma index_int32_app (i : Z) :
  i < Buffer.byteLength buffer ->
  Buffer.index_int32 (buffer ++ extra) i = Buffer.index_int32 buffer i.
Proof.
  intros Hi. unfold Buffer.index_int32, Buffer.index, Buffer.byteLength in *.
  destruct (i <? 0) eqn:Hneg; [reflexivity|]. apply Z.ltb_ge in Hneg.
  rewrite lookup_app_l by lia. reflexivity.
Qed.

Lemma in_range_app (offset width : Z) :
  Buffer.in_range buffer offset width = true ->
  Buffer.in_range (buffer ++ extra) offset width = true.
Proof.
  rewrite !in_range_spec. unfold Buffer.byteLength. rewrite length_app. lia.
Qed.

Lemma readUInt8_app (offset v : Z) :
  Buffer.readUInt8 buffer offset = JS.Normal v ->
  Buffer.readUInt8 (buffer ++ extra) offset = JS.Normal v.
Proof.
  unfold Buffer.readUInt8.
  destruct (Buffer.in_range buffer offset 1) eqn:Hr; [|discriminate].
  rewrite (in_range_app _ _ Hr). apply in_range_spec in Hr.
  rewrite index_int32_app by lia. auto.
Qed.

Lemma readUInt16BE_app (offset v : Z) :
  Buffer.readUInt16BE buffer offset = JS.Normal v ->
  Buffer.readUInt16BE (buffer ++ extra) offset = JS.Normal v.
Proof.
  unfold Buffer.readUInt16BE.
  destruct (Buffer.in_range buffer offset 2) eqn:Hr; [|discriminate].
  rewrite (in_range_app _ _ Hr). apply in_range_spec in Hr.
  rewrite !index_int32_app by lia. auto.
Qed.

Lemma readUInt32BE_app (offset v : Z) :
  Buffer.readUInt32BE buffer offset = JS.Normal v ->
  Buffer.readUInt32BE (buffer ++ extra) offset = JS.Normal v.
Proof.
  unfold Buffer.readUInt32BE.
  destruct (Buffer.in_range buffer offset 4) eqn:Hr; [|discriminate].
  rewrite (in_range_app _ _ Hr). apply in_range_spec in Hr.
  rewrite !index_int32_app by lia. auto.
Qed.

Lemma readInt16BE_app (offset v : Z) :
  Buffer.readInt16BE buffer offset = JS.Normal v ->
  Buffer.readInt16BE (buffer ++ extra) offset = JS.Normal v.
Proof.
  unfold Buffer.readInt16BE. intros H.
  apply bind_Normal_inv in H as (u & Hu & Hv).
  rewrite (readUInt16BE_app _ _ Hu). exact Hv.
Qed.

Lemma readInt32BE_app (offset v : Z) :
  Buffer.readInt32BE buffer offset = JS.Normal v ->
  Buffer.readInt32BE (buffer ++ extra) offset = JS.Normal v.
Proof.
  unfold Buffer.readInt32BE. intros H.
  apply bind_Normal_inv in H as (u & Hu & Hv).
  rewrite (readUInt32BE_app _ _ Hu). exact Hv.
Qed.

Lemma readFloatBE_app (offset : Z) (v : JS.number) :
  Buffer.readFloatBE buffer offset = JS.Normal v ->
  Buffer.readFloatBE (buffer ++ extra) offset = JS.Normal v.
Proof.
  unfold Buffer.readFloatBE. intros H.
  apply bind_Normal_inv in H as (u & Hu & Hv).
  rewrite (readUInt32BE_app _ _ Hu). exact Hv.
Qed.

Lemma starts_with_GRIB_app :
  Buffer.starts_with_GRIB buffer = true ->
  Buffer.starts_with_GRIB (buffer ++ extra) = true.
Proof.
  unfold Buffer.starts_with_GRIB.
  destruct buffer as [|b0 [|b1 [|b2 [|b3 rest]]]]; try discriminate. auto.
Qed.

Lemma slice_app (start end_ : Z) :
  end_ <= Buffer.byteLength buffer ->
  Buffer.slice (buffer ++ extra) start end_ = Buffer.slice buffer start end_.
Proof.
  intros He. unfold Buffer.slice, Buffer.clamp, Buffer.byteLength in *.
  rewrite length_app.
  replace (Z.min end_ (Z.of_nat (length buffer + length extra))) with end_ by lia.
  replace (Z.min end_ (Z.of_nat (length buffer))) with end_ by lia.
  rewrite take_app_le by lia.
  destruct (Z_le_gt_dec start (Z.of_nat (length buffer))) as [Hs | Hs].
  - replace (Z.min start (Z.of_nat (length buffer + length extra))) with start by lia.
    replace (Z.min start (Z.of_nat (length buffer))) with start by lia.
    reflexivity.
  - rewrite !drop_ge; [reflexivity | rewrite length_take; lia ..].
Qed.

End AppendFacts.

Section ParseAppend.

Import MrmsParser.

Variable Math_pow : Z -> Z -> JS.number.
Variable buffer : Buffer.t.

Lemma parseSections_app (extra : Buffer.t) (s : sections) :
  parseSections buffer = JS.Normal s ->
  offset7 s + section7Length s <= Buffer.byteLength buffer ->
  parseSections (buffer ++ extra) = JS.Normal s.
Proof.
  intros H H7. parse_inv H. injection H as <-. cbn in H7.
  repeat match goal with
    | E1 : ?c = JS.Normal ?u, E2 : ?c = JS.Normal ?v |- _ =>
        lazymatch u with v => fail | _ => idtac end;
        assert (v = u) by congruence; subst v
    end.
  assert (forall o v, Buffer.readUInt32BE buffer o = JS.Normal v ->
                      o + 4 <= Buffer.byteLength buffer) as Hin
    by (intros o v Hv; apply readUInt32BE_Normal in Hv; lia).
  unfold parseSections; cbv zeta.
  rewrite starts_with_GRIB_app by assumption. cbn [negb].
  repeat match goal with
    | E : (?x =? 2) = _ |- context [negb (?x =? 2)] => rewrite E; cbn [negb]
    | E : Buffer.readUInt8 buffer ?o = JS.Normal _
      |- Buffer.readUInt8 (buffer ++ _) ?o ≫= _ = _ =>
        rewrite (readUInt8_app _ _ _ _ E), bind_Normal
    | E : Buffer.readUInt16BE buffer ?o = JS.Normal _
      |- Buffer.readUInt16BE (buffer ++ _) ?o ≫= _ = _ =>
        rewrite (readUInt16BE_app _ _ _ _ E), bind_Normal
    | E : Buffer.readUInt32BE buffer ?o = JS.Normal _
      |- Buffer.readUInt32BE (buffer ++ _) ?o ≫= _ = _ =>
        rewrite (readUInt32BE_app _ _ _ _ E), bind_Normal
    | E : Buffer.readInt16BE buffer ?o = JS.Normal _
      |- Buffer.readInt16BE (buffer ++ _) ?o ≫= _ = _ =>
        rewrite (readInt16BE_app _ _ _ _ E), bind_Normal
    | E : Buffer.readInt32BE buffer ?o = JS.Normal _
      |- Buffer.readInt32BE (buffer ++ _) ?o ≫= _ = _ =>
        rewrite (readInt32BE_app _ _ _ _ E), bind_Normal
    | E : Buffer.readFloatBE buffer ?o = JS.Normal _
      |- Buffer.readFloatBE (buffer ++ _) ?o ≫= _ = _ =>
        rewrite (readFloatBE_app _ _ _ _ E), bind_Normal
    end.
  rewrite !slice_app; [reflexivity | lia |].
  match goal with
  | E : Buffer.readUInt32BE buffer ?o = JS.Normal _ |- ?o <= _ =>
      apply Hin in E; lia
  end.
Qed.

(** X11: for a message that parses and whose data section ends inside
    the buffer, bytes appended to the buffer do not change the result
    of [parseMRMSGrib2]. *)
Theorem parse_trailing_bytes (extra : Buffer.t) (s : sections) :
  parseSections buffer = JS.Normal s ->
  offset7 s + section7Length s <= Buffer.byteLength buffer ->
  parseMRMSGrib2 Math_pow (buffer ++ extra) = parseMRMSGrib2 Math_pow buffer.
Proof.
  intros H H7. unfold parseMRMSGrib2.
  rewrite (parseSections_app extra s H H7), H. reflexivity.
Qed.

(** X12: the reserved bytes 4-5 and the total-length field (bytes 8-15)
    of the indicator section are not read: for a message that parses,
    overwriting one of them leaves the result of [parseMRMSGrib2]
    unchanged. *)
Theorem parse_indicator_unread (p : Z) (b : Byte.byte) (s : sections) :
  parseSections buffer = JS.Normal s ->
  (4 <= p < 6 \/ 8 <= p < 16) ->
  parseMRMSGrib2 Math_pow (<[Z.to_nat p := b]> buffer)
  = parseMRMSGrib2 Math_pow buffer.
Proof.
  intros H Hp. unfold parseMRMSGrib2.
  pose proof (parseSections_layout buffer s H) as L. unfold Spec.next3 in L.
  rewrite (parseSections_patched buffer p b s H), H; [reflexivity | lia | | |].
  - unfold Spec.unread, Spec.headerRanges. rewrite !Forall_cons. cbv beta. cbn [fst snd].
    destruct (section2Number s =? 2); repeat split; try apply Forall_nil; lia.
  - destruct (section2Number s =? 2); lia.
  - destruct (section2Number s =? 2); lia.
Qed.

End ParseAppend.

Section ShiftFacts.

Variables A B : Buffer.t.

Local Abbreviation lenA := (Z.of_nat (length A)).

Lemma index_int32_shift (i : Z) :
  lenA <= i -> Buffer.index_int32 (A ++ B) i = Buffer.index_int32 B (i - lenA).
Proof.
  intros Hi. unfold Buffer.index_int32, Buffer.index.
  assert (0 <= i) by lia. assert (0 <= i - lenA) by lia.
  rewrite (proj2 (Z.ltb_ge i 0)) by assumption.
  rewrite (proj2 (Z.ltb_ge (i - lenA) 0)) by assumption.
  rewrite lookup_app_r by lia.
  replace (Z.to_nat (i - lenA)) with (Z.to_nat i - length A)%nat by lia.
  reflexivity.
Qed.

Lemma index_int32_prefix (i : Z) :
  i < lenA -> Buffer.index_int32 (A ++ B) i = Buffer.index_int32 A i.
Proof. intros H. apply index_int32_app. unfold Buffer.byteLength. exact H. Qed.

Lemma in_range_shift (offset width : Z) :
  lenA <= offset ->
  Buffer.in_range (A ++ B) offset width = Buffer.in_range B (offset - lenA) width.
Proof.
  intros Ho. unfold Buffer.in_range, Buffer.byteLength. rewrite length_app.
  rewrite (proj2 (Z.leb_le 0 offset)), (proj2 (Z.leb_le 0 (offset - lenA))) by lia.
  cbn [andb].
  destruct (Z.leb_spec (offset + width) (Z.of_nat (length A + length B)));
    destruct (Z.leb_spec (offset - lenA + width) (Z.of_nat (length B)));
    reflexivity || lia.
Qed.

Lemma in_range_prefix (offset width : Z) :
  offset + width <= lenA ->
  Buffer.in_range (A ++ B) offset width = Buffer.in_range A offset width.
Proof.
  intros Ho. unfold Buffer.in_range, Buffer.byteLength. rewrite length_app.
  f_equal.
  destruct (Z.leb_spec (offset + width) (Z.of_nat (length A + length B)));
    destruct (Z.leb_spec (offset + width) lenA); reflexivity || lia.
Qed.

Lemma readUInt8_shift (o : Z) :
  lenA <= o -> Buffer.readUInt8 (A ++ B) o = Buffer.readUInt8 B (o - lenA).
Proof.
  intros H. unfold Buffer.readUInt8.
  rewrite in_range_shift, index_int32_shift by lia. reflexivity.
Qed.

Lemma readUInt16BE_shift (o : Z) :
  lenA <= o -> Buffer.readUInt16BE (A ++ B) o = Buffer.readUInt16BE B (o - lenA).
Proof.
  intros H. unfold Buffer.readUInt16BE.
  rewrite in_range_shift, !index_int32_shift by lia.
  replace (o + 1 - lenA) with (o - lenA + 1) by lia. reflexivity.
Qed.

Lemma readUInt32BE_shift (o : Z) :
  lenA <= o -> Buffer.readUInt32BE (A ++ B) o = Buffer.readUInt32BE B (o - lenA).
Proof.
  intros H. unfold Buffer.readUInt32BE.
  rewrite in_range_shift, !index_int32_shift by lia.
  replace (o + 1 - lenA) with (o - lenA + 1) by lia.
  replace (o + 2 - lenA) with (o - lenA + 2) by lia.
  replace (o + 3 - lenA) with (o - lenA + 3) by lia. reflexivity.
Qed.

Lemma readInt16BE_shift (o : Z) :
  lenA <= o -> Buffer.readInt16BE (A ++ B) o = Buffer.readInt16BE B (o - lenA).
Proof. intros H. unfold Buffer.readInt16BE. rewrite readUInt16BE_shift by lia. reflexivity. Qed.

Lemma readInt32BE_shift (o : Z) :
  lenA <= o -> Buffer.readInt32BE (A ++ B) o = Buffer.readInt32BE B (o - lenA).
Proof. intros H. unfold Buffer.readInt32BE. rewrite readUInt32BE_shift by lia. reflexivity. Qed.

Lemma readFloatBE_shift (o : Z) :
  lenA <= o -> Buffer.readFloatBE (A ++ B) o = Buffer.readFloatBE B (o - lenA).
Proof. intros H. unfold Buffer.readFloatBE. rewrite readUInt32BE_shift by lia. reflexivity. Qed.

Lemma readUInt8_prefix (o : Z) :
  o + 1 <= lenA -> Buffer.readUInt8 (A ++ B) o = Buffer.readUInt8 A o.
Proof.
  intros H. unfold Buffer.readUInt8.
  rewrite in_range_prefix, index_int32_prefix by lia. reflexivity.
Qed.

Lemma readUInt16BE_prefix (o : Z) :
  o + 2 <= lenA -> Buffer.readUInt16BE (A ++ B) o = Buffer.readUInt16BE A o.
Proof.
  intros H. unfold Buffer.readUInt16BE.
  rewrite in_range_prefix, !index_int32_prefix by lia. reflexivity.
Qed.

Lemma readUInt32BE_prefix (o : Z) :
  o + 4 <= lenA -> Buffer.readUInt32BE (A ++ B) o = Buffer.readUInt32BE A o.
Proof.
  intros H. unfold Buffer.readUInt32BE.
  rewrite in_range_prefix, !index_int32_prefix by lia. reflexivity.
Qed.

Lemma starts_with_GRIB_prefix :
  4 <= lenA -> Buffer.starts_with_GRIB (A ++ B) = Buffer.starts_with_GRIB A.
Proof.
  intros H. unfold Buffer.starts_with_GRIB.
  destruct A as [|b0 [|b1 [|b2 [|b3 rest]]]]; simpl in H; try lia. reflexivity.
Qed.

Lemma slice_shift (start end_ : Z) :
  lenA <= start -> lenA <= end_ ->
  Buffer.slice (A ++ B) start end_ = Buffer.slice B (start - lenA) (end_ - lenA).
Proof.
  intros Hs He. unfold Buffer.slice, Buffer.clamp, Buffer.byteLength.
  rewrite length_app.
  rewrite take_app_ge by lia. rewrite drop_app_ge by lia.
  f_equal; [lia|]. f_equal. lia.
Qed.

End ShiftFacts.

Section LocalUseSection.

Import MrmsParser.

Variable Math_pow : Z -> Z -> JS.number.
Variables pre sec2 post : Buffer.t.

Lemma slice_insert_mid (s e s' e' : Z) :
  s' = s + Z.of_nat (length sec2) -> e' = e + Z.of_nat (length sec2) ->
  Z.of_nat (length pre) <= s -> Z.of_nat (length pre) <= e ->
  Buffer.slice (pre ++ sec2 ++ post) s' e' = Buffer.slice (pre ++ post) s e.
Proof.
  intros -> -> Hs He.
  rewrite (slice_shift pre), (slice_shift sec2), (slice_shift pre post) by lia.
  f_equal; lia.
Qed.

Ltac to_parts E :=
  first
    [ rewrite readUInt8_prefix in E by lia
    | rewrite readUInt16BE_prefix in E by lia
    | rewrite readUInt32BE_prefix in E by lia
    | rewrite readUInt8_shift in E by lia
    | rewrite readUInt16BE_shift in E by lia
    | rewrite readUInt32BE_shift in E by lia
    | rewrite readInt16BE_shift in E by lia
    | rewrite readInt32BE_shift in E by lia
    | rewrite readFloatBE_shift in E by lia ].

Ltac goal_to_parts :=
  first
    [ rewrite (readUInt8_prefix pre) by lia
    | rewrite (readUInt16BE_prefix pre) by lia
    | rewrite (readUInt32BE_prefix pre) by lia
    | rewrite (readUInt8_shift pre) by lia;
      first [rewrite (readUInt8_prefix sec2) by lia | rewrite (readUInt8_shift sec2) by lia]
    | rewrite (readUInt16BE_shift pre), (readUInt16BE_shift sec2) by lia
    | rewrite (readUInt32BE_shift pre) by lia;
      first [rewrite (readUInt32BE_prefix sec2) by lia | rewrite (readUInt32BE_shift sec2) by lia]
    | rewrite (readInt16BE_shift pre), (readInt16BE_shift sec2) by lia
    | rewrite (readInt32BE_shift pre), (readInt32BE_shift sec2) by lia
    | rewrite (readFloatBE_shift pre), (readFloatBE_shift sec2) by lia ].

(** X13: the optional section 2 is skipped.  For a message that parses
    without a section 2 and whose section 1 is declared at least 19
    bytes long, inserting after section 1 a section that carries its
    own length and the number 2 leaves the result of [parseMRMSGrib2]
    unchanged. *)
Theorem parse_local_use_section (s : sections) :
  parseSections (pre ++ post) = JS.Normal s ->
  Z.of_nat (length pre) = offset2 s ->
  section2Number s <> 2 ->
  19 <= section1Length s ->
  Buffer.readUInt32BE sec2 0 = JS.Normal (Z.of_nat (length sec2)) ->
  Buffer.readUInt8 sec2 4 = JS.Normal 2 ->
  parseMRMSGrib2 Math_pow (pre ++ sec2 ++ post)
  = parseMRMSGrib2 Math_pow (pre ++ post).
Proof.
  intros H Hpre Habs H1 Hlen Hnum.
  pose proof H as H0.
  assert (5 <= Z.of_nat (length sec2)) as Hlen2
    by (apply readUInt8_Normal in Hnum; unfold Buffer.byteLength in Hnum; lia).
  parse_inv H. injection H as <-. cbn in Hpre, Habs, H1.
  apply Z.eqb_neq in Habs.
  repeat match goal with
    | E1 : ?c = JS.Normal ?u, E2 : ?c = JS.Normal ?v |- _ =>
        lazymatch u with v => fail | _ => idtac end;
        assert (v = u) by congruence; subst v
    end.
  rewrite Habs in *.
  repeat match goal with
    | E : Buffer.readUInt32BE _ _ = JS.Normal ?v |- _ =>
        lazymatch goal with
        | _ : 0 <= v < 2 ^ 32 |- _ => fail
        | _ => pose proof (proj2 (proj2 (readUInt32BE_Normal _ _ _ E)))
        end
    end.
  match goal with
  | E : Buffer.starts_with_GRIB _ = true |- _ =>
      rewrite starts_with_GRIB_prefix in E by lia
  end.
  repeat match goal with
    | E : context [pre ++ post] |- _ =>
        lazymatch type of E with
        | parseSections _ = _ => fail
        | _ => to_parts E
        end
    end.
  assert (exists s',
             parseSections (pre ++ sec2 ++ post) = JS.Normal s'
             /\ gribOfSections Math_pow s' = gribOfSections Math_pow
                  (match parseSections (pre ++ post) with
                   | JS.Normal s0 => s0
                   | JS.Throw _ => s'
                   end)) as (s' & Hs' & Hg).
  2:{ unfold parseMRMSGrib2. rewrite Hs', H0 in *. cbn. f_equal. exact Hg. }
  eexists. split.
  - unfold parseSections; cbv zeta.
    rewrite starts_with_GRIB_prefix by lia.
    repeat match goal with
      | E : ?c = true |- context [negb ?c] => rewrite E; cbn [negb]
      | |- context [if 2 =? 2 then _ else _] => change (2 =? 2) with true; cbv iota
      | |- _ (pre ++ sec2 ++ post) _ ≫= _ = _ => goal_to_parts
      | E : ?c = JS.Normal _ |- ?c ≫= _ = _ => rewrite E, bind_Normal
      | |- Buffer.readUInt32BE sec2 ?o ≫= _ = _ =>
          replace o with 0 by lia; rewrite Hlen, bind_Normal
      | |- Buffer.readUInt8 sec2 ?o ≫= _ = _ =>
          replace o with 4 by lia; rewrite Hnum, bind_Normal
      | E : ?R post ?b = JS.Normal _ |- ?R post ?a ≫= _ = _ =>
          replace a with b by lia; rewrite E, bind_Normal
      end.
    reflexivity.
  - rewrite H0. unfold gribOfSections.
    cbn [discipline year month day hour minute second nx ny la1 lo1 la2 lo2 dx dy
         numberOfDataPoints numberOfBits referenceValue binaryScaleFactor
         decimalScaleFactor bitMap dataBuffer].
    repeat match goal with
      | |- context [Buffer.slice (pre ++ sec2 ++ post) ?a ?b] =>
          match goal with
          | |- context [Buffer.slice (pre ++ post) ?s ?e] =>
              rewrite (slice_insert_mid s e a b) by lia
          end
      end.
    reflexivity.
Qed.

End LocalUseSection.

(* ===================================================================== *)
(** ** The colour scale *)
(* ===================================================================== *)

Section ColourFacts.

Import Server ColourScale.

Lemma canonical_mantissa_cases (m : positive) (e : Z) :
  canonical_mantissa 53 1024 m e = true ->
  -1074 <= e /\ Zpos (digits2_pos m) <= 53
  /\ (-1074 < e -> Zpos (digits2_pos m) = 53).
Proof.
  unfold canonical_mantissa, fexp, emin. intros H.
  apply Z.eqb_eq in H. lia.
Qed.

Lemma SFltb_positive (m mc : positive) (e ec : Z) :
  canonical_mantissa 53 1024 m e = true ->
  digits2_pos mc = 53%positive -> -1074 <= ec ->
  SFltb (S754_finite false m e) (S754_finite false mc ec) = true
  <-> Zpos m * 2 ^ (e + 1074) < Zpos mc * 2 ^ (ec + 1074).
Proof.
  intros Hc Hd Hec. apply canonical_mantissa_cases in Hc.
  destruct Hc as (He & Hle & Hnormal).
  pose proof (digits2_pos_bounds m) as Hm.
  pose proof (digits2_pos_bounds mc) as Hmc. rewrite Hd in Hmc.
  change (2 ^ (53 - 1)) with (2 ^ 52) in Hmc.
  assert (Zpos m < 2 ^ 53) as Hm53.
  { eapply Z.lt_le_trans; [apply Hm|]. apply Z.pow_le_mono_r; lia. }
  unfold SFltb, SFcompare. destruct (Z.compare_spec e ec) as [-> | Hlt | Hgt].
  - rewrite Pos.compare_cont_spec. cbn [Pos.switch_Eq].
    assert (0 < 2 ^ (ec + 1074)) by (apply Z.pow_pos_nonneg; lia).
    destruct (Pos.compare_spec m mc) as [-> | Hl | Hg].
    + split; [discriminate | lia].
    + split; [intros _; nia | reflexivity].
    + split; [discriminate | nia].
  - split; [intros _ | reflexivity].
    assert (2 ^ (e + 1074) * 2 <= 2 ^ (ec + 1074)) as Hp.
    { rewrite <- (Z.pow_1_r 2) at 2. rewrite <- Z.pow_add_r by lia. apply Z.pow_le_mono_r; lia. }
    assert (0 < 2 ^ (e + 1074)) by (apply Z.pow_pos_nonneg; lia).
    change (2 ^ 53) with (2 ^ 52 * 2) in Hm53. nia.
  - split; [discriminate | intros Habs; exfalso].
    specialize (Hnormal ltac:(lia)). rewrite Hnormal in Hm.
    change (2 ^ (53 - 1)) with (2 ^ 52) in Hm.
    assert (2 ^ (ec + 1074) * 2 <= 2 ^ (e + 1074)) as Hp.
    { rewrite <- (Z.pow_1_r 2) at 2. rewrite <- Z.pow_add_r by lia. apply Z.pow_le_mono_r; lia. }
    assert (0 < 2 ^ (ec + 1074)) by (apply Z.pow_pos_nonneg; lia).
    change (2 ^ 53) with (2 ^ 52 * 2) in Hmc. nia.
Qed.

Lemma Qpower_scaled (e : Z) :
  -1074 <= e ->
  (Qpower 2 e * inject_Z (2 ^ 1074) == inject_Z (2 ^ (e + 1074)))%Q.
Proof.
  intros He. rewrite !Zpower_Qpower by lia.
  rewrite Qpower_plus by discriminate. reflexivity.
Qed.

Lemma scaled_lt (z e n : Z) :
  -1074 <= e ->
  (inject_Z z * Qpower 2 e < inject_Z n)%Q <-> z * 2 ^ (e + 1074) < n * 2 ^ 1074.
Proof.
  intros He.
  assert (0 < inject_Z (2 ^ 1074))%Q as HT.
  { rewrite <- (Zlt_Qlt 0). apply Z.pow_pos_nonneg; lia. }
  rewrite <- (Qmult_lt_r _ _ _ HT).
  rewrite <- Qmult_assoc, (Qpower_scaled e He), <- !inject_Z_mult.
  rewrite <- Zlt_Qlt. reflexivity.
Qed.

Lemma thresholds_checked :
  forallb (fun n =>
             match JS.of_int n with
             | S754_finite false mc ec =>
                 (digits2_pos mc =? 53)%positive && (-1074 <=? ec)
                 && (Zpos mc * 2 ^ (ec + 1074) =? n * 2 ^ 1074) && (0 <? n)
             | _ => false
             end) thresholds = true.
Proof. vm_compute. reflexivity. Qed.

(** [dbz < n] on Numbers is [<] on their values, for a threshold [n]
    of the scale. *)
Lemma lt_threshold (x : JS.number) (q : Q) (n : Z) :
  valid_binary 53 1024 x = true -> JS.to_Q x = Some q -> In n thresholds ->
  JS.lt x (JS.of_int n) = true <-> (q < inject_Z n)%Q.
Proof.
  intros Hv Hq Hn. pose proof thresholds_checked as H.
  rewrite forallb_forall in H. specialize (H n Hn).
  destruct (JS.of_int n) as [| | |[|] mc ec]; try discriminate H.
  rewrite !andb_true_iff in H. destruct H as (((Hd & Hec) & Hval) & Hpos).
  apply Pos.eqb_eq in Hd. apply Z.leb_le in Hec. apply Z.eqb_eq in Hval.
  apply Z.ltb_lt in Hpos. unfold JS.lt.
  destruct x as [s | s | | s m e]; try discriminate Hq.
  - injection Hq as <-. change 0%Q with (inject_Z 0). rewrite <- (Zlt_Qlt 0 n). split; [intros _; exact Hpos | reflexivity].
  - injection Hq as <-. cbn [valid_binary] in Hv. unfold bounded in Hv.
    apply andb_true_iff in Hv. destruct Hv as [Hc _].
    pose proof (canonical_mantissa_cases m e Hc) as (He & _ & _).
    rewrite (scaled_lt _ e n He). destruct s; cbn [cond_Zopp].
    + split; [intros _ | reflexivity].
      assert (0 < 2 ^ (e + 1074)) by (apply Z.pow_pos_nonneg; lia).
      assert (0 < 2 ^ 1074) by (apply Z.pow_pos_nonneg; lia). nia.
    + rewrite <- Hval. apply SFltb_positive; assumption.
Qed.

Lemma floor_band_le (q : Q) (j : Z) :
  (inject_Z (5 * j) <= q)%Q -> j <= Qfloor (q / 5).
Proof.
  intros H. rewrite <- (Qfloor_Z j). apply Qfloor_resp_le.
  apply Qle_shift_div_l; [reflexivity|].
  rewrite inject_Z_mult, Qmult_comm in H. exact H.
Qed.

Lemma floor_band_lt (q : Q) (j : Z) :
  (q < inject_Z (5 * j))%Q -> Qfloor (q / 5) < j.
Proof.
  intros H. rewrite Zlt_Qlt. eapply Qle_lt_trans; [apply Qfloor_le|].
  apply Qlt_shift_div_r; [reflexivity|].
  rewrite inject_Z_mult, Qmult_comm in H. exact H.
Qed.

(** X14: the colour of a finite Number of value [q] is the row of the
    band of [q] in the table: bands are 5 dBZ wide, a value on a
    threshold belongs to the band above it, everything below 5 is
    transparent and everything from 65 on has the last colour. *)
Theorem colour_by_band (dbz : JS.number) (q : Q) :
  valid_binary 53 1024 dbz = true ->
  JS.to_Q dbz = Some q ->
  getColorForReflectivity dbz = colorTable !!! Z.to_nat (bandOf q).
Proof.
  intros Hv Hq. unfold getColorForReflectivity, bandOf.
  repeat match goal with
  | |- context [JS.lt dbz (JS.of_int ?n)] =>
      let H := fresh "H" in
      let j := eval vm_compute in (n / 5) in
      destruct (JS.lt dbz (JS.of_int n)) eqn:H;
      [ apply (lt_threshold dbz q n Hv Hq) in H; [|simpl; tauto];
        apply (floor_band_lt q j) in H
      | apply not_true_iff_false in H;
        rewrite (lt_threshold dbz q n Hv Hq) in H by (simpl; tauto);
        apply Qnot_lt_le, (floor_band_le q j) in H ]
  end.
  all: match goal with
       | |- _ = colorTable !!! Z.to_nat ?b =>
           first [ replace b with 0 by lia | replace b with 1 by lia
                 | replace b with 2 by lia | replace b with 3 by lia
                 | replace b with 4 by lia | replace b with 5 by lia
                 | replace b with 6 by lia | replace b with 7 by lia
                 | replace b with 8 by lia | replace b with 9 by lia
                 | replace b with 10 by lia | replace b with 11 by lia
                 | replace b with 12 by lia | replace b with 13 by lia ]
       end; reflexivity.
Qed.

End ColourFacts.

(* ===================================================================== *)
(** ** The image buffer *)
(* ===================================================================== *)

Section ImageFacts.

Import MrmsParser Server.

Lemma paintCell_length (img : list Z) (cell : nat * JS.number) :
  length (paintCell img cell) = length img.
Proof. destruct cell as [i v]. unfold paintCell. rewrite !length_insert. reflexivity. Qed.

Lemma paintCell_other (img : list Z) (i : nat) (v : JS.number) (j : nat) :
  (j < 4 * i \/ 4 * i + 4 <= j)%nat ->
  paintCell img (i, v) !! j = img !! j.
Proof.
  intros Hj. unfold paintCell. rewrite !list_lookup_insert_ne by lia. reflexivity.
Qed.

Lemma paintCell_own (img : list Z) (i : nat) (v : JS.number) (c : nat) :
  (c < 4)%nat -> (4 * i + c < length img)%nat ->
  paintCell img (i, v) !! (4 * i + c)%nat
  = Some (getColorForReflectivity v !!! c).
Proof.
  intros Hc Hlen. unfold paintCell.
  replace (4 * i)%nat with (i * 4)%nat by lia.
  destruct c as [|[|[|[|c]]]]; try lia.
  - rewrite !list_lookup_insert_ne by lia.
    rewrite Nat.add_0_r. apply list_lookup_insert_eq. lia.
  - rewrite !(list_lookup_insert_ne _ (i * 4 + 3)), !(list_lookup_insert_ne _ (i * 4 + 2)) by lia.
    apply list_lookup_insert_eq. rewrite length_insert. lia.
  - rewrite (list_lookup_insert_ne _ (i * 4 + 3)) by lia.
    apply list_lookup_insert_eq. rewrite !length_insert. lia.
  - apply list_lookup_insert_eq. rewrite !length_insert. lia.
Qed.

Lemma paint_all (img0 : list Z) (values : list JS.number) :
  let img := foldl paintCell img0 (imap pair values) in
  length img = length img0
  /\ (forall i v c,
        values !! i = Some v -> (c < 4)%nat -> (4 * i + c < length img0)%nat ->
        img !! (4 * i + c)%nat = Some (getColorForReflectivity v !!! c))
  /\ (forall j, (4 * length values <= j)%nat -> img !! j = img0 !! j).
Proof.
  induction values as [|x l IH] using rev_ind; cbv zeta.
  - simpl. split; [reflexivity|]. split; [intros i v c H; discriminate H | reflexivity].
  - rewrite imap_app, foldl_app. cbn [imap foldl]. rewrite Nat.add_0_r.
    cbv zeta in IH. destruct IH as (IHlen & IHown & IHrest).
    set (img := foldl paintCell img0 (imap pair l)) in *.
    split; [rewrite paintCell_length; exact IHlen|]. split.
    + intros i v c Hv Hc Hlen.
      destruct (decide (i < length l)%nat) as [Hlt | Hge].
      * rewrite lookup_app_l in Hv by exact Hlt.
        rewrite paintCell_other by lia. apply IHown; assumption.
      * assert (i = length l) as ->.
        { apply lookup_lt_Some in Hv. rewrite length_app in Hv. simpl in Hv. lia. }
        rewrite lookup_app_r, Nat.sub_diag in Hv by lia. injection Hv as <-.
        apply paintCell_own; [exact Hc | rewrite IHlen; exact Hlen].
    + intros j Hj. rewrite length_app in Hj. simpl in Hj.
      rewrite paintCell_other by lia. apply IHrest. lia.
Qed.

(** X15: the RGBA buffer of a grid with at least one cell, small enough to
    be allocated: [nx * ny * 4] bytes; the four bytes of pixel [i] are
    the colour of [values[i]]; bytes beyond the last value stay 0;
    values beyond the last pixel are dropped. *)
Theorem generateRadarImage_pixels (g : grib) :
  0 < g_nx g -> 0 < g_ny g -> g_nx g * g_ny g * 4 < 2 ^ 31 ->
  exists imageData,
    Server.generateRadarImage g = JS.Normal imageData
    /\ length imageData = Z.to_nat (g_nx g * g_ny g * 4)
    /\ (forall i v c,
          g_values g !! i = Some v -> (c < 4)%nat ->
          (4 * i + c < length imageData)%nat ->
          imageData !! (4 * i + c)%nat = Some (getColorForReflectivity v !!! c))
    /\ (forall j,
          (4 * length (g_values g) <= j < length imageData)%nat ->
          imageData !! j = Some 0).
Proof.
  intros Hx Hy _. unfold Server.generateRadarImage.
  rewrite (proj2 (Z.eqb_neq (g_nx g) 0)), (proj2 (Z.eqb_neq (g_ny g) 0)) by lia.
  cbn [orb].
  eexists. split; [reflexivity|].
  pose proof (paint_all (replicate (Z.to_nat (g_nx g * g_ny g * 4)) 0) (g_values g)) as H.
  cbv zeta in H. destruct H as (Hlen & Hown & Hrest).
  rewrite length_replicate in *.
  split; [exact Hlen|]. split.
  - intros i v c Hv Hc Hlt. rewrite Hlen in Hlt. apply Hown; assumption.
  - intros j [Hj Hlt]. rewrite Hrest by exact Hj.
    apply lookup_replicate_2. rewrite Hlen in Hlt. exact Hlt.
Qed.

End ImageFacts.

(* ===================================================================== *)
(** ** The endpoints and the cache *)
(* ===================================================================== *)

Section CacheMore.

Import MrmsParser Server Routes.

Variable Math_pow : Z -> Z -> JS.number.
Variable download : string -> list string -> JS.completion Buffer.t.

Local Abbreviation fetchRadarData := (Server.fetchRadarData Math_pow download).
Local Abbreviation getLatest := (Server.getLatest Math_pow download).
Local Abbreviation getImage := (Server.getImage Math_pow download).
Local Abbreviation serve := (Routes.serve Math_pow download).
Local Abbreviation serveAll := (Routes.serveAll Math_pow download).

Lemma fetchRadarData_unknown (productId : string) (st : state) :
  MRMS_PRODUCTS !! productId = None ->
  fetchRadarData productId st
  = (JS.Throw (JS.Error ("Unknown product: " +:+ productId)), st).
Proof. intros H. unfold Server.fetchRadarData. rewrite H. reflexivity. Qed.

(** X16: a request for an unknown product, in a state where only products
    are cached, is answered with status 500 and changes nothing: no
    download, no cache entry. *)
Theorem unknown_product_rejected (r : request) (st : state) :
  MRMS_PRODUCTS !! requestKey r = None ->
  requestKey r ∉ Object_prototype_keys ->
  dom (dataCache st) ⊆ dom MRMS_PRODUCTS ->
  serve r st
  = (Status500 (JS.Error ("Unknown product: " +:+ requestKey r)), st).
Proof.
  intros Hp _ Hdom.
  assert (dataCache st !! requestKey r = None) as Hc.
  { apply not_elem_of_dom. intros Hin. apply Hdom, elem_of_dom in Hin as [p Hin].
    congruence. }
  destruct r as [query now | query now]; cbn [requestKey Routes.serve] in *.
  - unfold Server.getLatest. rewrite Hc. cbn [freshEntry].
    rewrite fetchRadarData_unknown by exact Hp. reflexivity.
  - unfold Server.getImage. rewrite Hc. cbn [stale].
    rewrite fetchRadarData_unknown by exact Hp. reflexivity.
Qed.

Lemma renderCached_state (cacheKey : string) (st : state) :
  snd (renderCached cacheKey st) = st.
Proof.
  unfold renderCached. destruct (dataCache st !! cacheKey) as [c|]; [|reflexivity].
  destruct (generateRadarImage (_fullData (data c))); reflexivity.
Qed.

(** What a request does to the state: nothing, or one download logged,
    or one download logged and the entry of its key replaced. *)
Lemma serve_state (r : request) (st : state) :
  snd (serve r st) = st
  \/ (exists p, MRMS_PRODUCTS !! requestKey r = Some p
        /\ (snd (serve r st) = State (dataCache st) (url p :: fetched st)
            \/ exists e, snd (serve r st)
                 = State (<[requestKey r := e]> (dataCache st))
                         (url p :: fetched st))).
Proof.
  destruct r as [query now | query now]; cbn [requestKey Routes.serve].
  - unfold Server.getLatest.
    destruct (freshEntry (dataCache st !! productOf query) now); [left; reflexivity|].
    unfold Server.fetchRadarData.
    destruct (MRMS_PRODUCTS !! productOf query) as [p|]; [|left; reflexivity].
    right. exists p. split; [reflexivity|].
    destruct (download (url p) (fetched st) ≫= _) as [d|e]; cbn.
    + right. eexists. reflexivity.
    + left. reflexivity.
  - unfold Server.getImage.
    destruct (stale (dataCache st !! productOf query) now);
      [|left; apply renderCached_state].
    unfold Server.fetchRadarData.
    destruct (MRMS_PRODUCTS !! productOf query) as [p|]; [|left; reflexivity].
    right. exists p. split; [reflexivity|].
    destruct (download (url p) (fetched st) ≫= _) as [d|e]; cbn.
    + right. rewrite renderCached_state. eexists. reflexivity.
    + left. reflexivity.
Qed.

(** X17: a request to either radar endpoint leaves the cache entries of
    all keys other than its own as they are. *)
Theorem serve_other_keys (r : request) (st : state) (k : string) :
  k <> requestKey r ->
  dataCache (snd (serve r st)) !! k = dataCache st !! k.
Proof.
  intros Hk.
  destruct (serve_state r st) as [-> | (p & _ & [-> | (e & ->)])]; try reflexivity.
  cbn. apply lookup_insert_ne. congruence.
Qed.

(** X18: over any sequence of requests to the two radar endpoints, the
    number of downloads grows by at most one per request. *)
Theorem serveAll_downloads (rs : list request) (st : state) :
  (length (fetched (serveAll rs st)) <= length (fetched st) + length rs)%nat.
Proof.
  revert st. induction rs as [|r rs IH]; intros st; [simpl; lia|].
  unfold Routes.serveAll in *. cbn [foldl length].
  specialize (IH (snd (serve r st))).
  destruct (serve_state r st) as [E | (p & _ & [E | (e & E)])];
    rewrite E in *; cbn in *; lia.
Qed.

(** X19: when only products are cached to begin with (as in the empty
    cache the server starts with), only products are cached after any
    sequence of requests, so the cache never holds more than four
    entries. *)
Theorem serveAll_cache_bounded (rs : list request) (st : state) :
  dom (dataCache st) ⊆ dom MRMS_PRODUCTS ->
  dom (dataCache (serveAll rs st)) ⊆ dom MRMS_PRODUCTS
  /\ (size (dataCache (serveAll rs st)) <= 4)%nat.
Proof.
  intros H0.
  assert (dom (dataCache (serveAll rs st)) ⊆ dom MRMS_PRODUCTS) as Hsub.
  { revert st H0. induction rs as [|r rs IH]; intros st H0; [exact H0|].
    unfold Routes.serveAll in *. cbn [foldl]. apply IH.
    destruct (serve_state r st) as [-> | (p & Hp & [-> | (e & ->)])];
      cbn [dataCache]; try exact H0.
    rewrite dom_insert_L. apply union_least; [|exact H0].
    apply singleton_subseteq_l, elem_of_dom. exists p. exact Hp. }
  split; [exact Hsub|].
  rewrite <- size_dom. apply subseteq_size in Hsub.
  assert (size (dom MRMS_PRODUCTS) = 4%nat) as E by (rewrite size_dom; reflexivity).
  lia.
Qed.

Lemma renderCached_entry (cacheKey : string) (st : state) (c : cacheEntry) :
  dataCache st !! cacheKey = Some c ->
  renderCached cacheKey st = (imageResponse (_fullData (data c)), st).
Proof.
  intros H. unfold renderCached, imageResponse. rewrite H.
  destruct (generateRadarImage (_fullData (data c))); reflexivity.
Qed.

Lemma getImage_hit (query : option string) (now : Z) (st : state) (c : cacheEntry) :
  dataCache st !! productOf query = Some c ->
  now - time c < CACHE_DURATION ->
  getImage query now st = (imageResponse (_fullData (data c)), st).
Proof.
  intros Hc Hf. unfold Server.getImage.
  assert (stale (dataCache st !! productOf query) now = false) as Hn.
  { rewrite Hc. cbn [stale]. apply Z.leb_gt. exact Hf. }
  rewrite Hn. apply renderCached_entry. exact Hc.
Qed.

Lemma getImage_miss (query : option string) (now : Z) (st : state) (p : product) :
  MRMS_PRODUCTS !! productOf query = Some p ->
  freshEntry (dataCache st !! productOf query) now = None ->
  getImage query now st
  = match fst (fetchRadarData (productOf query) st) with
    | JS.Normal d =>
        (imageResponse (_fullData d),
         State (<[productOf query := CacheEntry d now]> (dataCache st))
               (url p :: fetched st))
    | JS.Throw e => (Status500 e, State (dataCache st) (url p :: fetched st))
    end.
Proof.
  intros Hp Hs. unfold Server.getImage.
  rewrite (proj2 (stale_freshEntry Math_pow _ _) Hs).
  pose proof (fetchRadarData_known Math_pow download _ _ st Hp) as Hst.
  destruct (fetchRadarData (productOf query) st) as [[d|e] st']; cbn in Hst |- *;
    subst st'; [|reflexivity].
  unfold setCache. cbn [dataCache fetched].
  apply (renderCached_entry _ _ (CacheEntry d now)).
  cbn [dataCache]. apply lookup_insert_eq.
Qed.

(** X20: the image endpoint, for a known product: within the window it
    renders the cached grid and changes nothing; otherwise it makes one
    download, and either stores the new data with [time = now] and
    renders it, or answers 500 and leaves the cache as it was. *)
Theorem getImage_cases (query : option string) (p : product) :
  MRMS_PRODUCTS !! productOf query = Some p ->
  (forall now st c,
      dataCache st !! productOf query = Some c ->
      now - time c < CACHE_DURATION ->
      getImage query now st = (imageResponse (_fullData (data c)), st))
  /\ (forall now st d,
        freshEntry (dataCache st !! productOf query) now = None ->
        fst (fetchRadarData (productOf query) st) = JS.Normal d ->
        getImage query now st
        = (imageResponse (_fullData d),
           State (<[productOf query := CacheEntry d now]> (dataCache st))
                 (url p :: fetched st)))
  /\ (forall now st e,
        freshEntry (dataCache st !! productOf query) now = None ->
        fst (fetchRadarData (productOf query) st) = JS.Throw e ->
        getImage query now st
        = (Status500 e, State (dataCache st) (url p :: fetched st))).
Proof.
  intros Hp. split; [|split].
  - intros now st c. apply getImage_hit.
  - intros now st d Hs Hd. rewrite (getImage_miss _ _ _ _ Hp Hs), Hd. reflexivity.
  - intros now st e Hs He. rewrite (getImage_miss _ _ _ _ Hp Hs), He. reflexivity.
Qed.

(** X21: the two endpoints share the cache: data fetched by one is served by
    the other within the window, without a second download. *)
Theorem endpoints_share_cache (query : option string) (t0 t1 : Z) (st : state)
    (p : product) (d : radarData) :
  MRMS_PRODUCTS !! productOf query = Some p ->
  freshEntry (dataCache st !! productOf query) t0 = None ->
  fst (fetchRadarData (productOf query) st) = JS.Normal d ->
  t1 - t0 < CACHE_DURATION ->
  (let st1 := snd (getLatest query t0 st) in
   fetched st1 = url p :: fetched st
   /\ getImage query t1 st1 = (imageResponse (_fullData d), st1))
  /\ (let st1 := snd (getImage query t0 st) in
      fetched st1 = url p :: fetched st
      /\ getLatest query t1 st1
         = (LatestJson (timestamp d) (meta d) (productOf query), st1)).
Proof.
  intros Hp Hs Hd Ht.
  set (st1 := State (<[productOf query := CacheEntry d t0]> (dataCache st))
                    (url p :: fetched st)).
  assert (dataCache st1 !! productOf query = Some (CacheEntry d t0)) as Hc
    by apply lookup_insert_eq.
  split; cbv zeta.
  - rewrite (getLatest_miss Math_pow download _ _ _ _ Hp Hs), Hd. cbn [snd]. fold st1.
    split; [reflexivity|].
    apply (getImage_hit query t1 st1 _ Hc). exact Ht.
  - rewrite (getImage_miss _ _ _ _ Hp Hs), Hd. cbn [snd]. fold st1.
    split; [reflexivity|].
    apply (getLatest_hit Math_pow download query t1 st1 _ Hc). exact Ht.
Qed.

End CacheMore.

(* ===================================================================== *)
(** ** The bitmap: short bitmaps and the indicator byte *)
(* ===================================================================== *)

Section BitmapMore.

Import MrmsParser.

Variable Math_pow : Z -> Z -> JS.number.
Variables (dataBuffer : Buffer.t).
Variables (numberOfDataPoints numberOfBits : Z).
Variable referenceValue : JS.number.
Variables (binaryScaleFactor decimalScaleFactor : Z).

Local Abbreviation decode data bitMap :=
  (decodeData Math_pow data bitMap numberOfDataPoints numberOfBits
     referenceValue binaryScaleFactor decimalScaleFactor).

Lemma bit_past_end (buffer : Buffer.t) (k : Z) :
  8 * Buffer.byteLength buffer <= k -> Spec.bit buffer k = false.
Proof.
  intros Hk. unfold Spec.bit, Buffer.index_int32, Buffer.index, Buffer.byteLength in *.
  assert (Z.of_nat (length buffer) <= k / 8) as Hq
    by (apply Z.div_le_lower_bound; lia).
  rewrite (proj2 (Z.ltb_ge (k / 8) 0)) by lia.
  rewrite lookup_ge_None_2 by lia. apply Z.testbit_0_l.
Qed.

(** X22: a cell whose bit lies past the end of the bitmap is missing:
    with a bit width other than 0 it holds NaN, whatever the payload.
    With an empty bitmap every cell does. *)
Theorem decodeData_short_bitmap (bm : Buffer.t) (i : Z) :
  numberOfBits <> 0 ->
  8 * Buffer.byteLength bm <= i < numberOfDataPoints ->
  decode dataBuffer (Some bm) !! Z.to_nat i = Some JS.NaN.
Proof.
  intros Hb Hi.
  assert (0 <= Buffer.byteLength bm) by (unfold Buffer.byteLength; lia).
  rewrite decodeData_cell by lia. unfold Spec.cellValue.
  rewrite skipped_missing. cbn [Spec.missing].
  rewrite bit_past_end by lia. reflexivity.
Qed.

End BitmapMore.

Section BitmapIndicator.

Import MrmsParser.

Variable Math_pow : Z -> Z -> JS.number.
Variable buffer : Buffer.t.

(** X23: every bitmap indicator other than 0 means no bitmap: for a message
    that parses with such an indicator, and whose sections 1, 3, 5 and
    6 are declared long enough to hold the fields read from them,
    replacing the indicator by any other non-zero byte leaves the
    result of [parseMRMSGrib2] unchanged. *)
Theorem bitmap_indicator_nonzero (s : sections) (b : Byte.byte) :
  parseSections buffer = JS.Normal s ->
  bitMapIndicator s <> 0 -> Buffer.u8 b <> 0 ->
  19 <= section1Length s -> 71 <= section3Length s ->
  20 <= section5Length s -> 6 <= section6Length s ->
  parseMRMSGrib2 Math_pow (<[Z.to_nat (offset6 s + 5) := b]> buffer)
  = parseMRMSGrib2 Math_pow buffer.
Proof.
  intros H Hind Hb H1 H3 H5 H6. pose proof H as H0.
  pose proof (parseSections_layout buffer s H) as L. unfold Spec.next3 in L.
  parse_inv H. injection H as <-. cbn in Hind, H1, H3, H5, H6, L |- *.
  apply Z.eqb_neq in Hind, Hb. destruct_and!.
  repeat match goal with
  | H : context [if (?x =? 2) then _ else _] |- _ => destruct (x =? 2) eqn:?
  end.
  all: repeat match goal with
    | E1 : ?c = JS.Normal ?u, E2 : ?c = JS.Normal ?v |- _ =>
        lazymatch u with v => fail | _ => idtac end;
        assert (v = u) by congruence; subst v
    end.
  all: match goal with
    | E : Buffer.readUInt8 buffer ?o = JS.Normal ?v, _ : (?v =? 0) = false |- _ =>
        pose proof (proj1 (proj2 (readUInt8_Normal _ _ _ E))) as Hin;
        unfold Buffer.byteLength in Hin
    end.
  all: match goal with
    | E : Buffer.readUInt8 buffer ?o = JS.Normal ?v, _ : (?v =? 0) = false |- _ =>
        eassert (parseSections (<[Z.to_nat o := b]> buffer) = JS.Normal _) as Hs'
    end.
  all: try (unfold parseSections; cbv zeta;
    rewrite starts_with_GRIB_patched by lia;
    repeat match goal with
    | E : ?c = true |- context [negb ?c] => rewrite E; cbn [negb]
    | E : (?x =? 2) = _ |- context [if ?x =? 2 then _ else _] => rewrite E
    | |- Buffer.readUInt8 (<[Z.to_nat ?p := _]> _) ?o ≫= _ = _ =>
        first [ rewrite (readUInt8_patched buffer p b ltac:(lia) o) by lia
              | rewrite (readUInt8_byte _ o b)
                  by (lia || (apply list_lookup_insert_eq; lia));
                rewrite bind_Normal; cbv beta; rewrite Hb ]
    | |- Buffer.readUInt16BE (<[Z.to_nat ?p := _]> _) ?o ≫= _ = _ =>
        rewrite (readUInt16BE_patched buffer p b ltac:(lia) o) by lia
    | |- Buffer.readUInt32BE (<[Z.to_nat ?p := _]> _) ?o ≫= _ = _ =>
        rewrite (readUInt32BE_patched buffer p b ltac:(lia) o) by lia
    | |- Buffer.readInt16BE (<[Z.to_nat ?p := _]> _) ?o ≫= _ = _ =>
        rewrite (readInt16BE_patched buffer p b ltac:(lia) o) by lia
    | |- Buffer.readInt32BE (<[Z.to_nat ?p := _]> _) ?o ≫= _ = _ =>
        rewrite (readInt32BE_patched buffer p b ltac:(lia) o) by lia
    | |- Buffer.readFloatBE (<[Z.to_nat ?p := _]> _) ?o ≫= _ = _ =>
        rewrite (readFloatBE_patched buffer p b ltac:(lia) o) by lia
    | E : ?c = JS.Normal _ |- ?c ≫= _ = _ => rewrite E, bind_Normal; cbv beta
    end;
    reflexivity).
  all: unfold parseMRMSGrib2; rewrite Hs', H0, !bind_Normal; f_equal;
    unfold gribOfSections;
    cbn [discipline year month day hour minute second nx ny la1 lo1 la2 lo2 dx dy
         numberOfDataPoints numberOfBits referenceValue binaryScaleFactor
         decimalScaleFactor bitMap dataBuffer];
    rewrite Hind, !slice_patched by lia; reflexivity.
Qed.

End BitmapIndicator.

(* ===================================================================== *)
(** ** The properties above at sample inputs *)
(* ===================================================================== *)

Section MoreExamples.

Import MrmsParser Server Routes ColourScale.

Lemma readBits_app_witness :
  readBits Fixture.payload25 0 (12 + 13)
  = readBits Fixture.payload25 0 12 * 2 ^ 13
    + readBits Fixture.payload25 (0 + 12) 13.
Proof. apply (readBits_app Fixture.payload25 0 12 13); lia. Defined.

Lemma readBits_range_witness :
  0 <= readBits Fixture.payload25 0 25 < 2 ^ 25.
Proof. apply (readBits_range Fixture.payload25 0 25). lia. Defined.

Lemma readBits_byte_witness :
  readBits Fixture.payload25 (8 * 3) 8 = Buffer.index_int32 Fixture.payload25 3.
Proof. apply (readBits_byte Fixture.payload25 3). lia. Defined.

Lemma decodeData_without_bitmap_witness :
  decodeData Host.Math_pow [Byte.x05; Byte.xff] None 2 8 (S754_zero false) 0 0
    !! Z.to_nat 1
  = Some (JS.fround
            (unpack Host.Math_pow (S754_zero false) 0 0
               (readBits [Byte.x05; Byte.xff] (8 * 1) 8))).
Proof.
  apply (decodeData_without_bitmap Host.Math_pow [Byte.x05; Byte.xff] 2 8
           (S754_zero false) 0 0 1); lia.
Defined.

Lemma decodeData_full_bitmap_witness :
  decodeData Host.Math_pow [Byte.x05; Byte.xff] (Some [Byte.xc0]) 2 8
    (S754_zero false) 0 0
  = decodeData Host.Math_pow [Byte.x05; Byte.xff] None 2 8 (S754_zero false) 0 0.
Proof.
  apply (decodeData_full_bitmap Host.Math_pow [Byte.x05; Byte.xff] 2 8
           (S754_zero false) 0 0 [Byte.xc0]).
  intros i Hi. assert (i = 0 \/ i = 1) as [-> | ->] by lia; reflexivity.
Defined.

Lemma decodeData_trailing_bytes_witness :
  decodeData Host.Math_pow ([Byte.x05; Byte.xff] ++ [Byte.x01]) None 2 8
    (S754_zero false) 0 0
  = decodeData Host.Math_pow [Byte.x05; Byte.xff] None 2 8 (S754_zero false) 0 0.
Proof.
  apply (decodeData_trailing_bytes Host.Math_pow [Byte.x05; Byte.xff] 2 8
           (S754_zero false) 0 0 None [Byte.x01]); [lia | lia |].
  apply Z.leb_le. vm_compute. reflexivity.
Defined.

Lemma parse_indicator_errors_witness :
  parseMRMSGrib2 Host.Math_pow Sample.noMagic
  = JS.Throw (JS.Error "Not a valid GRIB2 file")
  /\ parseMRMSGrib2 Host.Math_pow Sample.magicOnly = JS.Throw JS.RangeError
  /\ parseMRMSGrib2 Host.Math_pow Sample.edition1
     = JS.Throw (JS.Error "GRIB edition 1 not supported").
Proof.
  split; [|split].
  - apply (proj1 (parse_indicator_errors Host.Math_pow Sample.noMagic)).
    vm_compute. lia.
  - apply (proj1 (proj2 (parse_indicator_errors Host.Math_pow Sample.magicOnly)));
      [reflexivity | vm_compute; lia].
  - apply (proj2 (proj2 (parse_indicator_errors Host.Math_pow Sample.edition1))
             Byte.x01); [reflexivity | reflexivity | vm_compute; discriminate].
Defined.

Lemma parse_minimal_length_witness : 87 <= Buffer.byteLength Fixture.twoCells.
Proof.
  eapply (parse_minimal_length Fixture.twoCells). vm_compute. reflexivity.
Defined.

Lemma parse_result_shape_witness :
  exists g,
    parseMRMSGrib2 Host.Math_pow Fixture.twoCells = JS.Normal g
    /\ length (g_values g) = Z.to_nat (g_numberOfDataPoints g)
    /\ 0 <= g_numberOfDataPoints g < 2 ^ 32.
Proof.
  eassert (parseMRMSGrib2 Host.Math_pow Fixture.twoCells = JS.Normal _) as H
    by (vm_compute; reflexivity).
  eexists. split; [exact H|].
  pose proof (parse_result_shape Host.Math_pow Fixture.twoCells _ H) as (H1 & H2 & _).
  split; [exact H1 | exact H2].
Defined.

Lemma parse_trailing_bytes_witness :
  parseMRMSGrib2 Host.Math_pow (Fixture.twoCells ++ [Byte.x00; Byte.x01])
  = parseMRMSGrib2 Host.Math_pow Fixture.twoCells.
Proof.
  eassert (parseSections Fixture.twoCells = JS.Normal _) as H
    by (vm_compute; reflexivity).
  apply (parse_trailing_bytes Host.Math_pow Fixture.twoCells
           [Byte.x00; Byte.x01] _ H).
  vm_compute. discriminate.
Defined.

Lemma parse_indicator_unread_witness :
  parseMRMSGrib2 Host.Math_pow (<[Z.to_nat 9 := Byte.xff]> Fixture.twoCells)
  = parseMRMSGrib2 Host.Math_pow Fixture.twoCells.
Proof.
  eassert (parseSections Fixture.twoCells = JS.Normal _) as H
    by (vm_compute; reflexivity).
  apply (parse_indicator_unread Host.Math_pow Fixture.twoCells 9 Byte.xff _ H).
  lia.
Defined.

Lemma parse_local_use_section_witness :
  parseMRMSGrib2 Host.Math_pow
    (Sample.upToSection1 ++ Sample.localUse ++ Sample.fromSection3)
  = parseMRMSGrib2 Host.Math_pow (Sample.upToSection1 ++ Sample.fromSection3).
Proof.
  eassert (parseSections (Sample.upToSection1 ++ Sample.fromSection3)
           = JS.Normal _) as H by (vm_compute; reflexivity).
  apply (parse_local_use_section Host.Math_pow Sample.upToSection1
           Sample.localUse Sample.fromSection3 _ H);
    [ reflexivity | vm_compute; discriminate | vm_compute; discriminate
    | reflexivity | reflexivity ].
Defined.

Lemma colour_by_band_witness :
  getColorForReflectivity Sample.dbz37_5 = [253; 248; 2; 255].
Proof.
  exact (colour_by_band Sample.dbz37_5 _ eq_refl eq_refl).
Defined.

Lemma generateRadarImage_pixels_witness :
  exists g imageData,
    parseMRMSGrib2 Host.Math_pow Fixture.twoCells = JS.Normal g
    /\ generateRadarImage g = JS.Normal imageData
    /\ length imageData = Z.to_nat (g_nx g * g_ny g * 4).
Proof.
  eassert (parseMRMSGrib2 Host.Math_pow Fixture.twoCells = JS.Normal _) as H
    by (vm_compute; reflexivity).
  match type of H with
  | _ = JS.Normal ?g =>
      exists g;
      destruct (generateRadarImage_pixels g eq_refl eq_refl eq_refl)
        as (imageData & Himg & Hlen & _)
  end.
  exists imageData. split; [exact H|]. split; [exact Himg | exact Hlen].
Defined.

Lemma unknown_product_rejected_witness :
  serve Host.Math_pow Fixture.deliverTwoCells
    (GetImage (Some "nexrad"%string) 0) (State ∅ [])
  = (Status500 (JS.Error "Unknown product: nexrad"), State ∅ []).
Proof.
  apply (unknown_product_rejected Host.Math_pow Fixture.deliverTwoCells
           (GetImage (Some "nexrad"%string) 0) (State ∅ [])).
  - reflexivity.
  - apply (bool_decide_unpack _). vm_compute. exact I.
  - apply (bool_decide_unpack _). vm_compute. exact I.
Defined.

Lemma serve_other_keys_witness :
  dataCache (snd (serve Host.Math_pow Fixture.deliverTwoCells
                    (GetLatest (Some "rala"%string) 0) (State ∅ [])))
    !! "composite"%string
  = dataCache (State ∅ []) !! "composite"%string.
Proof.
  apply (serve_other_keys Host.Math_pow Fixture.deliverTwoCells
           (GetLatest (Some "rala"%string) 0) (State ∅ []) "composite"%string).
  vm_compute. discriminate.
Defined.

Lemma serveAll_cache_bounded_witness :
  dom (dataCache (serveAll Host.Math_pow Fixture.deliverTwoCells
                    Sample.requests (State ∅ []))) ⊆ dom MRMS_PRODUCTS
  /\ (size (dataCache (serveAll Host.Math_pow Fixture.deliverTwoCells
                         Sample.requests (State ∅ []))) <= 4)%nat.
Proof.
  apply (serveAll_cache_bounded Host.Math_pow Fixture.deliverTwoCells
           Sample.requests (State ∅ [])).
  apply (bool_decide_unpack _). vm_compute. exact I.
Defined.

Lemma getImage_cases_witness :
  exists p d,
    fst (fetchRadarData Host.Math_pow Fixture.deliverTwoCells "rala" (State ∅ []))
    = JS.Normal d
    /\ getImage Host.Math_pow Fixture.deliverTwoCells (Some "rala"%string) 0
         (State ∅ [])
       = (imageResponse (_fullData d),
          State (<["rala"%string := CacheEntry d 0]> ∅) [url p]).
Proof.
  eassert (fst (fetchRadarData Host.Math_pow Fixture.deliverTwoCells "rala"
                  (State ∅ [])) = JS.Normal _) as H by (vm_compute; reflexivity).
  eexists. eexists. split; [exact H|].
  apply (proj1 (proj2 (getImage_cases Host.Math_pow Fixture.deliverTwoCells
                         (Some "rala"%string) _ eq_refl))
           0 (State ∅ [])); [reflexivity | exact H].
Defined.

Lemma endpoints_share_cache_witness :
  exists p d,
    (let st1 := snd (getLatest Host.Math_pow Fixture.deliverTwoCells
                       (Some "rala"%string) 0 (State ∅ [])) in
     fetched st1 = [url p]
     /\ getImage Host.Math_pow Fixture.deliverTwoCells (Some "rala"%string)
          60000 st1
        = (imageResponse (_fullData d), st1))
    /\ (let st1 := snd (getImage Host.Math_pow Fixture.deliverTwoCells
                          (Some "rala"%string) 0 (State ∅ [])) in
        fetched st1 = [url p]
        /\ getLatest Host.Math_pow Fixture.deliverTwoCells (Some "rala"%string)
             60000 st1
           = (LatestJson (timestamp d) (meta d) "rala", st1)).
Proof.
  eassert (fst (fetchRadarData Host.Math_pow Fixture.deliverTwoCells "rala"
                  (State ∅ [])) = JS.Normal _) as H by (vm_compute; reflexivity).
  eexists. eexists.
  apply (endpoints_share_cache Host.Math_pow Fixture.deliverTwoCells
           (Some "rala"%string) 0 60000 (State ∅ []) _ _ eq_refl);
    [reflexivity | exact H | reflexivity].
Defined.

Lemma decodeData_short_bitmap_witness :
  decodeData Host.Math_pow [Byte.x05; Byte.xff] (Some []) 2 8 (S754_zero false) 0 0
    !! Z.to_nat 1
  = Some JS.NaN.
Proof.
  apply (decodeData_short_bitmap Host.Math_pow [Byte.x05; Byte.xff] 2 8
           (S754_zero false) 0 0 [] 1); [lia | unfold Buffer.byteLength; simpl; lia].
Defined.

Lemma bitmap_indicator_nonzero_witness :
  parseMRMSGrib2 Host.Math_pow (<[Z.to_nat (139 + 5) := Byte.xfe]> Fixture.twoCells)
  = parseMRMSGrib2 Host.Math_pow Fixture.twoCells.
Proof.
  eassert (parseSections Fixture.twoCells = JS.Normal _) as H
    by (vm_compute; reflexivity).
  apply (bitmap_indicator_nonzero Host.Math_pow Fixture.twoCells _ Byte.xfe H);
    vm_compute; discriminate.
Defined.

End MoreExamples.

(* ===================================================================== *)
(** ** Rounding to nearest, on integers *)
(* ===================================================================== *)

Section ShiftRight.

Import Exact.

Lemma shr_1_nonneg (m : Z) (r s : bool) :
  0 <= m ->
  shr_1 (Build_shr_record m r s) = Build_shr_record (m / 2) (Z.odd m) (r || s).
Proof.
  intros Hm. destruct m as [|p|p]; [reflexivity | | lia].
  rewrite <- Z.div2_div. destruct p as [p|p|]; reflexivity.
Qed.

Lemma mod_pow2_succ (m k : Z) :
  0 <= k ->
  m mod 2 ^ (k + 1) = m mod 2 ^ k + 2 ^ k * Z.b2z (Z.testbit m k).
Proof.
  intros Hk. rewrite Z.pow_add_r, Z.pow_1_r by lia.
  assert (0 < 2 ^ k) by (apply Z.pow_pos_nonneg; lia).
  rewrite Z.rem_mul_r by lia. rewrite Z.testbit_spec' by lia. reflexivity.
Qed.

(** [k + 1] shifts keep the quotient, the last bit shifted out and
    whether anything below it was set. *)
Lemma iter_shr_1 (m : Z) (k : nat) :
  0 <= m ->
  Nat.iter (S k) shr_1 (Build_shr_record m false false)
  = Build_shr_record (m / 2 ^ (Z.of_nat k + 1))
      (Z.testbit m (Z.of_nat k))
      (negb (m mod 2 ^ Z.of_nat k =? 0)).
Proof.
  intros Hm. induction k as [|k IH].
  - cbn [Nat.iter]. rewrite shr_1_nonneg by exact Hm.
    change (Z.of_nat 0) with 0. rewrite Z.bit0_odd, Z.mod_1_r. reflexivity.
  - change (Nat.iter (S (S k)) shr_1 ?x) with (shr_1 (Nat.iter (S k) shr_1 x)).
    rewrite IH. rewrite shr_1_nonneg by (apply Z.div_pos; [lia | apply Z.pow_pos_nonneg; lia]).
    rewrite Z.div_div by (try apply Z.pow_pos_nonneg; lia).
    replace (2 ^ (Z.of_nat k + 1) * 2) with (2 ^ (Z.of_nat (S k) + 1))
      by (rewrite Nat2Z.inj_succ, <- Z.add_1_r, (Z.pow_add_r 2 (_ + 1) 1) by lia; reflexivity).
    f_equal.
    + rewrite Z.testbit_odd, Z.shiftr_div_pow2 by lia. f_equal. f_equal. f_equal. lia.
    + rewrite Nat2Z.inj_succ, <- Z.add_1_r, mod_pow2_succ by lia.
      pose proof (Z.mod_pos_bound m (2 ^ Z.of_nat k) ltac:(apply Z.pow_pos_nonneg; lia)).
      assert (0 < 2 ^ Z.of_nat k) by (apply Z.pow_pos_nonneg; lia).
      destruct (Z.testbit m (Z.of_nat k)); cbn [Z.b2z orb].
      * symmetry. apply negb_true_iff, Z.eqb_neq. lia.
      * rewrite Z.mul_0_r, Z.add_0_r. reflexivity.
Qed.

Lemma iter_pos_shr_1 (m : Z) (p : positive) :
  0 <= m ->
  SpecFloat.iter_pos shr_1 p (Build_shr_record m false false)
  = Build_shr_record (m / 2 ^ Zpos p)
      (Z.testbit m (Zpos p - 1))
      (negb (m mod 2 ^ (Zpos p - 1) =? 0)).
Proof.
  intros Hm. rewrite iter_pos_Pos_iter, Pos2Nat.inj_iter.
  destruct (Pos2Nat.is_succ p) as [k Hk]. rewrite Hk.
  change (nat_rect _ ?x (fun _ => shr_1) (S k)) with (Nat.iter (S k) shr_1 x).
  rewrite iter_shr_1 by exact Hm.
  assert (Zpos p = Z.of_nat k + 1) as -> by lia.
  replace (Z.of_nat k + 1 - 1) with (Z.of_nat k) by lia. reflexivity.
Qed.

Lemma roundShift_spec (m n : Z) :
  0 <= m -> 0 < n ->
  let q := m / 2 ^ n in
  let r := m mod 2 ^ n in
  (2 * r < 2 ^ n -> roundShift m n = q)
  /\ (2 ^ n < 2 * r -> roundShift m n = q + 1)
  /\ (2 * r = 2 ^ n ->
      (roundShift m n = q \/ roundShift m n = q + 1)
      /\ Z.even (roundShift m n) = true).
Proof.
  intros Hm Hn. destruct n as [|p|p]; try lia. cbv zeta.
  unfold roundShift. rewrite iter_pos_shr_1 by exact Hm.
  cbn [shr_m loc_of_shr_record].
  assert (0 < 2 ^ (Zpos p - 1)) as Hh by (apply Z.pow_pos_nonneg; lia).
  assert (2 ^ Zpos p = 2 * 2 ^ (Zpos p - 1)) as E2
    by (rewrite <- Z.pow_succ_r by lia; f_equal; lia).
  pose proof (mod_pow2_succ m (Zpos p - 1) ltac:(lia)) as Hr.
  replace (Zpos p - 1 + 1) with (Zpos p) in Hr by lia.
  pose proof (Z.mod_pos_bound m (2 ^ (Zpos p - 1)) Hh) as Hlow.
  set (low := m mod 2 ^ (Zpos p - 1)) in *.
  set (q := m / 2 ^ Zpos p) in *.
  destruct (Z.testbit m (Zpos p - 1)); cbn [Z.b2z] in Hr;
    destruct (low =? 0) eqn:Hl; cbn [negb loc_of_shr_record round_nearest_even];
    [apply Z.eqb_eq in Hl | apply Z.eqb_neq in Hl
    |apply Z.eqb_eq in Hl | apply Z.eqb_neq in Hl].
  - split; [lia|]. split; [lia|]. intros _.
    destruct (Z.even q) eqn:Hq; [split; [left; reflexivity | exact Hq]|].
    split; [right; reflexivity|].
    rewrite Z.even_add, Hq. reflexivity.
  - split; [lia|]. split; [reflexivity | lia].
  - split; [reflexivity|]. split; lia.
  - split; [reflexivity|]. split; lia.
Qed.

End ShiftRight.

Section RoundShiftFacts.

Import Exact.

Variables m n : Z.
Hypothesis m_nonneg : 0 <= m.
Hypothesis n_nonneg : 0 <= n.

Lemma roundShift_cases :
  (roundShift m n = m / 2 ^ n /\ 2 * (m mod 2 ^ n) <= 2 ^ n)
  \/ (roundShift m n = m / 2 ^ n + 1 /\ 2 ^ n <= 2 * (m mod 2 ^ n) /\ 0 < n).
Proof.
  destruct (Z.eq_dec n 0) as [-> | Hn].
  - left. change (2 ^ 0) with 1. rewrite Z.div_1_r, Z.mod_1_r. split; [reflexivity | lia].
  - destruct (roundShift_spec m n m_nonneg ltac:(lia)) as (Hlt & Hgt & Heq).
    destruct (Z.lt_total (2 * (m mod 2 ^ n)) (2 ^ n)) as [H | [H | H]].
    + left. split; [apply Hlt; exact H | lia].
    + destruct (Heq H) as [[E | E] _]; [left | right]; (split; [exact E | lia]).
    + right. split; [apply Hgt; exact H | lia].
Qed.

Lemma roundShift_decomp :
  0 < 2 ^ n /\ m = m / 2 ^ n * 2 ^ n + m mod 2 ^ n /\ 0 <= m mod 2 ^ n < 2 ^ n.
Proof.
  assert (0 < 2 ^ n) as Hp by (apply Z.pow_pos_nonneg; lia).
  split; [exact Hp|]. split.
  - rewrite Z.mul_comm. apply Z.div_mod. lia.
  - apply Z.mod_pos_bound. exact Hp.
Qed.

Lemma roundShift_nonneg : 0 <= roundShift m n.
Proof.
  pose proof roundShift_decomp as (Hp & _ & _).
  assert (0 <= m / 2 ^ n) by (apply Z.div_pos; lia).
  destruct roundShift_cases as [[-> _] | [-> _]]; lia.
Qed.

(** No multiple of [2 ^ n] is nearer to [m]. *)
Lemma roundShift_nearest (W : Z) :
  Z.abs (roundShift m n * 2 ^ n - m) <= Z.abs (W * 2 ^ n - m).
Proof.
  pose proof roundShift_decomp as (Hp & Hm & Hr).
  set (q := m / 2 ^ n) in *. set (r := m mod 2 ^ n) in *.
  destruct roundShift_cases as [[-> H] | [-> [H _]]];
    destruct (Z.le_gt_cases W q) as [HW | HW]; nia.
Qed.

Lemma roundShift_below :
  Z.abs (roundShift m n * 2 ^ n - m) <= m mod 2 ^ n.
Proof.
  pose proof roundShift_decomp as (Hp & Hm & Hr).
  set (q := m / 2 ^ n) in *. set (r := m mod 2 ^ n) in *.
  destruct roundShift_cases as [[-> H] | [-> [H _]]]; nia.
Qed.

Lemma roundShift_half :
  2 * Z.abs (roundShift m n * 2 ^ n - m) <= 2 ^ n
  /\ (n = 0 -> roundShift m n = m).
Proof.
  pose proof roundShift_decomp as (Hp & Hm & Hr).
  split; [|intros ->; reflexivity].
  set (q := m / 2 ^ n) in *. set (r := m mod 2 ^ n) in *.
  destruct roundShift_cases as [[-> H] | [-> [H _]]]; nia.
Qed.

End RoundShiftFacts.

Section Digits.

Import Exact.

Lemma digits2_unique (p : positive) (k : Z) :
  2 ^ (k - 1) <= Zpos p < 2 ^ k -> Zpos (digits2_pos p) = k.
Proof.
  intros [Hlo Hhi]. pose proof (digits2_pos_bounds p) as [Dlo Dhi].
  set (d := Zpos (digits2_pos p)) in *.
  assert (0 < d) by (unfold d; lia).
  assert (0 < k).
  { destruct (Z.le_gt_cases k 0) as [Hk|Hk]; [|lia].
    assert (2 ^ k <= 2 ^ 0) by (apply Z.pow_le_mono_r; lia). simpl in *. lia. }
  destruct (Z.lt_total d k) as [Hlt | [Heq | Hgt]]; [|exact Heq|].
  - assert (2 ^ d <= 2 ^ (k - 1)) by (apply Z.pow_le_mono_r; lia). lia.
  - assert (2 ^ k <= 2 ^ (d - 1)) by (apply Z.pow_le_mono_r; lia). lia.
Qed.

Lemma digits2_mul (p q : positive) :
  Zpos (digits2_pos p) + Zpos (digits2_pos q) - 1 <= Zpos (digits2_pos (p * q)).
Proof.
  pose proof (digits2_pos_bounds p) as [Plo Phi].
  pose proof (digits2_pos_bounds q) as [Qlo Qhi].
  pose proof (digits2_pos_bounds (p * q)) as [Rlo Rhi].
  set (dp := Zpos (digits2_pos p)) in *. set (dq := Zpos (digits2_pos q)) in *.
  set (dr := Zpos (digits2_pos (p * q))) in *.
  assert (0 < dp /\ 0 < dq /\ 0 < dr) as (? & ? & ?) by (unfold dp, dq, dr; lia).
  destruct (Z.le_gt_cases (dp + dq - 1) dr) as [H2 | H2]; [exact H2|].
  assert (2 ^ dr <= 2 ^ (dp - 1 + (dq - 1))) as Hle by (apply Z.pow_le_mono_r; lia).
  rewrite Z.pow_add_r in Hle by lia.
  assert (0 < 2 ^ (dp - 1)) by (apply Z.pow_pos_nonneg; lia).
  assert (0 < 2 ^ (dq - 1)) by (apply Z.pow_pos_nonneg; lia).
  rewrite Pos2Z.inj_mul in Rhi. nia.
Qed.

End Digits.

Section RoundAux.

Import Exact.

Variables prec emax : Z.
Hypothesis prec_pos : 0 < prec.
Hypothesis prec_lt_emax : prec < emax.

Local Abbreviation emin := (SpecFloat.emin prec emax).
Local Abbreviation fexp := (SpecFloat.fexp prec emax).

Lemma binary_round_aux_finish (s : bool) (m : positive) (e : Z) :
  let e1 := fexp (Zpos (digits2_pos m) + e) in
  e <= e1 ->
  binary_round_aux prec emax s (Zpos m) e loc_Exact
  = finish prec emax s (roundShift (Zpos m) (e1 - e)) e1.
Proof.
  intros e1 He. unfold binary_round_aux, finish, shr_fexp at 1.
  cbn [Zdigits2 shr_record_of_loc]. fold e1.
  unfold roundShift, shr.
  destruct (e1 - e) as [|p|p] eqn:Hn; try lia.
  - cbn [shr_m loc_of_shr_record round_nearest_even].
    replace e with e1 by lia. reflexivity.
  - replace (e + Zpos p) with e1 by lia. reflexivity.
Qed.

Lemma finish_zero (s : bool) (e1 : Z) :
  emin <= e1 -> finish prec emax s 0 e1 = S754_zero s.
Proof.
  intros He. unfold finish, shr_fexp. cbn [Zdigits2 shr_record_of_loc].
  unfold SpecFloat.fexp, shr.
  destruct (Z.max (0 + e1 - prec) emin - e1) as [|p|p] eqn:Hn; try reflexivity. lia.
Qed.

Lemma finish_canonical (s : bool) (p : positive) (e1 : Z) :
  fexp (Zpos (digits2_pos p) + e1) = e1 ->
  finish prec emax s (Zpos p) e1
  = if e1 <=? emax - prec then S754_finite s p e1 else S754_infinity s.
Proof.
  intros Hc. unfold finish, shr_fexp. cbn [Zdigits2 shr_record_of_loc].
  rewrite Hc, Z.sub_diag. reflexivity.
Qed.

Lemma digits2_pow2 (k : Z) (p : positive) :
  0 <= k -> Zpos p = 2 ^ k -> Zpos (digits2_pos p) = k + 1.
Proof.
  intros Hk Hp. apply digits2_unique. replace (k + 1 - 1) with k by lia.
  rewrite Hp. split; [lia|]. apply Z.pow_lt_mono_r; lia.
Qed.

Lemma finish_carry (s : bool) (p : positive) (e1 : Z) :
  emin <= e1 -> Zpos p = 2 ^ prec ->
  exists p', Zpos p' = 2 ^ (prec - 1)
    /\ finish prec emax s (Zpos p) e1
       = if e1 + 1 <=? emax - prec then S754_finite s p' (e1 + 1)
         else S754_infinity s.
Proof.
  intros He Hp. unfold finish, shr_fexp. cbn [Zdigits2 shr_record_of_loc].
  rewrite (digits2_pow2 prec p) by (lia || exact Hp).
  unfold SpecFloat.fexp. replace (Z.max (prec + 1 + e1 - prec) emin - e1) with 1 by lia.
  cbn [shr SpecFloat.iter_pos]. rewrite shr_1_nonneg by lia. cbn [shr_m].
  assert (Zpos p / 2 = 2 ^ (prec - 1)) as Hq.
  { rewrite Hp. replace prec with (prec - 1 + 1) at 1 by lia.
    rewrite Z.pow_add_r, Z.pow_1_r by lia. apply Z.div_mul. lia. }
  assert (0 < 2 ^ (prec - 1)) by (apply Z.pow_pos_nonneg; lia).
  destruct (Zpos p / 2) as [|p'|p'] eqn:E; try lia.
  exists p'. split; [exact Hq | reflexivity].
Qed.

Lemma emin_le_top : emin <= emax - prec.
Proof. unfold SpecFloat.emin. lia. Qed.

(** What [binary_round_aux] returns for an exact positive input whose
    exponent is not above the target exponent: the rounded mantissa
    [mf * 2 ^ (ef - e1)] at the target exponent, renormalised. *)
Lemma round_aux_result (s : bool) (m : positive) (e : Z) :
  let e1 := fexp (Zpos (digits2_pos m) + e) in
  e <= e1 ->
  exists mf ef : Z,
    0 <= mf < 2 ^ prec /\ e1 <= ef
    /\ mf * 2 ^ (ef - e1) = roundShift (Zpos m) (e1 - e)
    /\ (emin < ef -> 2 ^ (prec - 1) <= mf)
    /\ (0 < mf -> canonical_mantissa prec emax (Z.to_pos mf) ef = true)
    /\ binary_round_aux prec emax s (Zpos m) e loc_Exact
       = if mf =? 0 then S754_zero s
         else if ef <=? emax - prec then S754_finite s (Z.to_pos mf) ef
              else S754_infinity s.
Proof.
  intros e1 He. rewrite binary_round_aux_finish by exact He. fold e1.
  pose proof (digits2_pos_bounds m) as [Dlo Dhi].
  set (d := Zpos (digits2_pos m)) in *.
  assert (0 < d) as Hd by (unfold d; lia).
  set (n := e1 - e). assert (0 <= n) as Hn by (unfold n; lia).
  pose proof (roundShift_decomp (Zpos m) n Hn) as (Hp & Hm & Hr).
  pose proof (roundShift_cases (Zpos m) n ltac:(lia) Hn) as Hc.
  set (m' := roundShift (Zpos m) n) in *.
  set (q := Zpos m / 2 ^ n) in *. set (r := Zpos m mod 2 ^ n) in *.
  assert (0 < 2 ^ (prec - 1)) as Hhalf by (apply Z.pow_pos_nonneg; lia).
  assert (2 ^ prec = 2 * 2 ^ (prec - 1)) as Hprec
    by (rewrite <- Z.pow_succ_r by lia; f_equal; lia).
  destruct (Z.le_gt_cases emin (d + e - prec)) as [Hnorm | Hsub].
  - (* normal *)
    assert (e1 = d + e - prec) as He1 by (unfold e1, SpecFloat.fexp; lia).
    assert (n = d - prec) as Hnd by (unfold n; lia).
    assert (2 ^ (d - 1) = 2 ^ n * 2 ^ (prec - 1)) as Hsplit
      by (rewrite <- Z.pow_add_r by lia; f_equal; lia).
    assert (2 ^ d = 2 ^ n * 2 ^ prec) as Hsplit'
      by (rewrite <- Z.pow_add_r by lia; f_equal; lia).
    assert (2 ^ (prec - 1) <= q < 2 ^ prec) as Hq.
    { split; [apply Z.div_le_lower_bound; lia | apply Z.div_lt_upper_bound; lia]. }
    assert (2 ^ (prec - 1) <= m' <= 2 ^ prec) as Hm'
      by (destruct Hc as [[-> _] | [-> _]]; lia).
    destruct (Z.eq_dec m' (2 ^ prec)) as [Hcarry | Hnc].
    + destruct m' as [|p|p] eqn:Em'; try lia.
      destruct (finish_carry s p e1 ltac:(lia) Hcarry) as (p' & Hp' & ->).
      exists (Zpos p'), (e1 + 1).
      replace (e1 + 1 - e1) with 1 by lia. rewrite Z.pow_1_r.
      split; [lia|]. split; [lia|]. split; [lia|]. split; [lia|].
      split; [|reflexivity].
      intros _. unfold canonical_mantissa. cbn [Z.to_pos].
      rewrite (digits2_unique p' prec) by lia.
      apply Z.eqb_eq. unfold SpecFloat.fexp. lia.
    + destruct m' as [|p|p] eqn:Em'; try lia.
      assert (Zpos (digits2_pos p) = prec) as Hdp by (apply digits2_unique; lia).
      rewrite finish_canonical by (rewrite Hdp; unfold SpecFloat.fexp; lia).
      exists (Zpos p), e1. rewrite Z.sub_diag, Z.mul_1_r.
      split; [lia|]. split; [lia|]. split; [reflexivity|]. split; [lia|].
      split; [|reflexivity].
      intros _. unfold canonical_mantissa. cbn [Z.to_pos]. rewrite Hdp.
      apply Z.eqb_eq. unfold SpecFloat.fexp. lia.
  - (* subnormal *)
    assert (e1 = emin) as He1 by (unfold e1, SpecFloat.fexp; lia).
    assert (q + 1 <= 2 ^ (prec - 1)) as Hq.
    { destruct (Z.le_gt_cases d n) as [Hdn | Hdn].
      - assert (2 ^ d <= 2 ^ n) by (apply Z.pow_le_mono_r; lia).
        assert (q = 0) by (apply Z.div_small; lia). lia.
      - assert (2 ^ d = 2 ^ n * 2 ^ (d - n)) as Hsplit
          by (rewrite <- Z.pow_add_r by lia; f_equal; lia).
        assert (q < 2 ^ (d - n)) by (apply Z.div_lt_upper_bound; lia).
        assert (2 ^ (d - n) <= 2 ^ (prec - 1)) by (apply Z.pow_le_mono_r; unfold n; lia).
        lia. }
    assert (0 <= q) by (apply Z.div_pos; lia).
    assert (0 <= m' <= 2 ^ (prec - 1)) as Hm'
      by (destruct Hc as [[-> _] | [-> _]]; lia).
    destruct m' as [|p|p] eqn:Em'; try lia.
    + rewrite finish_zero by lia. exists 0, e1. rewrite Z.sub_diag.
      split; [lia|]. split; [lia|]. split; [reflexivity|]. split; [lia|].
      split; [lia | reflexivity].
    + pose proof (digits2_pos_bounds p) as [Plo Phi].
      assert (Zpos (digits2_pos p) <= prec) as Hdp.
      { destruct (Z.le_gt_cases (Zpos (digits2_pos p)) prec) as [H0|H0]; [exact H0|].
        assert (2 ^ prec <= 2 ^ (Zpos (digits2_pos p) - 1))
          by (apply Z.pow_le_mono_r; lia). lia. }
      rewrite finish_canonical by (unfold SpecFloat.fexp; lia).
      exists (Zpos p), e1. rewrite Z.sub_diag, Z.mul_1_r.
      split; [lia|]. split; [lia|]. split; [reflexivity|]. split; [lia|].
      split; [|reflexivity].
      intros _. unfold canonical_mantissa. cbn [Z.to_pos].
      apply Z.eqb_eq. unfold SpecFloat.fexp. lia.
Qed.

End RoundAux.

(* ===================================================================== *)
(** ** Rounding to nearest, on rationals *)
(* ===================================================================== *)

Section PowerFacts.

Import Exact.

Local Open Scope Q_scope.

Lemma pow2_pos (e : Z) : 0 < 2 ^ e.
Proof. apply Qpower_0_lt. reflexivity. Qed.

Lemma pow2_add (a b : Z) : 2 ^ (a + b) == 2 ^ a * 2 ^ b.
Proof. apply Qpower_plus. discriminate. Qed.

Lemma pow2_Z (k : Z) : (0 <= k)%Z -> inject_Z (2 ^ k) == 2 ^ k.
Proof. intros Hk. rewrite Zpower_Qpower by exact Hk. reflexivity. Qed.

Lemma pow2_le (a b : Z) : (a <= b)%Z -> 2 ^ a <= 2 ^ b.
Proof.
  intros H. replace b with (a + (b - a))%Z by lia. rewrite pow2_add.
  rewrite <- (Qmult_1_r (2 ^ a)) at 1.
  apply Qmult_le_l; [apply pow2_pos|].
  apply Qpower_1_le; [discriminate | lia].
Qed.

Lemma Qv_scale (M E c : Z) : (c <= E)%Z -> Qv M E == Qv (M * 2 ^ (E - c)) c.
Proof.
  intros H. unfold Qv. rewrite inject_Z_mult, pow2_Z by lia.
  rewrite <- Qmult_assoc, <- pow2_add. replace (E - c + c)%Z with E by lia. reflexivity.
Qed.

Lemma Qv_le (a b c : Z) : (a <= b)%Z <-> Qv a c <= Qv b c.
Proof.
  unfold Qv. rewrite Qmult_le_r by apply pow2_pos. rewrite <- Zle_Qle. reflexivity.
Qed.

Lemma Qv_lt (a b c : Z) : (a < b)%Z <-> Qv a c < Qv b c.
Proof.
  unfold Qv. rewrite Qmult_lt_r by apply pow2_pos. rewrite <- Zlt_Qlt. reflexivity.
Qed.

Lemma Qv_minus (a b c : Z) : Qv a c - Qv b c == Qv (a - b) c.
Proof. unfold Qv, Z.sub. rewrite inject_Z_plus, inject_Z_opp. ring. Qed.

Lemma Qv_plus (a b c : Z) : Qv a c + Qv b c == Qv (a + b) c.
Proof. unfold Qv. rewrite inject_Z_plus. ring. Qed.

Lemma Qv_opp (a c : Z) : - Qv a c == Qv (- a) c.
Proof. unfold Qv. rewrite inject_Z_opp. ring. Qed.

Lemma Qabs_Qv (a c : Z) : Qabs (Qv a c) == Qv (Z.abs a) c.
Proof.
  unfold Qv. rewrite Qabs_Qmult. rewrite (Qabs_pos (2 ^ c)) by (apply Qlt_le_weak, pow2_pos).
  reflexivity.
Qed.

Lemma Qv_nonneg (a c : Z) : (0 <= a)%Z -> 0 <= Qv a c.
Proof.
  intros H. unfold Qv. apply Qmult_le_0_compat; [|apply Qlt_le_weak, pow2_pos].
  change 0 with (inject_Z 0). rewrite <- Zle_Qle. exact H.
Qed.

Lemma Qv_1 (e : Z) : Qv 1 e == 2 ^ e.
Proof. unfold Qv. ring. Qed.

Lemma Qv_pow (k e : Z) : (0 <= k)%Z -> Qv (2 ^ k) e == 2 ^ (k + e).
Proof. intros Hk. unfold Qv. rewrite pow2_Z, pow2_add by exact Hk. reflexivity. Qed.

End PowerFacts.

Section NearestZ.

Import Exact.

Variables prec emax : Z.
Hypothesis prec_pos : 0 < prec.
Hypothesis prec_lt_emax : prec < emax.

Local Abbreviation emin := (SpecFloat.emin prec emax).
Local Abbreviation fexp := (SpecFloat.fexp prec emax).

Variable m : positive.
Variable e : Z.

Local Abbreviation e1 := (fexp (Zpos (digits2_pos m) + e)).

Hypothesis e_le : e <= e1.

(** At a common scale [2 ^ c], no mantissa [M] of [prec] bits at an
    exponent [E >= emin] is nearer to [m * 2 ^ e] than the rounded
    mantissa at the target exponent. *)
Lemma nearest_scaled (M E c : Z) :
  Z.abs M < 2 ^ prec -> emin <= E -> c <= e -> c <= E ->
  Z.abs (roundShift (Zpos m) (e1 - e) * 2 ^ (e1 - c) - Zpos m * 2 ^ (e - c))
  <= Z.abs (M * 2 ^ (E - c) - Zpos m * 2 ^ (e - c)).
Proof.
  intros HM HE Hce HcE.
  pose proof (digits2_pos_bounds m) as [Dlo Dhi].
  set (d := Zpos (digits2_pos m)) in *.
  set (n := fexp (d + e) - e). assert (0 <= n) as Hn by (unfold n; lia).
  set (a := 2 ^ (e - c)). assert (0 < a) as Ha by (apply Z.pow_pos_nonneg; lia).
  assert (2 ^ (fexp (d + e) - c) = 2 ^ n * a) as ->
    by (unfold a, n; rewrite <- Z.pow_add_r by lia; f_equal; lia).
  pose proof (roundShift_decomp (Zpos m) n Hn) as (Hp & Hm & Hr).
  set (m' := roundShift (Zpos m) n).
  replace (m' * (2 ^ n * a) - Zpos m * a) with ((m' * 2 ^ n - Zpos m) * a) by ring.
  rewrite Z.abs_mul, (Z.abs_eq a) by lia.
  destruct (Z.le_gt_cases (fexp (d + e)) E) as [Hge | Hlt].
  - assert (2 ^ (E - c) = 2 ^ (E - fexp (d + e)) * 2 ^ n * a) as ->.
    { unfold a, n. rewrite <- !Z.pow_add_r by lia. f_equal. lia. }
    replace (M * (2 ^ (E - fexp (d + e)) * 2 ^ n * a) - Zpos m * a)
      with ((M * 2 ^ (E - fexp (d + e)) * 2 ^ n - Zpos m) * a) by ring.
    rewrite Z.abs_mul, (Z.abs_eq a) by lia.
    apply Z.mul_le_mono_nonneg_r; [lia|].
    apply roundShift_nearest; lia.
  - assert (fexp (d + e) = d + e - prec) as He1 by (unfold SpecFloat.fexp in *; lia).
    pose proof (roundShift_below (Zpos m) n ltac:(lia) Hn) as Hbelow. fold m' in Hbelow.
    set (b := 2 ^ (E - c)). assert (0 < b) as Hb by (apply Z.pow_pos_nonneg; lia).
    assert (2 ^ prec * b <= 2 ^ (d - 1) * a) as Hpow.
    { unfold a, b. rewrite <- !Z.pow_add_r by lia. apply Z.pow_le_mono_r; lia. }
    assert (2 ^ (d - 1) = 2 ^ n * 2 ^ (prec - 1)) as Hsplit
      by (unfold n; rewrite <- Z.pow_add_r by lia; f_equal; lia).
    assert (0 < 2 ^ (prec - 1)) by (apply Z.pow_pos_nonneg; lia).
    assert (2 ^ (prec - 1) <= Zpos m / 2 ^ n) as Hq
      by (apply Z.div_le_lower_bound; lia).
    set (q := Zpos m / 2 ^ n) in *. set (r := Zpos m mod 2 ^ n) in *.
    assert (M * b <= q * 2 ^ n * a) as HMb.
    { assert (M * b <= 2 ^ prec * b) by (apply Z.mul_le_mono_nonneg_r; lia).
      assert (2 ^ (d - 1) * a <= q * 2 ^ n * a) by (apply Z.mul_le_mono_nonneg_r; nia).
      lia. }
    assert (Z.abs (m' * 2 ^ n - Zpos m) * a <= r * a)
      by (apply Z.mul_le_mono_nonneg_r; lia).
    assert (r * a = Zpos m * a - q * 2 ^ n * a) by (rewrite Hm at 1; ring).
    lia.
Qed.

End NearestZ.

Section RoundAuxQ.

Import Exact.

Variables prec emax : Z.
Hypothesis prec_pos : 0 < prec.
Hypothesis prec_lt_emax : prec < emax.

Local Abbreviation emin := (SpecFloat.emin prec emax).
Local Abbreviation fexp := (SpecFloat.fexp prec emax).

Local Open Scope Q_scope.

Lemma Qabs_Qv_diff (A B c : Z) : Qabs (Qv A c - Qv B c) == Qv (Z.abs (A - B)) c.
Proof. rewrite Qv_minus. apply Qabs_Qv. Qed.

(** [binary_round_aux] on an exact positive input rounds to nearest:
    the magnitude [y] it returns is as near to the input as any
    representable value, within half a unit in the last place, and the
    result is infinite exactly when [y] reaches [2 ^ emax]. *)
Lemma round_aux_Q (s : bool) (m : positive) (e : Z) :
  (e <= fexp (Zpos (digits2_pos m) + e))%Z ->
  exists y : Q,
    0 <= y
    /\ (forall w, representable prec emax w ->
          Qabs (y - Qv (Zpos m) e) <= Qabs (w - Qv (Zpos m) e))
    /\ Qabs (y - Qv (Zpos m) e) * 2 <= Qv (Zpos m) e * 2 ^ (1 - prec) + 2 ^ emin
    /\ ((y < 2 ^ emax
         /\ valid_binary prec emax (binary_round_aux prec emax s (Zpos m) e loc_Exact)
            = true
         /\ holds (binary_round_aux prec emax s (Zpos m) e loc_Exact) s y)
        \/ (2 ^ emax <= y
            /\ binary_round_aux prec emax s (Zpos m) e loc_Exact = S754_infinity s)).
Proof.
  intros He.
  destruct (round_aux_result prec emax prec_pos s m e He)
    as (mf & ef & Hmf & Hef & Hval & Hnormal & Hcanon & Hres).
  pose proof (digits2_pos_bounds m) as [Dlo Dhi].
  set (d := Zpos (digits2_pos m)) in *.
  assert (0 < d)%Z as Hd by (unfold d; lia).
  set (e1 := fexp (d + e)) in *.
  set (n := (e1 - e)%Z) in *. assert (0 <= n)%Z as Hn by (unfold n; lia).
  set (m' := roundShift (Zpos m) n) in *.
  pose proof (roundShift_nonneg (Zpos m) n ltac:(lia) Hn) as Hm'0. fold m' in Hm'0.
  assert (emin <= e1)%Z as Hemin by (unfold e1, SpecFloat.fexp; lia).
  exists (Qv m' e1).
  assert (Qv m' e1 == Qv mf ef) as Hy.
  { rewrite (Qv_scale mf ef e1) by lia. rewrite Hval. reflexivity. }
  split; [|split; [|split]].
  - apply Qv_nonneg. exact Hm'0.
  - intros w (M & E & HM & HE & Hw).
    set (c := Z.min e E).
    rewrite Hw, (Qv_scale m' e1 c), (Qv_scale (Zpos m) e c), (Qv_scale M E c)
      by (unfold c; lia).
    rewrite !Qabs_Qv_diff. apply Qv_le.
    apply (nearest_scaled prec emax prec_pos m e He M E c); unfold c, SpecFloat.emin; lia.
  - rewrite (Qv_scale m' e1 e) by lia. fold n.
    rewrite Qabs_Qv_diff.
    pose proof (roundShift_half (Zpos m) n ltac:(lia) Hn) as [Hhalf H0]. fold m' in Hhalf, H0.
    assert (0 <= Qv (Zpos m) e * 2 ^ (1 - prec) + 2 ^ emin) as Hrhs.
    { apply Qlt_le_weak.
      apply (Qlt_le_trans _ (0 + 2 ^ emin)); [rewrite Qplus_0_l; apply pow2_pos|].
      apply Qplus_le_l. apply Qmult_le_0_compat; [|apply Qlt_le_weak, pow2_pos].
      apply Qv_nonneg. lia. }
    destruct (Z.eq_dec n 0%Z) as [Hn0 | Hn0].
    + rewrite Hn0 in *. rewrite (H0 eq_refl). change (2 ^ 0)%Z with 1%Z.
      rewrite Z.mul_1_r, Z.sub_diag. change (Z.abs 0) with 0%Z.
      unfold Qv at 1. rewrite !Qmult_0_l. exact Hrhs.
    + assert (Qv (Z.abs (m' * 2 ^ n - Zpos m)) e * 2 <= 2 ^ e1) as Hle.
      { assert (Qv (Z.abs (m' * 2 ^ n - Zpos m)) e * 2
                == Qv (Z.abs (m' * 2 ^ n - Zpos m) * 2) e) as ->
          by (unfold Qv; rewrite inject_Z_mult; change (inject_Z 2) with 2; ring).
        assert (2 ^ e1 == Qv (2 ^ n) e) as ->
          by (rewrite Qv_pow by lia; replace (n + e)%Z with e1 by (unfold n; lia);
              reflexivity).
        apply Qv_le. lia. }
      eapply Qle_trans; [exact Hle|].
      destruct (Z.le_gt_cases emin (d + e - prec)) as [Hnorm | Hsub].
      * assert (e1 = d + e - prec)%Z as He1 by (unfold e1, SpecFloat.fexp; lia).
        apply (Qle_trans _ (Qv (Zpos m) e * 2 ^ (1 - prec) + 0));
          [|apply Qplus_le_r, Qlt_le_weak, pow2_pos].
        rewrite Qplus_0_r.
        replace e1 with ((d - 1) + e + (1 - prec))%Z by lia.
        rewrite pow2_add. apply Qmult_le_compat_r; [|apply Qlt_le_weak, pow2_pos].
        rewrite <- Qv_pow by lia. apply Qv_le. exact Dlo.
      * assert (e1 = emin) as -> by (unfold e1, SpecFloat.fexp; lia).
        rewrite <- (Qplus_0_l (2 ^ emin)) at 1. apply Qplus_le_l.
        apply Qmult_le_0_compat; [|apply Qlt_le_weak, pow2_pos].
        apply Qv_nonneg. lia.
  - rewrite Hres.
    destruct (mf =? 0)%Z eqn:Hz; [apply Z.eqb_eq in Hz | apply Z.eqb_neq in Hz].
    + left. subst mf.
      assert (Qv m' e1 == 0) as Hy0 by (rewrite Hy; unfold Qv; ring).
      split; [rewrite Hy0; apply pow2_pos|]. split; [reflexivity|].
      split; [reflexivity | exact Hy0].
    + assert (0 < mf)%Z as Hpos by lia.
      destruct mf as [|pf|pf]; try lia. cbn [Z.to_pos] in *.
      destruct (ef <=? emax - prec)%Z eqn:Hov;
        [apply Z.leb_le in Hov | apply Z.leb_gt in Hov].
      * left. split; [|split].
        -- rewrite Hy.
           apply (Qlt_le_trans _ (Qv (2 ^ prec) ef)); [apply Qv_lt; lia|].
           rewrite Qv_pow by lia. apply pow2_le. lia.
        -- cbn [valid_binary]. unfold bounded. rewrite (Hcanon Hpos).
           apply Z.leb_le. exact Hov.
        -- split; [reflexivity | exact Hy].
      * right. split; [|reflexivity]. rewrite Hy.
        pose proof (emin_le_top prec emax prec_pos prec_lt_emax) as Htop.
        apply (Qle_trans _ (Qv (2 ^ (prec - 1)) ef)); [|apply Qv_le; apply Hnormal; lia].
        rewrite Qv_pow by lia. apply pow2_le. lia.
Qed.

End RoundAuxQ.

Section RoundQ.

Import Exact.

Variables prec emax : Z.
Hypothesis prec_pos : 0 < prec.
Hypothesis prec_lt_emax : prec < emax.

Local Abbreviation emin := (SpecFloat.emin prec emax).
Local Abbreviation fexp := (SpecFloat.fexp prec emax).

Lemma Zpos_iter_xO (m k : positive) : Zpos (Pos.iter xO m k) = Zpos m * 2 ^ Zpos k.
Proof.
  induction k as [|k IH] using Pos.peano_ind.
  - simpl. lia.
  - rewrite Pos.iter_succ, Pos2Z.inj_xO, IH, Pos2Z.inj_succ, Z.pow_succ_r by lia. ring.
Qed.

(** [binary_round] first aligns the mantissa so that nothing is lost
    before the rounding proper. *)
Lemma binary_round_aligned (s : bool) (m : positive) (e : Z) :
  exists (mz : positive) (ez : Z),
    binary_round prec emax s m e = binary_round_aux prec emax s (Zpos mz) ez loc_Exact
    /\ ez <= e /\ Zpos mz = Zpos m * 2 ^ (e - ez)
    /\ ez <= fexp (Zpos (digits2_pos mz) + ez).
Proof.
  unfold binary_round, shl_align.
  set (e1 := fexp (Zpos (digits2_pos m) + e)).
  destruct (e1 - e) as [|k|k] eqn:Hk.
  - exists m, e. rewrite Z.sub_diag, Z.mul_1_r. fold e1. repeat split; lia.
  - exists m, e. rewrite Z.sub_diag, Z.mul_1_r. fold e1. repeat split; lia.
  - exists (Pos.iter xO m k), e1. split; [reflexivity|]. split; [lia|].
    split; [rewrite Zpos_iter_xO; f_equal; f_equal; lia|].
    rewrite digits2_pos_iter_xO, Pos2Z.inj_add.
    replace (Zpos (digits2_pos m) + Zpos k + e1) with (Zpos (digits2_pos m) + e) by lia.
    fold e1. lia.
Qed.

Local Open Scope Q_scope.

(** The largest finite number, the first number that rounds to
    infinity, and their distance. *)
Lemma top_values :
  Qv (2 ^ prec - 1) (emax - prec) == 2 ^ emax - 2 ^ (emax - prec)
  /\ Qv (2 ^ (prec + 1) - 1) (emax - prec - 1)
     == 2 ^ emax - 2 ^ (emax - prec) * (1 # 2)
  /\ representable prec emax (Qv (2 ^ prec - 1) (emax - prec)).
Proof.
  assert (0 < 2 ^ prec)%Z by (apply Z.pow_pos_nonneg; lia).
  split; [|split].
  - rewrite <- Qv_minus, Qv_pow, Qv_1 by lia.
    replace (prec + (emax - prec))%Z with emax by lia. reflexivity.
  - rewrite <- Qv_minus, Qv_pow, Qv_1 by lia.
    replace (prec + 1 + (emax - prec - 1))%Z with emax by lia.
    replace (emax - prec)%Z with (emax - prec - 1 + 1)%Z at 2 by lia.
    rewrite pow2_add. change (2 ^ 1) with 2. ring.
  - exists (2 ^ prec - 1)%Z, (emax - prec)%Z.
    split; [lia|]. split; [lia | reflexivity].
Qed.

Lemma rounded_below_top (q : Q) (s : bool) (r : spec_float) (y : Q) :
  rounded prec emax q s r y ->
  q < 2 ^ emax - 2 ^ (emax - prec) * (1 # 2) ->
  y < 2 ^ emax /\ valid_binary prec emax r = true /\ holds r s y.
Proof.
  intros (Hy0 & Hnear & _ & [Hfin | [Hinf _]]) Hq; [exact Hfin|].
  exfalso. destruct top_values as (HG & _ & HGr).
  specialize (Hnear _ HGr). rewrite HG in Hnear.
  pose proof (pow2_pos (emax - prec)) as Hu.
  set (u := 2 ^ (emax - prec)) in *. set (T := 2 ^ emax) in *.
  rewrite (Qabs_pos (y - q)) in Hnear by lra.
  destruct (Qlt_le_dec q (T - u)) as [Hlt | Hge].
  - rewrite Qabs_pos in Hnear by lra. lra.
  - rewrite Qabs_neg in Hnear by lra. lra.
Qed.

Lemma binary_round_Q (s : bool) (m : positive) (e : Z) :
  exists y, rounded prec emax (Qv (Zpos m) e) s (binary_round prec emax s m e) y.
Proof.
  destruct (binary_round_aligned s m e) as (mz & ez & -> & Hez & Hmz & Hal).
  destruct (round_aux_Q prec emax prec_pos prec_lt_emax s mz ez Hal) as (y & H0 & Hn & Hb & Hr).
  assert (Qv (Zpos mz) ez == Qv (Zpos m) e) as Hq
    by (rewrite Hmz; symmetry; apply Qv_scale; lia).
  exists y. split; [exact H0|]. split; [|split].
  - intros w Hw. rewrite <- Hq. apply Hn, Hw.
  - rewrite <- Hq. exact Hb.
  - exact Hr.
Qed.

End RoundQ.

Section Overflow.

Import Exact.

Variables prec emax : Z.
Hypothesis prec_pos : 0 < prec.
Hypothesis prec_lt_emax : prec < emax.

Local Abbreviation emin := (SpecFloat.emin prec emax).
Local Abbreviation fexp := (SpecFloat.fexp prec emax).

(** Halfway between the largest finite number and [2 ^ emax], and
    above, the rounded mantissa carries into [2 ^ prec]. *)
Lemma roundShift_carry (m : positive) (n : Z) :
  0 < n -> Zpos m < 2 ^ (prec + n) ->
  (2 ^ (prec + 1) - 1) * 2 ^ (n - 1) <= Zpos m ->
  roundShift (Zpos m) n = 2 ^ prec.
Proof.
  intros Hn Hhi Hlo.
  assert (0 < 2 ^ (n - 1)) as Hh by (apply Z.pow_pos_nonneg; lia).
  assert (2 ^ n = 2 * 2 ^ (n - 1)) as E2
    by (rewrite <- Z.pow_succ_r by lia; f_equal; lia).
  assert (0 < 2 ^ (prec - 1)) as Hp1 by (apply Z.pow_pos_nonneg; lia).
  assert (2 ^ prec = 2 * 2 ^ (prec - 1)) as Ep
    by (rewrite <- Z.pow_succ_r by lia; f_equal; lia).
  assert (2 ^ (prec + 1) = 2 * 2 ^ prec) as Ep1
    by (rewrite Z.pow_add_r, Z.pow_1_r by lia; ring).
  rewrite Z.pow_add_r in Hhi by lia.
  pose proof (roundShift_decomp (Zpos m) n ltac:(lia)) as (Hpn & Hm & Hr).
  destruct (roundShift_spec (Zpos m) n ltac:(lia) Hn) as (Hlt & Hgt & Heq).
  cbv zeta in *.
  set (q := Zpos m / 2 ^ n) in *. set (r := Zpos m mod 2 ^ n) in *.
  assert (q = 2 ^ prec - 1) as Hq by nia.
  destruct (Z.lt_total (2 * r) (2 ^ n)) as [H | [H | H]].
  - nia.
  - destruct (Heq H) as [[E | E] Hev]; [|lia].
    rewrite E, Hq, Ep in Hev.
    replace (2 * 2 ^ (prec - 1) - 1) with (1 + 2 * (2 ^ (prec - 1) - 1)) in Hev by ring.
    rewrite Z.even_add_mul_2 in Hev. discriminate Hev.
  - rewrite (Hgt H). lia.
Qed.

Local Open Scope Q_scope.

Lemma round_aux_overflow (s : bool) (m : positive) (e : Z) :
  (e <= fexp (Zpos (digits2_pos m) + e))%Z ->
  2 ^ emax - 2 ^ (emax - prec) * (1 # 2) <= Qv (Zpos m) e ->
  binary_round_aux prec emax s (Zpos m) e loc_Exact = S754_infinity s.
Proof.
  intros He Hq.
  destruct (top_values prec emax prec_pos prec_lt_emax) as (_ & HB & _).
  rewrite <- HB in Hq. clear HB.
  destruct (round_aux_result prec emax prec_pos s m e He)
    as (mf & ef & Hmf & Hef & Hval & Hnormal & _ & ->).
  pose proof (digits2_pos_bounds m) as [Dlo Dhi].
  set (d := Zpos (digits2_pos m)) in *.
  assert (0 < d)%Z as Hd by (unfold d; lia).
  set (top := (emax - prec)%Z) in *.
  set (c := Z.min e (top - 1)).
  rewrite (Qv_scale _ (top - 1) c), (Qv_scale (Zpos m) e c) in Hq by (unfold c; lia).
  apply Qv_le in Hq.
  assert (0 < 2 ^ prec)%Z as Hpp by (apply Z.pow_pos_nonneg; lia).
  assert (2 ^ (prec + 1) = 2 * 2 ^ prec)%Z as Ep1
    by (rewrite Z.pow_add_r, Z.pow_1_r by lia; ring).
  assert (emax <= d + e)%Z as Hmag.
  { destruct (Z.le_gt_cases emax (d + e)) as [H | H]; [exact H | exfalso].
    assert (0 < 2 ^ (e - c))%Z by (apply Z.pow_pos_nonneg; unfold c; lia).
    assert (0 < 2 ^ (top - 1 - c))%Z by (apply Z.pow_pos_nonneg; unfold c; lia).
    assert (2 ^ d * 2 ^ (e - c) <= 2 ^ prec * 2 ^ (top - 1 - c))%Z.
    { rewrite <- !Z.pow_add_r by (unfold c; lia).
      apply Z.pow_le_mono_r; unfold top, c in *; lia. }
    nia. }
  assert (emin < top)%Z as Htop by (unfold SpecFloat.emin, top; lia).
  assert (fexp (d + e) = d + e - prec)%Z as He1
    by (unfold SpecFloat.fexp, SpecFloat.emin, top in *; lia).
  rewrite He1 in *.
  assert (2 ^ (prec - 1) <= mf)%Z as Hfull by (apply Hnormal; unfold top in *; lia).
  assert (0 < 2 ^ (prec - 1))%Z by (apply Z.pow_pos_nonneg; lia).
  assert (top < ef)%Z as Hover.
  { destruct (Z.le_gt_cases ef top) as [Hle | Hgt]; [exfalso | exact Hgt].
    assert (d + e = emax)%Z as Hde by (unfold top in *; lia).
    assert (ef = d + e - prec)%Z as Hefe by (unfold top in *; lia).
    rewrite Hefe, Z.sub_diag in Hval. change (2 ^ 0)%Z with 1%Z in Hval.
    rewrite Z.mul_1_r in Hval.
    set (n := (d + e - prec - e)%Z) in *.
    destruct (Z.eq_dec n 0%Z) as [Hn0 | Hn0].
    - assert (d = prec) as Hdp by (unfold n in Hn0; lia).
      assert (c = top - 1)%Z as Hc by (unfold c, top in *; lia).
      rewrite Hc in Hq. replace (top - 1 - (top - 1))%Z with 0%Z in Hq by lia.
      replace (e - (top - 1))%Z with 1%Z in Hq by (unfold top in *; lia).
      change (2 ^ 0)%Z with 1%Z in Hq. change (2 ^ 1)%Z with 2%Z in Hq.
      rewrite Hdp in Dhi. lia.
    - assert (0 < n)%Z as Hn by (unfold n in *; lia).
      assert (c = e) as Hc by (unfold c, top, n in *; lia).
      rewrite Hc, Z.sub_diag in Hq. change (2 ^ 0)%Z with 1%Z in Hq.
      rewrite Z.mul_1_r in Hq.
      replace (top - 1 - e)%Z with (n - 1)%Z in Hq by (unfold n, top in *; lia).
      assert (Zpos m < 2 ^ (prec + n))%Z as Hhi
        by (replace (prec + n)%Z with d by (unfold n; lia); exact Dhi).
      rewrite (roundShift_carry m n Hn Hhi Hq) in Hval. lia. }
  replace (mf =? 0)%Z with false by (symmetry; apply Z.eqb_neq; lia).
  replace (ef <=? top)%Z with false by (symmetry; apply Z.leb_gt; exact Hover).
  reflexivity.
Qed.

Lemma binary_round_overflow (s : bool) (m : positive) (e : Z) :
  2 ^ emax - 2 ^ (emax - prec) * (1 # 2) <= Qv (Zpos m) e ->
  binary_round prec emax s m e = S754_infinity s.
Proof.
  intros Hq.
  destruct (binary_round_aligned prec emax s m e) as (mz & ez & -> & Hez & Hmz & Hal).
  apply round_aux_overflow; [exact Hal|].
  rewrite Hmz, <- Qv_scale by lia. exact Hq.
Qed.

End Overflow.

(* ===================================================================== *)
(** ** The arithmetic of doubles *)
(* ===================================================================== *)

Section Signed.

Import Exact.

Variables prec emax : Z.
Hypothesis prec_pos : 0 < prec.
Hypothesis prec_lt_emax : prec < emax.

Local Open Scope Q_scope.

Lemma representable_opp (w : Q) :
  representable prec emax w -> representable prec emax (- w).
Proof.
  intros (M & E & HM & HE & Hw). exists (- M)%Z, E.
  split; [lia|]. split; [exact HE|]. rewrite Hw. apply Qv_opp.
Qed.

Lemma representable_wd (w w' : Q) :
  w == w' -> representable prec emax w -> representable prec emax w'.
Proof.
  intros E (M & E' & HM & HE & Hw). exists M, E'.
  split; [exact HM|]. split; [exact HE|]. rewrite <- E. exact Hw.
Qed.

Lemma near_wd (q q' : Q) (r : spec_float) :
  q == q' -> near prec emax q r -> near prec emax q' r.
Proof.
  intros E (Hv & y & Hy & Hn & Hb). split; [exact Hv|]. exists y.
  split; [exact Hy|]. split.
  - intros w Hw. rewrite <- E. apply Hn, Hw.
  - rewrite <- E. exact Hb.
Qed.

Lemma near_exact (q : Q) (r : spec_float) :
  near prec emax q r -> representable prec emax q ->
  exists y, JS.to_Q r = Some y /\ y == q.
Proof.
  intros (_ & y & Hy & Hn & _) Hq. exists y. split; [exact Hy|].
  specialize (Hn q Hq).
  assert (q - q == 0) as E0 by ring. rewrite E0 in Hn. change (Qabs 0) with 0 in Hn.
  pose proof (Qabs_nonneg (y - q)) as H0.
  assert (Qabs (y - q) <= 0) as Ha by lra.
  apply Qabs_Qle_condition in Ha. lra.
Qed.

Lemma to_Q_Qv (s : bool) (m : positive) (e : Z) :
  JS.to_Q (S754_finite s m e) = Some (Qv (cond_Zopp s (Zpos m)) e).
Proof. reflexivity. Qed.

Lemma Qv_cond_Zopp (s : bool) (m e : Z) :
  Qv (cond_Zopp s m) e == (if s then - Qv m e else Qv m e).
Proof. destruct s; cbn [cond_Zopp]; [symmetry; apply Qv_opp | reflexivity]. Qed.

Lemma rounded_near (q : Q) (s : bool) (r : spec_float) (y : Q) :
  0 <= q -> rounded prec emax q s r y -> q < overflowAt prec emax ->
  near prec emax (if s then - q else q) r.
Proof.
  intros Hq0 Hr Hq.
  pose proof (rounded_below_top prec emax prec_pos prec_lt_emax _ _ _ _ Hr Hq)
    as (_ & Hv & Hh).
  destruct Hr as (Hy0 & Hn & Hb & _).
  assert (exists y', JS.to_Q r = Some y' /\ y' == (if s then - y else y))
    as (y' & Hval & Ey).
  { destruct r as [s'|s'| |s' mf ef];
      cbn [holds] in Hh; try contradiction; destruct Hh as [-> Hh].
    - exists 0. split; [reflexivity|]. destruct s; rewrite Hh; reflexivity.
    - eexists. split; [apply to_Q_Qv|]. rewrite Qv_cond_Zopp.
      destruct s; rewrite Hh; reflexivity. }
  split; [exact Hv|].
  exists y'. split; [exact Hval|].
  assert (forall w, Qabs (y' - (if s then - q else q)) == Qabs (y - q)
                    /\ Qabs (w - (if s then - q else q))
                       == Qabs ((if s then - w else w) - q)
                    /\ Qabs (if s then - q else q) == q) as Hflip.
  { intros w. destruct s; rewrite Ey.
    - split; [|split].
      + rewrite <- (Qabs_opp (y - _)). apply Qabs_wd. ring.
      + rewrite <- (Qabs_opp (- w - _)). apply Qabs_wd. ring.
      + rewrite Qabs_opp. apply Qabs_pos, Hq0.
    - split; [reflexivity|]. split; [reflexivity|]. apply Qabs_pos, Hq0. }
  split.
  - intros w Hw. destruct (Hflip w) as (-> & -> & _). apply Hn.
    destruct s; [apply representable_opp|]; exact Hw.
  - destruct (Hflip 0) as (-> & _ & ->). exact Hb.
Qed.

(** [binary_round] with sign [s], below the overflow threshold. *)
Lemma binary_round_near (s : bool) (m : positive) (e : Z) :
  Qv (Zpos m) e < overflowAt prec emax ->
  near prec emax (Qv (cond_Zopp s (Zpos m)) e) (binary_round prec emax s m e).
Proof.
  intros Hq. destruct (binary_round_Q prec emax prec_pos prec_lt_emax s m e) as [y Hr].
  apply (near_wd (if s then - Qv (Zpos m) e else Qv (Zpos m) e)).
  - symmetry. apply Qv_cond_Zopp.
  - apply (rounded_near _ _ _ y); [apply Qv_nonneg; lia | exact Hr | exact Hq].
Qed.

Lemma round_aux_near (s : bool) (m : positive) (e : Z) :
  (e <= SpecFloat.fexp prec emax (Zpos (digits2_pos m) + e))%Z ->
  Qv (Zpos m) e < overflowAt prec emax ->
  near prec emax (Qv (cond_Zopp s (Zpos m)) e)
       (binary_round_aux prec emax s (Zpos m) e loc_Exact).
Proof.
  intros He Hq.
  destruct (round_aux_Q prec emax prec_pos prec_lt_emax s m e He) as [y Hr].
  apply (near_wd (if s then - Qv (Zpos m) e else Qv (Zpos m) e)).
  - symmetry. apply Qv_cond_Zopp.
  - apply (rounded_near _ _ _ y); [apply Qv_nonneg; lia | exact Hr | exact Hq].
Qed.

Lemma overflowAt_pos : 0 < overflowAt prec emax.
Proof.
  unfold overflowAt.
  pose proof (pow2_le (emax - prec) emax ltac:(lia)).
  pose proof (pow2_pos (emax - prec)). lra.
Qed.

Lemma near_self (q y : Q) (r : spec_float) :
  valid_binary prec emax r = true -> JS.to_Q r = Some y -> q == y ->
  near prec emax q r.
Proof.
  intros Hv Hy E. split; [exact Hv|]. exists y. split; [exact Hy|].
  assert (Qabs (y - q) == 0) as E0.
  { assert (y - q == 0) as -> by (rewrite E; ring). reflexivity. }
  split.
  - intros w _. rewrite E0. apply Qabs_nonneg.
  - rewrite E0. pose proof (Qabs_nonneg q). pose proof (pow2_pos (1 - prec)).
    pose proof (pow2_pos (3 - emax - prec)).
    assert (0 <= Qabs q * 2 ^ (1 - prec)) by (apply Qmult_le_0_compat; lra). lra.
Qed.

Lemma normalize_near (z e : Z) (szero : bool) :
  Qabs (Qv z e) < overflowAt prec emax ->
  near prec emax (Qv z e) (binary_normalize prec emax z e szero).
Proof.
  intros Hq. rewrite Qabs_Qv in Hq. destruct z as [|m|m]; cbn [binary_normalize].
  - apply (near_self _ 0); [reflexivity | reflexivity | unfold Qv; ring].
  - apply (binary_round_near false). exact Hq.
  - apply (binary_round_near true). exact Hq.
Qed.

Lemma valid_finite (s : bool) (m : positive) (e : Z) :
  valid_binary prec emax (S754_finite s m e) = true ->
  (Zpos (digits2_pos m) <= prec /\ 3 - emax - prec <= e <= emax - prec
   /\ (3 - emax - prec < e -> Zpos (digits2_pos m) = prec))%Z.
Proof.
  cbn [valid_binary]. unfold bounded, canonical_mantissa, SpecFloat.fexp, SpecFloat.emin.
  intros H. apply andb_true_iff in H as [Hc He].
  apply Z.eqb_eq in Hc. apply Z.leb_le in He. lia.
Qed.

Lemma valid_representable (r : spec_float) (y : Q) :
  valid_binary prec emax r = true -> JS.to_Q r = Some y ->
  representable prec emax y.
Proof.
  intros Hv Hy. destruct r as [s|s| |s m e]; try discriminate Hy.
  - injection Hy as <-. exists 0%Z, (emax - prec)%Z.
    split; [apply Z.pow_pos_nonneg; lia|]. split; [lia|]. unfold Qv. ring.
  - injection Hy as <-. apply valid_finite in Hv as (Hd & He & _).
    exists (cond_Zopp s (Zpos m)), e. split; [|split; [lia | reflexivity]].
    pose proof (digits2_pos_bounds m) as [_ Hhi].
    assert (2 ^ Zpos (digits2_pos m) <= 2 ^ prec)%Z by (apply Z.pow_le_mono_r; lia).
    destruct s; cbn [cond_Zopp]; lia.
Qed.

Lemma shl_align_fst (mx : positive) (ex ez : Z) :
  (ez <= ex)%Z -> Zpos (fst (shl_align mx ex ez)) = (Zpos mx * 2 ^ (ex - ez))%Z.
Proof.
  intros H. unfold shl_align. destruct (ez - ex)%Z as [|d|d] eqn:Hd; cbn [fst].
  - replace (ex - ez)%Z with 0%Z by lia. lia.
  - lia.
  - unfold shift_pos. rewrite Zpos_iter_xO. f_equal. f_equal. lia.
Qed.

Lemma to_Q_finite (s : bool) (m : positive) (e : Z) (q : Q) :
  JS.to_Q (S754_finite s m e) = Some q -> q = Qv (cond_Zopp s (Zpos m)) e.
Proof. intros H. injection H as <-. reflexivity. Qed.

Lemma add_near (x y : spec_float) (qx qy : Q) :
  valid_binary prec emax x = true -> valid_binary prec emax y = true ->
  JS.to_Q x = Some qx -> JS.to_Q y = Some qy ->
  Qabs (qx + qy) < overflowAt prec emax ->
  near prec emax (qx + qy) (SFadd prec emax x y).
Proof.
  intros Hvx Hvy Hx Hy Hq.
  destruct x as [sx|sx| |sx mx ex]; try discriminate Hx;
    destruct y as [sy|sy| |sy my ey]; try discriminate Hy.
  - injection Hx as <-. injection Hy as <-. cbn [SFadd].
    destruct sx, sy; apply (near_self _ 0); reflexivity.
  - injection Hx as <-. cbn [SFadd].
    apply (near_self _ qy); [exact Hvy | exact Hy | ring].
  - injection Hy as <-. cbn [SFadd].
    apply (near_self _ qx); [exact Hvx | exact Hx | ring].
  - apply to_Q_finite in Hx, Hy. subst qx qy. cbn [SFadd].
    set (ez := Z.min ex ey) in *.
    assert (Qv (cond_Zopp sx (Zpos mx)) ex + Qv (cond_Zopp sy (Zpos my)) ey
            == Qv (cond_Zopp sx (Zpos (fst (shl_align mx ex ez)))
                   + cond_Zopp sy (Zpos (fst (shl_align my ey ez)))) ez) as E.
    { rewrite <- Qv_plus, !shl_align_fst by (unfold ez; lia).
      rewrite (Qv_scale _ ex ez), (Qv_scale _ ey ez) by (unfold ez; lia).
      destruct sx, sy; cbn [cond_Zopp];
        rewrite ?Z.mul_opp_l; reflexivity. }
    apply (near_wd _ _ _ (Qeq_sym _ _ E)). apply normalize_near.
    rewrite <- E. exact Hq.
Qed.

Lemma mul_near (x y : spec_float) (qx qy : Q) :
  valid_binary prec emax x = true -> valid_binary prec emax y = true ->
  JS.to_Q x = Some qx -> JS.to_Q y = Some qy ->
  Qabs (qx * qy) < overflowAt prec emax ->
  near prec emax (qx * qy) (SFmul prec emax x y).
Proof.
  intros Hvx Hvy Hx Hy Hq.
  destruct x as [sx|sx| |sx mx ex]; try discriminate Hx;
    destruct y as [sy|sy| |sy my ey]; try discriminate Hy.
  - injection Hx as <-. injection Hy as <-. cbn [SFmul].
    apply (near_self _ 0); try reflexivity; ring.
  - injection Hx as <-. cbn [SFmul].
    apply (near_self _ 0); try reflexivity; ring.
  - injection Hy as <-. cbn [SFmul].
    apply (near_self _ 0); try reflexivity; ring.
  - apply to_Q_finite in Hx, Hy. subst qx qy. cbn [SFmul].
    assert (Qv (cond_Zopp sx (Zpos mx)) ex * Qv (cond_Zopp sy (Zpos my)) ey
            == Qv (cond_Zopp (xorb sx sy) (Zpos (mx * my))) (ex + ey)) as E.
    { unfold Qv. rewrite pow2_add.
      assert (inject_Z (cond_Zopp (xorb sx sy) (Zpos (mx * my)))
              == inject_Z (cond_Zopp sx (Zpos mx)) * inject_Z (cond_Zopp sy (Zpos my)))
        as ->.
      { rewrite <- inject_Z_mult. destruct sx, sy; reflexivity. }
      ring. }
    apply (near_wd _ _ _ (Qeq_sym _ _ E)).
    apply valid_finite in Hvx as (Hdx & Hex & Hnx).
    apply valid_finite in Hvy as (Hdy & Hey & Hny).
    pose proof (digits2_mul mx my) as Hd.
    apply round_aux_near.
    + unfold SpecFloat.fexp, SpecFloat.emin.
      assert (0 < Zpos (digits2_pos mx) /\ 0 < Zpos (digits2_pos my))%Z as [? ?] by lia.
      destruct (Z.eq_dec ex (3 - emax - prec)%Z) as [Ex | Ex];
        destruct (Z.eq_dec ey (3 - emax - prec)%Z) as [Ey | Ey]; lia.
    + rewrite E, Qabs_Qv in Hq.
      replace (Z.abs (cond_Zopp (xorb sx sy) (Zpos (mx * my)))) with (Zpos (mx * my)) in Hq
        by (destruct (xorb sx sy); reflexivity).
      exact Hq.
Qed.

End Signed.

(* ===================================================================== *)
(** ** The store into the Float32Array *)
(* ===================================================================== *)

Section Float32Store.

Import Exact.

Local Open Scope Q_scope.

Lemma normalize_overflow (prec emax : Z) (s : bool) (m : positive) (e : Z) :
  (0 < prec)%Z -> (prec < emax)%Z ->
  overflowAt prec emax <= Qv (Zpos m) e ->
  binary_normalize prec emax (cond_Zopp s (Zpos m)) e s = S754_infinity s.
Proof.
  intros Hp He Hq. destruct s; cbn [cond_Zopp Z.opp binary_normalize];
    apply binary_round_overflow; assumption.
Qed.

(** A valid binary32 datum read back as a double keeps its value. *)
Lemma of_binary32_value (r : spec_float) (y : Q) :
  valid_binary JS.prec32 JS.emax32 r = true -> JS.to_Q r = Some y ->
  exists y', JS.to_Q (JS.of_binary32 r) = Some y' /\ y' == y.
Proof.
  intros Hv Hy. destruct r as [s|s| |s m e]; try discriminate Hy.
  - exists y. split; [exact Hy | reflexivity].
  - cbn [valid_binary] in Hv.
    destruct (of_binary32_finite s m e Hv) as (d & Hd & ->).
    injection Hy as <-. eexists. split; [reflexivity|].
    change (Qv (cond_Zopp s (Zpos (Pos.iter xO m d))) (e - Zpos d)
            == Qv (cond_Zopp s (Zpos m)) e).
    rewrite (Qv_scale (cond_Zopp s (Zpos m)) e (e - Zpos d)) by lia.
    rewrite Zpos_iter_xO. replace (e - (e - Zpos d))%Z with (Zpos d) by lia.
    destruct s; cbn [cond_Zopp]; rewrite ?Z.mul_opp_l; reflexivity.
Qed.

Lemma fround_rounds32 (d : JS.number) : rounds32 d (JS.fround d).
Proof.
  destruct d as [s|s| |s m e]; try reflexivity.
  cbn [rounds32]. change (inject_Z (cond_Zopp s (Zpos m)) * Qpower 2 e)
    with (Qv (cond_Zopp s (Zpos m)) e).
  unfold JS.fround. cbn [JS.to_binary32]. split.
  - intros Hq.
    destruct (normalize_near JS.prec32 JS.emax32 ltac:(reflexivity) ltac:(reflexivity)
                (cond_Zopp s (Zpos m)) e s Hq) as (Hv & y & Hy & Hn & _).
    destruct (of_binary32_value _ _ Hv Hy) as (y' & Hy' & E).
    exists y'. split; [exact Hy'|]. split.
    + apply (representable_wd JS.prec32 JS.emax32 y); [symmetry; exact E|].
      apply (valid_representable JS.prec32 JS.emax32 ltac:(reflexivity) ltac:(reflexivity)
               _ _ Hv Hy).
    + intros w Hw. rewrite E. apply Hn, Hw.
  - intros Hq. rewrite Qabs_Qv in Hq.
    replace (Z.abs (cond_Zopp s (Zpos m))) with (Zpos m) in Hq by (destruct s; reflexivity).
    rewrite normalize_overflow; [reflexivity | reflexivity | reflexivity | exact Hq].
Qed.


End Float32Store.

Section StoreClaim.

Import Exact.

Import MrmsParser.

Variable Math_pow : Z -> Z -> JS.number.
Variables (dataBuffer : Buffer.t) (bitMap : option Buffer.t).
Variables (numberOfDataPoints numberOfBits : Z).
Variable referenceValue : JS.number.
Variables (binaryScaleFactor decimalScaleFactor : Z).

Local Abbreviation decoded :=
  (decodeData Math_pow dataBuffer bitMap numberOfDataPoints
     numberOfBits referenceValue binaryScaleFactor decimalScaleFactor).




End StoreClaim.

Section StoreExample.

Import Exact.

Import MrmsParser.



End StoreExample.

(* ===================================================================== *)
(** ** The accuracy of a decoded cell *)
(* ===================================================================== *)

Section ErrorBudget.

Import Exact.

Local Open Scope Q_scope.

Lemma below_overflow (prec emax : Z) (q : Q) :
  (0 < prec)%Z -> (prec < emax)%Z ->
  Qabs q <= 2 ^ (emax - 1) -> Qabs q < overflowAt prec emax.
Proof.
  intros Hp He Hq. unfold overflowAt.
  pose proof (pow2_le (emax - prec) (emax - 1) ltac:(lia)) as H1.
  pose proof (pow2_pos (emax - prec)) as H2.
  pose proof (pow2_add 1 (emax - 1)) as H3.
  replace (1 + (emax - 1))%Z with emax in H3 by lia.
  change (2 ^ 1) with 2 in H3. rewrite H3. lra.
Qed.

Lemma Qabs_prod_diff (a b A B : Q) :
  Qabs (a * b - A * B) <= Qabs (a - A) * Qabs b + Qabs A * Qabs (b - B).
Proof.
  assert (a * b - A * B == (a - A) * b + A * (b - B)) as -> by ring.
  eapply Qle_trans; [apply Qabs_triangle|]. rewrite !Qabs_Qmult. lra.
Qed.

Lemma Qabs_le_add (x y d : Q) : Qabs (x - y) <= d -> Qabs x <= Qabs y + d.
Proof.
  intros H. assert (x == y + (x - y)) as E by ring.
  rewrite E at 1. eapply Qle_trans; [apply Qabs_triangle|]. lra.
Qed.

(** The two double-precision roundings and the error of the decimal
    scale move the result by at most [2 ^ -38] when the exact value is
    at most 2048 in magnitude. *)
Lemma double_error_budget (S T sv t10 tv Y eta : Q) :
  Y == S * T -> 0 < T -> Qabs Y <= 2048 ->
  0 <= eta -> eta <= 1 # 1000000000000000 -> eta * T <= 1 # 1000000000000000 ->
  Qabs (sv - S) * 2 <= Qabs S * (1 # 4503599627370496) + eta ->
  Qabs (t10 - T) <= T * (1 # 4503599627370496) ->
  Qabs (tv - sv * t10) * 2 <= Qabs (sv * t10) * (1 # 4503599627370496) + eta ->
  Qabs (sv * t10) <= 4096 /\ Qabs (tv - Y) <= 1 # 100000000000.
Proof.
  intros EY HT HY Heta0 Heta HetaT Hs Ht Hm.
  assert (Qabs S * T == Qabs Y) as EsT.
  { rewrite EY, Qabs_Qmult, (Qabs_pos T) by lra. reflexivity. }
  pose proof (Qabs_nonneg (sv - S)) as Ha0.
  pose proof (Qabs_nonneg S) as Hs0.
  pose proof (Qabs_nonneg (t10 - T)) as Hc0.
  pose proof (Qabs_le_add t10 T _ Ht) as Hb. rewrite (Qabs_pos T) in Hb by lra.
  set (a := Qabs (sv - S)) in *. set (s := Qabs S) in *.
  set (b := Qabs t10) in *. set (c := Qabs (t10 - T)) in *.
  (* a * T *)
  assert (a * T * 2 <= Qabs Y * (1 # 4503599627370496) + eta * T) as HaT.
  { assert (a * T * 2 == a * 2 * T) as -> by ring.
    assert (Qabs Y * (1 # 4503599627370496) + eta * T
            == (s * (1 # 4503599627370496) + eta) * T) as ->
      by (rewrite <- EsT; ring).
    apply Qmult_le_compat_r; lra. }
  assert (0 <= a * T) as HaT0 by (apply Qmult_le_0_compat; lra).
  assert (a * b <= a * T * 2) as Hab.
  { assert (a * T * 2 == a * (T * 2)) as -> by ring.
    rewrite !(Qmult_comm a). apply Qmult_le_compat_r; lra. }
  assert (s * c <= Qabs Y * (1 # 4503599627370496)) as Hsc.
  { rewrite <- EsT.
    assert (s * T * (1 # 4503599627370496) == s * (T * (1 # 4503599627370496))) as ->
      by ring.
    rewrite !(Qmult_comm s). apply Qmult_le_compat_r; lra. }
  pose proof (Qabs_prod_diff sv t10 S T) as Hd. fold a b s c in Hd.
  assert (Qabs (sv * t10 - Y) <= a * b + s * c) as Hd'.
  { rewrite EY. exact Hd. }
  pose proof (Qabs_le_add _ _ _ Hd') as Hst.
  assert (Qabs (tv - Y) <= Qabs (tv - sv * t10) + Qabs (sv * t10 - Y)) as Htri.
  { assert (tv - Y == (tv - sv * t10) + (sv * t10 - Y)) as -> by ring.
    apply Qabs_triangle. }
  pose proof (Qabs_nonneg Y). split; lra.
Qed.

(** A real number of magnitude below [2048 + 2 ^ -14] has a binary32
    value within [2 ^ -14] of it. *)
Lemma binary32_grid (q : Q) :
  Qabs q < 2048 + (1 # 16384) ->
  exists w, binary32_value w /\ Qabs (w - q) <= 1 # 16384.
Proof.
  intros Hq. apply Qabs_Qlt_condition in Hq as [Hlo Hhi].
  set (k := Qfloor (q * 8192 + (1 # 2))).
  pose proof (Qfloor_le (q * 8192 + (1 # 2))) as Hk1.
  pose proof (Qlt_floor (q * 8192 + (1 # 2))) as Hk2. fold k in Hk1, Hk2.
  rewrite inject_Z_plus in Hk2. change (inject_Z 1) with 1 in Hk2.
  assert (-16777216 <= k <= 16777216)%Z as Hkr.
  { split.
    - destruct (Z_le_gt_dec (-16777216) k) as [H | H]; [exact H | exfalso].
      assert (inject_Z k <= inject_Z (-16777217)) as H1 by (rewrite <- Zle_Qle; lia).
      change (inject_Z (-16777217)) with (-16777217) in H1. lra.
    - destruct (Z_le_gt_dec k 16777216) as [H | H]; [exact H | exfalso].
      assert (inject_Z 16777217 <= inject_Z k) as H1 by (rewrite <- Zle_Qle; lia).
      change (inject_Z 16777217) with 16777217 in H1. lra. }
  assert (Qv k (-13) == inject_Z k * (1 # 8192)) as Ew by reflexivity.
  exists (Qv k (-13)). split.
  - destruct (Z.eq_dec (Z.abs k) 16777216%Z) as [Hk | Hk].
    + exists (k / 2)%Z, (-12)%Z. split; [|split].
      * unfold JS.prec32. change (2 ^ 24)%Z with 16777216%Z.
        destruct (Z.abs_spec k) as [[_ E] | [_ E]]; rewrite E in Hk.
        -- rewrite Hk. reflexivity.
        -- replace k with (-16777216)%Z by lia. reflexivity.
      * unfold JS.prec32, JS.emax32. lia.
      * destruct (Z.abs_spec k) as [[_ E] | [_ E]]; rewrite E in Hk.
        -- rewrite Hk. reflexivity.
        -- replace k with (-16777216)%Z by lia. reflexivity.
    + exists k, (-13)%Z. split; [|split; [|reflexivity]].
      * unfold JS.prec32. change (2 ^ 24)%Z with 16777216%Z. lia.
      * unfold JS.prec32, JS.emax32. lia.
  - rewrite Ew. apply Qabs_Qle_condition. split; lra.
Qed.

Lemma binary32_store_error (q y : Q) :
  Qabs q < 2048 + (1 # 16384) ->
  (forall w, binary32_value w -> Qabs (y - q) <= Qabs (w - q)) ->
  Qabs (y - q) <= 1 # 16384.
Proof.
  intros Hq Hn. destruct (binary32_grid q Hq) as (w & Hw & Hd).
  eapply Qle_trans; [apply Hn, Hw | exact Hd].
Qed.

End ErrorBudget.

Section UnpackTolerance.

Import Exact.

Local Open Scope Q_scope.

Lemma Qmult_le_mono (a b c d : Q) :
  0 <= a <= c -> 0 <= b <= d -> a * b <= c * d.
Proof.
  intros [Ha Hac] [Hb Hbd].
  apply Qle_trans with (c * b).
  - apply Qmult_le_compat_r; assumption.
  - rewrite !(Qmult_comm c). apply Qmult_le_compat_r; [assumption | lra].
Qed.

Lemma pow10_le (a b : Z) : (a <= b)%Z -> Qpower 10 a <= Qpower 10 b.
Proof.
  intros H. replace b with (a + (b - a))%Z by lia.
  rewrite Qpower_plus by discriminate.
  rewrite <- (Qmult_1_r (Qpower 10 a)) at 1.
  apply Qmult_le_l; [apply Qpower_0_lt; reflexivity|].
  apply Qpower_1_le; [discriminate | lia].
Qed.

Lemma to_Q_valid_of_near (q : Q) (x : JS.number) :
  near JS.prec64 JS.emax64 q x -> valid_binary JS.prec64 JS.emax64 x = true.
Proof. intros [H _]. exact H. Qed.

Variable Math_pow : Z -> Z -> JS.number.

Lemma unpack_within_tolerance (R : JS.number) (E D X : Z) (r : Q) :
  (0 <= X < 2 ^ 31)%Z ->
  isDouble R r -> Qabs r <= 2 ^ 1000 ->
  (-1074 <= E <= 900)%Z -> (-300 <= D)%Z ->
  isDouble (Math_pow 2 E) (2 ^ E) ->
  (exists t, isDouble (Math_pow 10 (- D)) t
             /\ Qabs (t - Qpower 10 (- D)) <= Qpower 10 (- D) * 2 ^ (-52)) ->
  Qabs (Spec.physical r X E D) <= 2048 ->
  Spec.withinTolerance (JS.fround (MrmsParser.unpack Math_pow R E D X))
                       (Spec.physical r X E D).
Proof.
  intros HX (HvR & yr & HyR & Er) Hr HE HD (Hv2 & y2 & Hy2 & E2)
         (t & (Hv10 & y10 & Hy10 & E10) & Ht) HY.
  unfold MrmsParser.unpack, MrmsParser.binaryScale, MrmsParser.decimalScale.
  assert (0 < 53 /\ 53 < 1024)%Z as [Hp He] by lia.
  (* the packed integer *)
  assert (0 <= inject_Z X <= 2 ^ 31) as HXq.
  { split.
    - change 0 with (inject_Z 0). rewrite <- Zle_Qle. lia.
    - change (2 ^ 31) with (inject_Z (2 ^ 31)). rewrite <- Zle_Qle. lia. }
  assert (near JS.prec64 JS.emax64 (Qv X 0) (JS.of_int X)) as Hx.
  { apply normalize_near; [exact Hp | exact He|].
    apply below_overflow; [exact Hp | exact He|].
    unfold Qv. change (2 ^ 0) with 1. rewrite Qmult_1_r, Qabs_pos by lra.
    apply Qle_trans with (2 ^ 31); [lra|]. apply pow2_le. unfold JS.emax64. lia. }
  destruct (near_exact _ _ _ _ Hx) as (xq & Hxq & Ex).
  { exists X, 0%Z. split; [|split; [unfold JS.emax64, JS.prec64; lia | reflexivity]].
    assert (2 ^ 31 <= 2 ^ JS.prec64)%Z by (apply Z.pow_le_mono_r; unfold JS.prec64; lia).
    lia. }
  assert (xq == inject_Z X) as Ex' by (rewrite Ex; unfold Qv; change (2 ^ 0) with 1; ring).
  (* times the binary scale: exact *)
  pose proof (pow2_pos E) as HE0.
  pose proof (pow2_le E 900 ltac:(lia)) as HE1.
  assert (xq * y2 == Qv X E) as Ep by (rewrite Ex', E2; reflexivity).
  assert (0 <= Qv X E <= 2 ^ 931) as HP.
  { unfold Qv. split; [apply Qmult_le_0_compat; lra|].
    assert (2 ^ 931 == 2 ^ 31 * 2 ^ 900) as -> by (rewrite <- pow2_add; reflexivity).
    apply Qmult_le_mono; lra. }
  assert (near JS.prec64 JS.emax64 (xq * y2) (JS.mul (JS.of_int X) (Math_pow 2 E))) as Hp1.
  { apply mul_near; try assumption; [exact (to_Q_valid_of_near _ _ Hx)|].
    apply below_overflow; [exact Hp | exact He|].
    rewrite Ep, Qabs_pos by lra. apply Qle_trans with (2 ^ 931); [lra|].
    apply pow2_le. unfold JS.emax64. lia. }
  destruct (near_exact _ _ _ _ Hp1) as (pv & Hpv & Epv).
  { apply (representable_wd _ _ (Qv X E)); [symmetry; exact Ep|].
    exists X, E. split; [|split; [unfold JS.emax64, JS.prec64; lia | reflexivity]].
    assert (2 ^ 31 <= 2 ^ JS.prec64)%Z by (apply Z.pow_le_mono_r; unfold JS.prec64; lia).
    lia. }
  rewrite Ep in Epv.
  (* plus the reference value *)
  set (S := r + inject_Z X * 2 ^ E).
  assert (yr + pv == S) as ES by (unfold S; rewrite Er, Epv; reflexivity).
  assert (Qabs S <= 2 ^ 1001) as HS.
  { unfold S. eapply Qle_trans; [apply Qabs_triangle|].
    fold (Qv X E). rewrite (Qabs_pos (Qv X E)) by lra.
    pose proof (pow2_le 931 1000 ltac:(lia)).
    assert (2 ^ 1001 == 2 ^ 1000 + 2 ^ 1000) as ->; [|lra].
    change 1001%Z with (1 + 1000)%Z. rewrite pow2_add. change (2 ^ 1) with 2. ring. }
  assert (near JS.prec64 JS.emax64 S
            (JS.add R (JS.mul (JS.of_int X) (Math_pow 2 E)))) as Hs.
  { apply (near_wd _ _ (yr + pv)); [exact ES|].
    apply add_near; try assumption; [exact (to_Q_valid_of_near _ _ Hp1)|].
    apply below_overflow; [exact Hp | exact He|]. rewrite ES.
    apply Qle_trans with (2 ^ 1001); [exact HS|]. apply pow2_le. unfold JS.emax64. lia. }
  destruct Hs as (Hvs & sv & Hsv & _ & Hbs).
  change (2 ^ (1 - JS.prec64)) with (1 # 4503599627370496) in Hbs.
  set (eta := 2 ^ (3 - JS.emax64 - JS.prec64)) in *.
  (* the decimal scale *)
  set (T := Qpower 10 (- D)) in *.
  assert (0 < T) as HT0 by (apply Qpower_0_lt; reflexivity).
  assert (T <= Qpower 10 300) as HT1 by (apply pow10_le; lia).
  change (2 ^ (-52)) with (1 # 4503599627370496) in Ht.
  assert (0 <= eta /\ eta <= 1 # 1000000000000000
          /\ eta * Qpower 10 300 <= 1 # 1000000000000000) as (Heta0 & Heta1 & Heta2).
  { unfold eta. split; [|split]; vm_compute; discriminate. }
  assert (eta * T <= 1 # 1000000000000000) as HetaT.
  { apply Qle_trans with (eta * Qpower 10 300); [|exact Heta2].
    rewrite !(Qmult_comm eta). apply Qmult_le_compat_r; assumption. }
  set (Y := Spec.physical r X E D) in *.
  assert (Y == S * T) as EY by reflexivity.
  rewrite <- E10 in Ht.
  destruct (double_error_budget S T sv y10 (sv * y10) Y eta EY HT0 HY Heta0 Heta1 HetaT
              Hbs Ht) as [Hst _].
  { assert (sv * y10 - sv * y10 == 0) as -> by ring. change (Qabs 0) with 0.
    pose proof (Qabs_nonneg (sv * y10)). lra. }
  assert (near JS.prec64 JS.emax64 (sv * y10)
            (JS.mul (JS.add R (JS.mul (JS.of_int X) (Math_pow 2 E)))
                    (Math_pow 10 (- D)))) as Hm.
  { apply mul_near; try assumption.
    apply below_overflow; [exact Hp | exact He|].
    apply Qle_trans with 4096; [exact Hst|].
    change 4096 with (2 ^ 12). apply pow2_le. unfold JS.emax64. lia. }
  destruct Hm as (Hvt & tv & Htv & _ & Hbt).
  change (2 ^ (1 - JS.prec64)) with (1 # 4503599627370496) in Hbt. fold eta in Hbt.
  destruct (double_error_budget S T sv y10 tv Y eta EY HT0 HY Heta0 Heta1 HetaT
              Hbs Ht Hbt) as [_ HtY].
  pose proof (Qabs_le_add _ _ _ HtY) as Htv1.
  (* the store *)
  pose proof (fround_rounds32
                (JS.mul (JS.add R (JS.mul (JS.of_int X) (Math_pow 2 E)))
                        (Math_pow 10 (- D)))) as Hr32.
  destruct (JS.mul (JS.add R (JS.mul (JS.of_int X) (Math_pow 2 E)))
                   (Math_pow 10 (- D))) as [s|s| |s m e]; try discriminate Htv.
  - cbn [rounds32] in Hr32. rewrite Hr32. exists tv. split; [exact Htv|]. lra.
  - cbn [rounds32] in Hr32. injection Htv as Etv. rewrite Etv in Hr32.
    destruct Hr32 as [Hfin _].
    destruct Hfin as (y & Hy & _ & Hn).
    { apply Qle_lt_trans with (2 ^ 12); [change (2 ^ 12) with 4096; lra|].
      apply Qle_lt_trans with (2 ^ (JS.emax32 - 1)); [apply pow2_le; unfold JS.emax32; lia|].
      pose proof (below_overflow JS.prec32 JS.emax32 (2 ^ (JS.emax32 - 1))
                    ltac:(reflexivity) ltac:(reflexivity)) as Hb.
      rewrite Qabs_pos in Hb by (apply Qlt_le_weak, pow2_pos).
      apply Hb. lra. }
    exists y. split; [exact Hy|].
    assert (Qabs (y - tv) <= 1 # 16384) as Hyt
      by (apply binary32_store_error; [lra | exact Hn]).
    assert (y - Y == (y - tv) + (tv - Y)) as -> by ring.
    eapply Qle_trans; [apply Qabs_triangle|]. lra.
Qed.

End UnpackTolerance.

Section ToleranceClaim.

Import Exact.

Import MrmsParser.

Variable Math_pow : Z -> Z -> JS.number.
Variables (dataBuffer : Buffer.t) (bitMap : option Buffer.t).
Variables (numberOfDataPoints numberOfBits : Z).
Variable referenceValue : JS.number.
Variables (binaryScaleFactor decimalScaleFactor : Z).

Local Abbreviation decoded :=
  (decodeData Math_pow dataBuffer bitMap numberOfDataPoints
     numberOfBits referenceValue binaryScaleFactor decimalScaleFactor).

Lemma decodeData_cell_unsigned (i : Z) :
  0 < numberOfBits <= 31 ->
  0 <= i < numberOfDataPoints ->
  Spec.missing bitMap i = false ->
  decoded !! Z.to_nat i
  = Some (JS.fround
            (unpack Math_pow referenceValue binaryScaleFactor decimalScaleFactor
               (Spec.unsignedBE dataBuffer
                  (Spec.bitsNeeded bitMap numberOfBits i) numberOfBits))).
Proof.
  intros Hb Hi Hm. rewrite decodeData_cell by lia.
  unfold Spec.cellValue. rewrite skipped_missing, Hm.
  rewrite readBits_unsigned by lia.
  rewrite <- (Z2Nat.id i) at 1 2 by lia. rewrite decodeLoop_bitPos.
  rewrite Z2Nat.id by lia. reflexivity.
Qed.

(** C2 (amended): for a cell that is not missing, decoded with a bit
    width from 1 to 31, the stored value is within 1e-4 of
    [(R + X * 2^E) * 10^(-D)], where [X] is the big-endian unsigned
    integer of [numberOfBits] bits at the cell's cursor, provided that
    this exact value is at most 2048 in magnitude, that the reference
    value is a finite double of magnitude at most [2 ^ 1000], that
    [-1074 <= E <= 900] and [-300 <= D], and that [Math.pow] returned
    [2 ^ E] exactly and [10 ^ (-D)] with a relative error of at most
    [2 ^ -52]. *)
Theorem decodeData_within_tolerance (i : Z) (r : Q) :
  0 < numberOfBits <= 31 ->
  0 <= i < numberOfDataPoints ->
  Spec.missing bitMap i = false ->
  isDouble referenceValue r ->
  (Qabs r <= 2 ^ 1000)%Q ->
  -1074 <= binaryScaleFactor <= 900 ->
  -300 <= decimalScaleFactor ->
  isDouble (Math_pow 2 binaryScaleFactor) (2 ^ binaryScaleFactor)%Q ->
  (exists t, isDouble (Math_pow 10 (- decimalScaleFactor)) t
             /\ (Qabs (t - Qpower 10 (- decimalScaleFactor))
                 <= Qpower 10 (- decimalScaleFactor) * 2 ^ (-52))%Q) ->
  let X := Spec.unsignedBE dataBuffer
             (Spec.bitsNeeded bitMap numberOfBits i) numberOfBits in
  (Qabs (Spec.physical r X binaryScaleFactor decimalScaleFactor) <= 2048)%Q ->
  exists v,
    decoded !! Z.to_nat i = Some v
    /\ Spec.withinTolerance v
         (Spec.physical r X binaryScaleFactor decimalScaleFactor).
Proof.
  intros Hb Hi Hm HR Hr HE HD H2 H10 X HY.
  eexists. split; [apply decodeData_cell_unsigned; assumption|].
  fold X. apply unpack_within_tolerance; try assumption.
  pose proof (unsignedBE_range dataBuffer
                (Spec.bitsNeeded bitMap numberOfBits i) (Z.to_nat numberOfBits)) as HX.
  rewrite Z2Nat.id in HX by lia. fold X in HX.
  assert (2 ^ numberOfBits <= 2 ^ 31) by (apply Z.pow_le_mono_r; lia). lia.
Qed.

End ToleranceClaim.

Section ToleranceExamples.

Import Exact.

Import MrmsParser.

(** R = -30, X = 1069, E = 0, D = 1: the exact value is 103.9. *)
Lemma decodeData_within_tolerance_witness :
  exists v,
    decodeData Host.Math_pow [Byte.x04; Byte.x2d] None 1 16 (JS.of_int (-30)) 0 1
      !! Z.to_nat 0 = Some v
    /\ Spec.withinTolerance v (Spec.physical (-30) 1069 0 1).
Proof.
  apply (decodeData_within_tolerance Host.Math_pow [Byte.x04; Byte.x2d] None 1 16
           (JS.of_int (-30)) 0 1 0 (-30)%Q).
  - lia.
  - lia.
  - reflexivity.
  - split; [vm_compute; reflexivity|].
    eexists. split; [vm_compute; reflexivity | reflexivity].
  - vm_compute. discriminate.
  - lia.
  - lia.
  - split; [vm_compute; reflexivity|].
    eexists. split; [vm_compute; reflexivity | reflexivity].
  - eexists. split.
    + split; [vm_compute; reflexivity|].
      eexists. split; [vm_compute; reflexivity | reflexivity].
    + vm_compute. discriminate.
  - vm_compute. discriminate.
Defined.

(** The bound on the magnitude cannot be raised: one 25-bit cell
    holding X = 2^24 + 1 with R = 0, E = -13, D = 0 has the exact value
    2048 + 2^-13 and decodes to 2048, which is more than 1e-4 away. *)
Example tolerance_fails_above_2048 :
  Spec.unsignedBE Fixture.payload25 0 25 = 16777217
  /\ (Spec.physical 0 16777217 (-13) 0 == 2048 + (1 # 8192))%Q
  /\ exists v,
       decodeData Host.Math_pow Fixture.payload25 None 1 25
         (S754_zero false) (-13) 0 !! 0%nat = Some v
       /\ (exists y, JS.to_Q v = Some y /\ (y == 2048)%Q)
       /\ ~ Spec.withinTolerance v (Spec.physical 0 16777217 (-13) 0).
Proof.
  split; [reflexivity|]. split; [reflexivity|].
  eexists. split; [vm_compute; reflexivity|].
  split; [eexists; split; [vm_compute; reflexivity | reflexivity]|].
  intros (y & Hy & Hle). injection Hy as <-.
  vm_compute in Hle. apply Hle. reflexivity.
Qed.

(** The bounds on R and E keep the intermediate doubles finite, and
    cannot be dropped: with R = 2^1023, one 1-bit cell holding X = 1,
    E = 1023 and D = 308, both powers are as accurate as required and
    the exact value is about 1.8, but the sum R + X * 2^E overflows and
    the cell decodes to +Infinity. *)
Example tolerance_needs_finite_sum :
  Spec.unsignedBE [Byte.x80] 0 1 = 1
  /\ isDouble (JS.of_int (2 ^ 1023)) (inject_Z (2 ^ 1023))
  /\ isDouble (Host.Math_pow 2 1023) (2 ^ 1023)%Q
  /\ (exists t, isDouble (Host.Math_pow 10 (- 308)) t
                /\ (Qabs (t - Qpower 10 (- 308)) <= Qpower 10 (- 308) * 2 ^ (-52))%Q)
  /\ (Qabs (Spec.physical (inject_Z (2 ^ 1023)) 1 1023 308) <= 2048)%Q
  /\ decodeData Host.Math_pow [Byte.x80] None 1 1 (JS.of_int (2 ^ 1023)) 1023 308
       !! 0%nat = Some (S754_infinity false).
Proof.
  split; [reflexivity|].
  split; [split; [vm_compute; reflexivity|];
          eexists; split; [vm_compute; reflexivity | vm_compute; reflexivity]|].
  split; [split; [vm_compute; reflexivity|];
          eexists; split; [vm_compute; reflexivity | vm_compute; reflexivity]|].
  split.
  - eexists. split.
    + split; [vm_compute; reflexivity|].
      eexists. split; [vm_compute; reflexivity | reflexivity].
    + vm_compute. discriminate.
  - split; [vm_compute; discriminate | vm_compute; reflexivity].
Qed.

End ToleranceExamples.

(* ===================================================================== *)
(** ** Which messages parse *)
(* ===================================================================== *)

Section LayoutFacts.

Import MrmsParser Layout.

Variable buffer : Buffer.t.

Lemma unsignedBE_byte (k : Z) :
  0 <= k -> Spec.unsignedBE buffer (8 * k) 8 = Buffer.index_int32 buffer k.
Proof.
  intros Hk. unfold Spec.unsignedBE.
  change (seqZ 0 8) with [0; 1; 2; 3; 4; 5; 6; 7].
  cbn [fmap list_fmap]. rewrite !bit_aligned by lia.
  unfold Buffer.index_int32, Buffer.index.
  rewrite (proj2 (Z.ltb_ge k 0)) by lia.
  destruct (buffer !! Z.to_nat k) as [b|]; simpl option_map; [|reflexivity].
  apply (byte_of_bits b).
Qed.

Lemma uintBE_1 (o : Z) : 0 <= o -> uintBE buffer o 1 = Buffer.index_int32 buffer o.
Proof. intros Ho. unfold uintBE. change (8 * 1) with 8. apply unsignedBE_byte, Ho. Qed.

Lemma uintBE_4 (o : Z) :
  0 <= o ->
  uintBE buffer o 4
  = Buffer.index_int32 buffer o * 2 ^ 24
    + Buffer.index_int32 buffer (o + 1) * 2 ^ 16
    + Buffer.index_int32 buffer (o + 2) * 2 ^ 8
    + Buffer.index_int32 buffer (o + 3).
Proof.
  intros Ho. unfold uintBE. change (8 * 4) with (24 + Z.of_nat 8).
  rewrite (unsignedBE_app_nat buffer) by lia.
  change 24 with (16 + Z.of_nat 8) at 1.
  rewrite (unsignedBE_app_nat buffer) by lia.
  change 16 with (8 + Z.of_nat 8) at 1.
  rewrite (unsignedBE_app_nat buffer) by lia.
  change (Z.of_nat 8) with 8.
  replace (8 * o + 8) with (8 * (o + 1)) by lia.
  replace (8 * o + 16) with (8 * (o + 2)) by lia.
  replace (8 * o + 24) with (8 * (o + 3)) by lia.
  rewrite !unsignedBE_byte by lia. lia.
Qed.

Lemma uintBE_4_nonneg (o : Z) : 0 <= uintBE buffer o 4.
Proof.
  unfold uintBE. change (8 * 4) with (Z.of_nat 32). apply unsignedBE_range.
Qed.

Lemma u8_magic (b : Byte.byte) (k : Z) (c : Byte.byte) :
  Buffer.u8 c = k -> (Buffer.u8 b =? k) = true <-> b = c.
Proof.
  intros <-. rewrite Z.eqb_eq. split; [|intros ->; reflexivity].
  unfold Buffer.u8. intros H. apply (f_equal Z.to_N) in H.
  rewrite !N2Z.id in H. apply (f_equal Byte.of_N) in H.
  rewrite !Byte.of_to_N in H. congruence.
Qed.

Lemma starts_with_GRIB_magic :
  Buffer.starts_with_GRIB buffer = true <-> take 4 buffer = magic.
Proof.
  unfold Buffer.starts_with_GRIB, magic.
  destruct buffer as [|b0 [|b1 [|b2 [|b3 rest]]]]; try (split; discriminate).
  cbn [take]. rewrite !andb_true_iff.
  rewrite (u8_magic b0 71 Byte.x47), (u8_magic b1 82 Byte.x52),
    (u8_magic b2 73 Byte.x49), (u8_magic b3 66 Byte.x42) by reflexivity.
  split; [intros [[[-> ->] ->] ->]; reflexivity | intros [= -> -> -> ->]; auto].
Qed.

Lemma readUInt8_inside (o : Z) :
  0 <= o -> o + 1 <= Buffer.byteLength buffer ->
  Buffer.readUInt8 buffer o = JS.Normal (uintBE buffer o 1).
Proof.
  intros H0 H1. unfold Buffer.readUInt8.
  rewrite (proj2 (in_range_spec buffer o 1)) by lia. rewrite uintBE_1 by lia. reflexivity.
Qed.

Lemma readUInt32BE_inside (o : Z) :
  0 <= o -> o + 4 <= Buffer.byteLength buffer ->
  Buffer.readUInt32BE buffer o = JS.Normal (uintBE buffer o 4).
Proof.
  intros H0 H1. unfold Buffer.readUInt32BE.
  rewrite (proj2 (in_range_spec buffer o 4)) by lia. rewrite uintBE_4 by lia. reflexivity.
Qed.

Lemma readUInt16BE_inside (o : Z) :
  0 <= o -> o + 2 <= Buffer.byteLength buffer ->
  exists v, Buffer.readUInt16BE buffer o = JS.Normal v.
Proof.
  intros H0 H1. unfold Buffer.readUInt16BE.
  rewrite (proj2 (in_range_spec buffer o 2)) by lia. eexists. reflexivity.
Qed.

Lemma readInt16BE_inside (o : Z) :
  0 <= o -> o + 2 <= Buffer.byteLength buffer ->
  exists v, Buffer.readInt16BE buffer o = JS.Normal v.
Proof.
  intros H0 H1. unfold Buffer.readInt16BE.
  destruct (readUInt16BE_inside o H0 H1) as [v ->]. eexists. reflexivity.
Qed.

Lemma readInt32BE_inside (o : Z) :
  0 <= o -> o + 4 <= Buffer.byteLength buffer ->
  exists v, Buffer.readInt32BE buffer o = JS.Normal v.
Proof.
  intros H0 H1. unfold Buffer.readInt32BE.
  rewrite readUInt32BE_inside by lia. eexists. reflexivity.
Qed.

Lemma readFloatBE_inside (o : Z) :
  0 <= o -> o + 4 <= Buffer.byteLength buffer ->
  exists v, Buffer.readFloatBE buffer o = JS.Normal v.
Proof.
  intros H0 H1. unfold Buffer.readFloatBE.
  rewrite readUInt32BE_inside by lia. eexists. reflexivity.
Qed.

Lemma readUInt8_uintBE (o v : Z) :
  Buffer.readUInt8 buffer o = JS.Normal v -> v = uintBE buffer o 1.
Proof.
  intros H. pose proof (readUInt8_Normal buffer o v H) as (H0 & H1 & _).
  rewrite readUInt8_inside in H by lia. congruence.
Qed.

Lemma readUInt32BE_uintBE (o v : Z) :
  Buffer.readUInt32BE buffer o = JS.Normal v -> v = uintBE buffer o 4.
Proof.
  intros H. pose proof (readUInt32BE_Normal buffer o v H) as (H0 & H1 & _).
  rewrite readUInt32BE_inside in H by lia. congruence.
Qed.

Lemma edition_byte :
  Buffer.readUInt8 buffer 7 = JS.Normal 2 <-> buffer !! 7%nat = Some Byte.x02.
Proof.
  split.
  - intros H. pose proof (readUInt8_Normal buffer 7 2 H) as (_ & Hlen & _).
    unfold Buffer.byteLength in Hlen.
    destruct (buffer !! 7%nat) as [b|] eqn:Hb;
      [|apply lookup_ge_None in Hb; lia].
    rewrite (readUInt8_byte buffer 7 b) in H by (lia || exact Hb).
    injection H as H. f_equal.
    apply (u8_magic b 2 Byte.x02 eq_refl), Z.eqb_eq, H.
  - intros Hb. rewrite (readUInt8_byte buffer 7 Byte.x02) by (lia || exact Hb).
    reflexivity.
Qed.

End LayoutFacts.

Section AcceptFacts.

Import MrmsParser Layout.

Variable buffer : Buffer.t.

Lemma parse_accepted_inv (s : sections) :
  parseSections buffer = JS.Normal s ->
  indicatorOk buffer /\ fieldsInside buffer
  /\ [offset1 s; offset2 s; offset3 s; offset4 s; offset5 s; offset6 s; offset7 s]
     = cursors buffer.
Proof.
  intros H. parse_inv H. injection H as <-. cbn [offset1 offset2 offset3 offset4 offset5 offset6 offset7].
  rewrite !Z.add_0_l in *.
  repeat match goal with
  | E : Buffer.readUInt32BE buffer ?o = JS.Normal ?v |- _ =>
      is_var v;
      pose proof (readUInt32BE_Normal buffer o v E);
      apply readUInt32BE_uintBE in E; subst v
  end.
  match goal with
  | E : Buffer.readUInt8 buffer (16 + _ + 4) = JS.Normal ?v |- _ =>
      pose proof (readUInt8_Normal buffer _ v E);
      apply readUInt8_uintBE in E; subst v
  end.
  match goal with
  | E : Buffer.readUInt8 buffer 7 = JS.Normal ?v, E2 : (?v =? 2) = true |- _ =>
      apply Z.eqb_eq in E2; subst v; apply edition_byte in E
  end.
  match goal with
  | E : Buffer.starts_with_GRIB buffer = true |- _ => apply starts_with_GRIB_magic in E
  end.
  read_ranges.
  split; [split; assumption|].
  split; [|reflexivity].
  unfold fieldsInside, cursors, fieldsAt, fits.
  repeat (apply Forall_cons; split; [cbn [fst snd]; lia|]). apply Forall_nil_2.
Qed.

Lemma parse_accepted :
  indicatorOk buffer -> fieldsInside buffer ->
  exists s, parseSections buffer = JS.Normal s.
Proof.
  intros [Hm He] Hf.
  apply starts_with_GRIB_magic in Hm. apply edition_byte in He.
  pose proof (readUInt8_Normal buffer 7 2 He) as (_ & Hlen & _).
  unfold fieldsInside, cursors, fieldsAt, fits in Hf.
  rewrite !Forall_cons in Hf. cbn [fst snd] in Hf. destruct_and!.
  repeat match goal with
  | |- context [uintBE buffer ?o 4] =>
      lazymatch goal with
      | _ : 0 <= uintBE buffer o 4 |- _ => fail
      | _ => pose proof (uintBE_4_nonneg buffer o)
      end
  | _ : context [uintBE buffer ?o 4] |- _ =>
      lazymatch goal with
      | _ : 0 <= uintBE buffer o 4 |- _ => fail
      | _ => pose proof (uintBE_4_nonneg buffer o)
      end
  end.
  unfold parseSections; cbv zeta. rewrite Hm. cbn [negb]. rewrite !Z.add_0_l.
  rewrite (readUInt8_inside buffer 6), bind_Normal by lia.
  rewrite He, bind_Normal. change (negb (2 =? 2)) with false. cbv iota.
  repeat match goal with
  | |- exists _, Buffer.readUInt32BE buffer ?o ≫= _ = _ =>
      rewrite (readUInt32BE_inside buffer o), bind_Normal
        by (destruct (uintBE buffer (16 + uintBE buffer 16 4 + 4) 1 =? 2); lia)
  | |- exists _, Buffer.readUInt8 buffer ?o ≫= _ = _ =>
      rewrite (readUInt8_inside buffer o), bind_Normal
        by (destruct (uintBE buffer (16 + uintBE buffer 16 4 + 4) 1 =? 2); lia)
  | |- exists _, Buffer.readUInt16BE buffer ?o ≫= _ = _ =>
      let E := fresh in
      destruct (readUInt16BE_inside buffer o) as [? E];
      [ destruct (uintBE buffer (16 + uintBE buffer 16 4 + 4) 1 =? 2); lia ..
      | rewrite E, bind_Normal ]
  | |- exists _, Buffer.readInt16BE buffer ?o ≫= _ = _ =>
      let E := fresh in
      destruct (readInt16BE_inside buffer o) as [? E];
      [ destruct (uintBE buffer (16 + uintBE buffer 16 4 + 4) 1 =? 2); lia ..
      | rewrite E, bind_Normal ]
  | |- exists _, Buffer.readInt32BE buffer ?o ≫= _ = _ =>
      let E := fresh in
      destruct (readInt32BE_inside buffer o) as [? E];
      [ destruct (uintBE buffer (16 + uintBE buffer 16 4 + 4) 1 =? 2); lia ..
      | rewrite E, bind_Normal ]
  | |- exists _, Buffer.readFloatBE buffer ?o ≫= _ = _ =>
      let E := fresh in
      destruct (readFloatBE_inside buffer o) as [? E];
      [ destruct (uintBE buffer (16 + uintBE buffer 16 4 + 4) 1 =? 2); lia ..
      | rewrite E, bind_Normal ]
  end.
  eexists. reflexivity.
Qed.

Lemma parse_Throw_past_indicator (e : JS.exn) :
  indicatorOk buffer -> parseSections buffer = JS.Throw e -> e = JS.RangeError.
Proof.
  intros [Hm He] H.
  apply starts_with_GRIB_magic in Hm. apply edition_byte in He.
  pose proof (readUInt8_Normal buffer 7 2 He) as (_ & Hlen & _).
  unfold parseSections in H; cbv zeta in H. rewrite Hm in H. cbn [negb] in H.
  rewrite !Z.add_0_l in H.
  rewrite (readUInt8_inside buffer 6), bind_Normal in H by lia.
  rewrite He, bind_Normal in H. change (negb (2 =? 2)) with false in H. cbv iota in H.
  repeat match type of H with
  | _ ≫= _ = JS.Throw _ =>
      apply bind_Throw_inv in H as [H | (? & ? & H)];
      [ first [ apply readUInt8_Throw in H | apply readUInt16BE_Throw in H
              | apply readUInt32BE_Throw in H | apply readInt16BE_Throw in H
              | apply readInt32BE_Throw in H | apply readFloatBE_Throw in H ];
        exact H
      | ]
  end.
  discriminate H.
Qed.

End AcceptFacts.

Section AcceptClaim.

Import MrmsParser Layout.

Variable buffer : Buffer.t.

Lemma slice_to_end (a l : Z) :
  0 <= a -> Buffer.byteLength buffer - a <= l ->
  Buffer.slice buffer (a + 5) (a + l) = drop (Z.to_nat (a + 5)) buffer.
Proof.
  intros Ha Hl. unfold Buffer.slice, Buffer.clamp, Buffer.byteLength in *.
  rewrite (Z.min_r (a + l)) by lia. rewrite Nat2Z.id, take_ge by lia.
  destruct (Z.le_gt_cases (a + 5) (Z.of_nat (length buffer))) as [Hle | Hgt].
  - rewrite Z.min_l by lia. reflexivity.
  - rewrite Z.min_r by lia. rewrite Nat2Z.id, !drop_ge by lia. reflexivity.
Qed.

Lemma dataBuffer_clamped (s : sections) :
  parseSections buffer = JS.Normal s ->
  Buffer.byteLength buffer - offset7 s <= section7Length s ->
  dataBuffer s = drop (Z.to_nat (offset7 s + 5)) buffer.
Proof.
  intros H Hlong. pose proof (parseSections_in_range buffer s H) as Hin.
  rewrite !Forall_cons in Hin. destruct_and!.
  parse_inv H. injection H as <-.
  cbn [offset7 section7Length dataBuffer dataOffset] in *.
  apply slice_to_end; lia.
Qed.

Lemma fieldsAt_cursor (o1 o2 o3 o4 o5 o6 o7 x : Z) :
  Forall (fits buffer) (fieldsAt [o1; o2; o3; o4; o5; o6; o7]) ->
  x ∈ [o1; o2; o3; o4; o5; o6; o7] ->
  x + 4 <= Buffer.byteLength buffer.
Proof.
  cbn [fieldsAt]. rewrite !Forall_cons. unfold fits. cbn [fst snd].
  intros Hf Hx.
  repeat (apply elem_of_cons in Hx as [-> | Hx]); [lia .. |].
  apply elem_of_nil in Hx. contradiction.
Qed.

(** C7 (amended): past the indicator section the parse fails exactly
    when one of the fields it reads lies outside the buffer, the
    cursors being formed by adding each declared length to the cursor
    before, and the failure is then the RangeError of the [Buffer]
    accessor; this is the case whenever fewer than 4 bytes remain at
    the cursor of one of the sections 1 to 7.  A declared length is
    never compared with 0 or with the rest of the buffer.  A section 1
    to 6 whose declared length exceeds the rest of the buffer is still
    never accepted: in an accepted message it ends at least 4 bytes
    before the end of the buffer.  The data section is not held to its
    declared length: when that reaches the end of the buffer or goes
    past it, the message is accepted and the payload is what is left of
    the buffer. *)
Theorem parseSections_accepts :
  (indicatorOk buffer /\ fieldsInside buffer
   <-> exists s, parseSections buffer = JS.Normal s)
  /\ (indicatorOk buffer -> ~ fieldsInside buffer ->
      parseSections buffer = JS.Throw JS.RangeError)
  /\ (indicatorOk buffer ->
      (exists o, o ∈ cursors buffer /\ Buffer.byteLength buffer < o + 4) ->
      parseSections buffer = JS.Throw JS.RangeError)
  /\ (forall s,
        parseSections buffer = JS.Normal s ->
        [offset1 s; offset2 s; offset3 s; offset4 s; offset5 s; offset6 s; offset7 s]
        = cursors buffer
        /\ offset1 s + section1Length s + 4 <= Buffer.byteLength buffer
        /\ (section2Number s = 2 ->
            offset2 s + section2Length s + 4 <= Buffer.byteLength buffer)
        /\ offset3 s + section3Length s + 4 <= Buffer.byteLength buffer
        /\ offset4 s + section4Length s + 4 <= Buffer.byteLength buffer
        /\ offset5 s + section5Length s + 4 <= Buffer.byteLength buffer
        /\ offset6 s + section6Length s + 4 <= Buffer.byteLength buffer
        /\ (Buffer.byteLength buffer - offset7 s <= section7Length s ->
            dataBuffer s = drop (Z.to_nat (offset7 s + 5)) buffer)).
Proof.
  assert (indicatorOk buffer -> ~ fieldsInside buffer ->
          parseSections buffer = JS.Throw JS.RangeError) as Hout.
  { intros Hi Hf. destruct (parseSections buffer) as [s|e] eqn:H.
    - destruct (parse_accepted_inv buffer s H) as (_ & Hf' & _). contradiction.
    - rewrite (parse_Throw_past_indicator buffer e Hi H). reflexivity. }
  split; [|split; [exact Hout | split]].
  - split.
    + intros [Hi Hf]. apply parse_accepted; assumption.
    + intros [s H]. destruct (parse_accepted_inv buffer s H) as (Hi & Hf & _). auto.
  - intros Hi (o & Ho & Hlt). apply Hout; [exact Hi|]. intros Hf.
    pose proof (fieldsAt_cursor _ _ _ _ _ _ _ o Hf Ho). lia.
  - intros s H.
    split; [apply (parse_accepted_inv buffer s H)|].
    pose proof (parseSections_in_range buffer s H) as Hin.
    pose proof (parseSections_layout buffer s H) as L. unfold Spec.next3 in L.
    rewrite !Forall_cons in Hin. destruct_and!.
    repeat split; try lia.
    + intros E2. apply Z.eqb_eq in E2. rewrite E2 in *. lia.
    + apply dataBuffer_clamped. exact H.
Qed.

End AcceptClaim.

Section AcceptExamples.

Import MrmsParser Layout.

Lemma parseSections_accepts_witness :
  exists s, parseSections Fixture.overlongSection7 = JS.Normal s.
Proof.
  apply (proj1 (proj1 (parseSections_accepts Fixture.overlongSection7))).
  split; [split; reflexivity|].
  unfold fieldsInside. repeat (apply Forall_cons; split; [vm_compute; discriminate|]).
  apply Forall_nil_2.
Defined.

End AcceptExamples.

(* ===================================================================== *)
(** ** The cache, request by request *)
(* ===================================================================== *)

Section CacheClaim.

Import MrmsParser Server.

Variable Math_pow : Z -> Z -> JS.number.
Variable download : string -> list string -> JS.completion Buffer.t.

Local Abbreviation getLatest := (Server.getLatest Math_pow download).

Lemma product_key_productOf (key : string) (p : product) :
  MRMS_PRODUCTS !! key = Some p -> productOf (Some key) = key.
Proof.
  intros Hp. unfold productOf. destruct (decide (key = "")) as [-> | _]; [|reflexivity].
  vm_compute in Hp. discriminate Hp.
Qed.

Lemma fetchRadarData_decodes (key : string) (p : product) (st : state)
    (bytes : Buffer.t) (g : grib) :
  MRMS_PRODUCTS !! key = Some p ->
  download (url p) (fetched st) = JS.Normal bytes ->
  parseMRMSGrib2 Math_pow bytes = JS.Normal g ->
  fst (Server.fetchRadarData Math_pow download key st)
  = JS.Normal (RadarData g (g_timestamp g)
                 (Metadata (g_nx g) (g_ny g) (g_la1 g) (g_lo1 g) (g_la2 g) (g_lo2 g))).
Proof.
  intros Hp Hd Hg. unfold Server.fetchRadarData. rewrite Hp. cbn [fst].
  rewrite Hd, bind_Normal, Hg, bind_Normal. reflexivity.
Qed.

Lemma fetchRadarData_fails (key : string) (p : product) (st : state) (e : JS.exn) :
  MRMS_PRODUCTS !! key = Some p ->
  (download (url p) (fetched st) = JS.Throw e
   \/ exists bytes, download (url p) (fetched st) = JS.Normal bytes
                    /\ parseMRMSGrib2 Math_pow bytes = JS.Throw e) ->
  fst (Server.fetchRadarData Math_pow download key st) = JS.Throw e.
Proof.
  intros Hp H. unfold Server.fetchRadarData. rewrite Hp. cbn [fst].
  destruct H as [Hd | (bytes & Hd & Hg)].
  - rewrite Hd. reflexivity.
  - rewrite Hd, bind_Normal, Hg. reflexivity.
Qed.

(** C9 (amended): for every product key, (1) a request while
    [now - time < CACHE_DURATION] answers from the cached entry and
    leaves the cache and the download log as they are: nothing is
    fetched or decoded; (2) a request with no entry, or with
    [now - time >= CACHE_DURATION], makes exactly one download from the
    product's URL and, when the download succeeds and its bytes decode,
    answers from the decoded message and stores it under the key with
    [time = now]; (3) when the download or the decoding fails, it
    answers with status 500, leaves the cache as it was and has still
    made its one download; (4) starting without an entry, with a first
    download that succeeds and decodes, the requests at t, t + 119 s
    and t + 121 s make one download in the first two requests and
    exactly one more in the third; (5) a request without a product is a
    request for "rala".  Requests are served one after the other. *)
Theorem cache_fetch_and_decode (key : string) (p : product) :
  MRMS_PRODUCTS !! key = Some p ->
  (forall now st c,
      dataCache st !! key = Some c ->
      now - time c < CACHE_DURATION ->
      getLatest (Some key) now st
      = (LatestJson (timestamp (data c)) (meta (data c)) key, st))
  /\ (forall now st bytes g,
        (dataCache st !! key = None
         \/ exists c, dataCache st !! key = Some c
                      /\ CACHE_DURATION <= now - time c) ->
        download (url p) (fetched st) = JS.Normal bytes ->
        parseMRMSGrib2 Math_pow bytes = JS.Normal g ->
        getLatest (Some key) now st
        = (LatestJson (g_timestamp g)
             (Metadata (g_nx g) (g_ny g) (g_la1 g) (g_lo1 g) (g_la2 g) (g_lo2 g))
             key,
           State (<[key := CacheEntry
                             (RadarData g (g_timestamp g)
                                (Metadata (g_nx g) (g_ny g)
                                   (g_la1 g) (g_lo1 g) (g_la2 g) (g_lo2 g)))
                             now]> (dataCache st))
                 (url p :: fetched st)))
  /\ (forall now st e,
        (dataCache st !! key = None
         \/ exists c, dataCache st !! key = Some c
                      /\ CACHE_DURATION <= now - time c) ->
        (download (url p) (fetched st) = JS.Throw e
         \/ exists bytes, download (url p) (fetched st) = JS.Normal bytes
                          /\ parseMRMSGrib2 Math_pow bytes = JS.Throw e) ->
        getLatest (Some key) now st
        = (Status500 e, State (dataCache st) (url p :: fetched st)))
  /\ (forall t0 st bytes g,
        dataCache st !! key = None ->
        download (url p) (fetched st) = JS.Normal bytes ->
        parseMRMSGrib2 Math_pow bytes = JS.Normal g ->
        let st1 := snd (getLatest (Some key) t0 st) in
        let st2 := snd (getLatest (Some key) (t0 + 119000) st1) in
        let st3 := snd (getLatest (Some key) (t0 + 121000) st2) in
        fetched st1 = url p :: fetched st
        /\ st2 = st1
        /\ fetched st3 = url p :: url p :: fetched st)
  /\ (forall now st, getLatest None now st = getLatest (Some "rala"%string) now st).
Proof.
  intros Hp. pose proof (product_key_productOf key p Hp) as Hk.
  assert (MRMS_PRODUCTS !! productOf (Some key) = Some p) as Hp' by (rewrite Hk; exact Hp).
  assert (forall now st bytes g,
            freshEntry (dataCache st !! key) now = None ->
            download (url p) (fetched st) = JS.Normal bytes ->
            parseMRMSGrib2 Math_pow bytes = JS.Normal g ->
            getLatest (Some key) now st
            = (LatestJson (g_timestamp g)
                 (Metadata (g_nx g) (g_ny g) (g_la1 g) (g_lo1 g) (g_la2 g) (g_lo2 g))
                 key,
               State (<[key := CacheEntry
                                 (RadarData g (g_timestamp g)
                                    (Metadata (g_nx g) (g_ny g)
                                       (g_la1 g) (g_lo1 g) (g_la2 g) (g_lo2 g)))
                                 now]> (dataCache st))
                     (url p :: fetched st))) as Hmiss.
  { intros now st bytes g Hs Hd Hg.
    rewrite (getLatest_miss Math_pow download (Some key) now st p Hp')
      by (rewrite Hk; exact Hs).
    rewrite Hk, (fetchRadarData_decodes key p st bytes g Hp Hd Hg). reflexivity. }
  split; [|split; [|split; [|split]]].
  - intros now st c Hc Hf.
    rewrite (getLatest_hit Math_pow download (Some key) now st c);
      [rewrite Hk; reflexivity | rewrite Hk; exact Hc | exact Hf].
  - intros now st bytes g Hs Hd Hg. apply (Hmiss now st bytes g); [|exact Hd|exact Hg].
    apply freshEntry_None. exact Hs.
  - intros now st e Hs Hf.
    rewrite (getLatest_miss Math_pow download (Some key) now st p Hp')
      by (rewrite Hk; apply freshEntry_None; exact Hs).
    rewrite Hk, (fetchRadarData_fails key p st e Hp Hf). reflexivity.
  - intros t0 st bytes g Hnone Hd Hg. cbv zeta.
    rewrite (Hmiss t0 st bytes g) by (try assumption; rewrite Hnone; reflexivity).
    cbn [snd]. set (d := RadarData _ _ _). set (st1 := State _ _).
    assert (dataCache st1 !! key = Some (CacheEntry d t0)) as Hc1
      by apply lookup_insert_eq.
    assert (getLatest (Some key) (t0 + 119000) st1
            = (LatestJson (timestamp d) (meta d) (productOf (Some key)), st1)) as H2.
    { apply (getLatest_hit Math_pow download (Some key) _ st1 (CacheEntry d t0)).
      - rewrite Hk. exact Hc1.
      - cbn [time]. unfold CACHE_DURATION. lia. }
    rewrite H2. cbn [snd]. split; [reflexivity|]. split; [reflexivity|].
    assert (freshEntry (dataCache st1 !! productOf (Some key)) (t0 + 121000) = None) as Hs.
    { rewrite Hk, Hc1. unfold freshEntry. cbn [time].
      rewrite (proj2 (Z.ltb_ge _ _)); [reflexivity | unfold CACHE_DURATION; lia]. }
    rewrite (getLatest_miss Math_pow download (Some key) _ st1 p Hp' Hs).
    destruct (fst (Server.fetchRadarData Math_pow download (productOf (Some key)) st1));
      reflexivity.
  - reflexivity.
Qed.

End CacheClaim.

Section CacheClaimExamples.

Import MrmsParser Server.

(** C9, as stated, fails: when the download of the request at t = 0
    fails, nothing is stored, and the request at t = 119 s downloads
    again: two fetches within the window. *)
Lemma failed_fetch_not_cached :
  let get := getLatest Host.Math_pow SampleNet.failFirst (Some "rala"%string) in
  let st1 := snd (get 0 (State ∅ [])) in
  let st2 := snd (get 119000 st1) in
  dataCache st1 = ∅
  /\ length (fetched st1) = 1%nat
  /\ length (fetched st2) = 2%nat.
Proof. vm_compute. repeat split. Qed.

Lemma cache_fetch_and_decode_witness :
  exists p g,
    let get := getLatest Host.Math_pow Fixture.deliverTwoCells (Some "composite"%string) in
    let st1 := snd (get 0 (State ∅ [])) in
    let st2 := snd (get (0 + 119000) st1) in
    let st3 := snd (get (0 + 121000) st2) in
    parseMRMSGrib2 Host.Math_pow Fixture.twoCells = JS.Normal g
    /\ fetched st1 = url p :: fetched (State ∅ [])
    /\ st2 = st1
    /\ fetched st3 = url p :: url p :: fetched (State ∅ []).
Proof.
  eassert (parseMRMSGrib2 Host.Math_pow Fixture.twoCells = JS.Normal _) as Hg
    by (vm_compute; reflexivity).
  eexists. eexists. cbv zeta. split; [exact Hg|].
  eapply (proj1 (proj2 (proj2 (proj2
           (cache_fetch_and_decode Host.Math_pow Fixture.deliverTwoCells
              "composite"%string _ eq_refl))))
           0 (State ∅ []) Fixture.twoCells);
    [reflexivity | reflexivity | exact Hg].
Defined.

End CacheClaimExamples.
